(** * cartman.text: text-processing helpers of the cartman Trac client

    A shallow embedding of [cartman/text.py] and of the parts of the Python
    standard library it calls ([re], [difflib], [json], [int], [str.lower],
    [str.split]), followed by the properties of the module.

    Conventions of the embedding:
    - A Python string is a list of 8-bit characters ([str]), and the text is
      ASCII.  The reference behaviour is the one of CPython 3 on [str] with
      no flags given to [re] other than the ones the module passes: on
      ASCII text [\w] is [[a-zA-Z0-9_]], [\d] is [[0-9]], [\s] is the space
      and the characters 9 to 13 and 28 to 31, and [lower] touches [A-Z]
      only.  Above 127 the interpreter knows letters and blanks that the
      model does not: the theorems about [\w] and [\s] state that the text
      is ASCII.
    - A call either returns, raises, or leaves the modelled fragment of the
      library ([Unmodelled]): see [outcome].  [int] leaves it on a numeral
      of more than 4300 digits, on which the versions of the interpreter
      differ.
    - [json.loads] is modelled without the limits of the interpreter: the
      recursion limit, which it meets on a document nested too deep, and
      the limit of 4300 digits on an integer.  The theorems that need them
      state the limits as hypotheses.
    - In the string literals of this file the apostrophe stands for the double
      quote character (see [py]); the module never uses an apostrophe.

    Part I is the program; Part II the scanners and predicates of the
    statements; Part III the definitions of the proofs; Part IV the lemmas
    and the theorems, function by function. *)

From Stdlib Require Import Ascii String List ZArith Lia Bool Floats Uint63.
From stdpp Require Import base option list gmap strings.
Import ListNotations.

Local Open Scope char_scope.
Local Open Scope nat_scope.

(** * Part I.  The program *)

(** ** Strings *)

Definition str := list ascii.

Definition dquote : ascii := "034".
Definition newline : ascii := "010".
Definition backslash : ascii := "092".

(** [py "..."] is the Python string written between the quotes, where an
    apostrophe is read as a double quote. *)
Definition py (s : string) : str :=
  map (fun c => if Ascii.eqb c "'" then dquote else c) (list_ascii_of_string s).

Definition code (c : ascii) : nat := nat_of_ascii c.

Definition in_range (lo hi c : ascii) : bool :=
  (code lo <=? code c) && (code c <=? code hi).

Definition is_digit (c : ascii) : bool := in_range "0" "9" c.
Definition is_upper (c : ascii) : bool := in_range "A" "Z" c.
Definition is_lower (c : ascii) : bool := in_range "a" "z" c.

(** [\w]: letters, digits and the underscore. *)
Definition is_word (c : ascii) : bool :=
  is_digit c || is_lower c || is_upper c || Ascii.eqb c "_".

(** The blanks every version of the interpreter knows: space, and the
    characters 9 to 13 (tab, newline, vertical tab, form feed, carriage
    return). *)
Definition is_space (c : ascii) : bool :=
  Ascii.eqb c " " || in_range "009" "013" c.

(** [\s] in a pattern over text: the blanks above and the separators 28 to
    31, which are blanks for [str]. *)
Definition is_blank (c : ascii) : bool :=
  is_space c || in_range "028" "031" c.

(** [str.lower]. *)
Definition lower_char (c : ascii) : ascii :=
  if is_upper c then ascii_of_nat (code c + 32) else c.

Definition lower (s : str) : str := map lower_char s.

(** Comparison of strings, character code by character code. *)
Fixpoint str_ltb (s t : str) : bool :=
  match s, t with
  | _, [] => false
  | [], _ :: _ => true
  | c :: s', d :: t' =>
      if code c <? code d then true
      else if code d <? code c then false
      else str_ltb s' t'
  end.

(** [is_prefix p s]: [s] starts with [p]. *)
Fixpoint is_prefix (p s : str) : bool :=
  match p, s with
  | [], _ => true
  | c :: p', d :: s' => Ascii.eqb c d && is_prefix p' s'
  | _ :: _, [] => false
  end.

(** The longest prefix of [s] whose characters satisfy [p], and the rest. *)
Fixpoint span (p : ascii -> bool) (s : str) : str * str :=
  match s with
  | c :: tl => if p c then let '(a, b) := span p tl in (c :: a, b) else ([], s)
  | [] => ([], [])
  end.

(** ** Results of calls *)

(** Modelled from the spec: the exception classes [InvalidParameter] and
    [FatalError] of [cartman/exceptions.py], which is not among the sources;
    the spec names the two error kinds: the invalid parameter and the fatal
    extraction error.  The others are Python's built-in exceptions and
    [re.error]. *)
Inductive exn : Type :=
  | ReError
  | ValueError
  | TypeError
  | KeyError
  | AttributeError
  | InvalidParameter (msg : string)
  | FatalError (msg : string).

Inductive outcome (A : Type) : Type :=
  | Ret (a : A)
  | Raise (e : exn)
  | Unmodelled.
Arguments Ret {A} a.
Arguments Raise {A} e.
Arguments Unmodelled {A}.

#[global] Instance outcome_ret : MRet outcome := fun A a => Ret a.
#[global] Instance outcome_bind : MBind outcome := fun A B f m =>
  match m with
  | Ret a => f a
  | Raise e => Raise e
  | Unmodelled => Unmodelled
  end.
#[global] Instance outcome_fmap : FMap outcome := fun A B f m =>
  match m with
  | Ret a => Ret (f a)
  | Raise e => Raise e
  | Unmodelled => Unmodelled
  end.

(** [try: ... except (ValueError, TypeError): handler]. *)
Definition except_value_type {A} (m : outcome A) (handler : outcome A) : outcome A :=
  match m with
  | Raise ValueError | Raise TypeError => handler
  | _ => m
  end.

(** ** Regular expressions: abstract syntax *)

Module Re.

Inductive category : Type :=
  | Digit | NotDigit | Space | NotSpace | Word | NotWord.

Inductive set_item : Type :=
  | SLiteral (c : ascii)
  | SRange (lo hi : ascii)
  | SCategory (k : category).

Inductive at_code : Type :=
  | AtBeginning          (* ^ *)
  | AtEnd                (* $ *)
  | AtBeginningString    (* \A *)
  | AtEndString          (* \Z *)
  | AtBoundary           (* \b *)
  | AtNonBoundary.       (* \B *)

Inductive regex : Type :=
  | Empty
  | Literal (c : ascii)
  | AnyChar                                         (* . *)
  | CharSet (negate : bool) (items : list set_item) (* [...] and \d, \w, \s *)
  | Assert (a : at_code)
  | Concat (r1 r2 : regex)
  | Branch (r1 r2 : regex)                          (* r1|r2 *)
  | Repeat (lo : nat) (hi : option nat) (greedy : bool) (r : regex)
  | Subpattern (gid : option nat) (r : regex).      (* (...) and (?:...) *)

(** A compiled pattern: its syntax tree and the number of capturing groups. *)
Record pattern : Type := Pattern { rx : regex; groups : nat }.

(** ** Matching *)

Definition in_category (k : category) (c : ascii) : bool :=
  match k with
  | Digit => is_digit c
  | NotDigit => negb (is_digit c)
  | Space => is_blank c
  | NotSpace => negb (is_blank c)
  | Word => is_word c
  | NotWord => negb (is_word c)
  end.

Definition in_item (i : set_item) (c : ascii) : bool :=
  match i with
  | SLiteral d => Ascii.eqb c d
  | SRange lo hi => in_range lo hi c
  | SCategory k => in_category k c
  end.

Definition in_set (negate : bool) (items : list set_item) (c : ascii) : bool :=
  xorb negate (existsb (fun i => in_item i c) items).

(** The state of a match attempt: the character before the current position
    ([None] at the start of the string), the text from the current position
    on, and the groups captured so far. *)
Record mstate : Type := MState {
  ms_prev : option ascii;
  ms_rest : str;
  ms_groups : gmap nat str
}.

Definition kont : Type := mstate -> option mstate.

Definition word_before (st : mstate) : bool :=
  match ms_prev st with Some c => is_word c | None => false end.

Definition word_after (st : mstate) : bool :=
  match ms_rest st with c :: _ => is_word c | [] => false end.

Definition whole_string_empty (st : mstate) : bool :=
  match ms_prev st, ms_rest st with None, [] => true | _, _ => false end.

Definition at_holds (multiline : bool) (a : at_code) (st : mstate) : bool :=
  match a with
  | AtBeginning =>
      match ms_prev st with
      | None => true
      | Some c => multiline && Ascii.eqb c newline
      end
  | AtEnd =>
      match ms_rest st with
      | [] => true
      | c :: tl => Ascii.eqb c newline && (multiline || match tl with [] => true | _ => false end)
      end
  | AtBeginningString => match ms_prev st with None => true | Some _ => false end
  | AtEndString => match ms_rest st with [] => true | _ => false end
  | AtBoundary => xorb (word_before st) (word_after st)
  | AtNonBoundary =>
      negb (whole_string_empty st) && negb (xorb (word_before st) (word_after st))
  end.

(** Consume one character satisfying [p]. *)
Definition step_char (p : ascii -> bool) (st : mstate) (k : kont) : option mstate :=
  match ms_rest st with
  | c :: tl => if p c then k (MState (Some c) tl (ms_groups st)) else None
  | [] => None
  end.

Definition hi_is_zero (hi : option nat) : bool :=
  match hi with Some 0 => true | _ => false end.

(** The loop of a repetition.  The first [lo] iterations are mandatory.  Once
    they are done, a greedy repetition tries one more iteration before it
    tries what follows; a lazy one tries what follows first.  [last] is the
    amount of text that was left when the previous optional iteration
    started: when as much is left now, that iteration consumed nothing, and
    no further iteration is tried.  [fuel] bounds the number of iterations:
    [lo] plus the length of the text left, plus two, is never exhausted. *)
Fixpoint repeat_loop (body : mstate -> kont -> option mstate)
    (fuel lo : nat) (hi : option nat) (greedy : bool) (last : option nat)
    (st : mstate) (k : kont) : option mstate :=
  match fuel with
  | 0 => None
  | S fuel' =>
      if 0 <? lo then
        if hi_is_zero hi then None
        else body st (fun st' =>
               repeat_loop body fuel' (pred lo) (option_map pred hi) greedy last st' k)
      else
        let here := length (ms_rest st) in
        let again (_ : unit) :=
          if hi_is_zero hi || bool_decide (last = Some here) then None
          else body st (fun st' =>
                 repeat_loop body fuel' 0 (option_map pred hi) greedy (Some here) st' k) in
        if greedy then
          match again tt with Some m => Some m | None => k st end
        else
          match k st with Some m => Some m | None => again tt end
  end.

(** The backtracking matcher: [run ml r st k] matches [r] at [st] and hands
    each way of doing so, in the order of preference of [re], to [k] until
    [k] accepts one. *)
Fixpoint run (multiline : bool) (r : regex) (st : mstate) (k : kont) : option mstate :=
  match r with
  | Empty => k st
  | Literal c => step_char (Ascii.eqb c) st k
  | AnyChar => step_char (fun c => negb (Ascii.eqb c newline)) st k
  | CharSet negate items => step_char (in_set negate items) st k
  | Assert a => if at_holds multiline a st then k st else None
  | Concat r1 r2 => run multiline r1 st (fun st' => run multiline r2 st' k)
  | Branch r1 r2 =>
      match run multiline r1 st k with
      | Some m => Some m
      | None => run multiline r2 st k
      end
  | Repeat lo hi greedy r' =>
      repeat_loop (run multiline r') (lo + length (ms_rest st) + 2) lo hi greedy None st k
  | Subpattern gid r' =>
      run multiline r' st (fun st' =>
        match gid with
        | Some g =>
            let text := take (length (ms_rest st) - length (ms_rest st')) (ms_rest st) in
            k (MState (ms_prev st') (ms_rest st') (<[g := text]> (ms_groups st')))
        | None => k st'
        end)
  end.

(** A successful match: the text it started at, and the state at its end. *)
Record mobject : Type := MObject { mo_start : str; mo_end : mstate }.

(** The text of group [g]; the whole match is group 0. *)
Definition group (m : mobject) (g : nat) : option str :=
  match g with
  | 0 => Some (take (length (mo_start m) - length (ms_rest (mo_end m))) (mo_start m))
  | _ => ms_groups (mo_end m) !! g
  end.

Definition match_at (multiline : bool) (r : regex) (prev : option ascii) (s : str)
  : option mobject :=
  match run multiline r (MState prev s ∅) Some with
  | Some st => Some (MObject s st)
  | None => None
  end.

(** Scan for the leftmost position at which the pattern matches. *)
Fixpoint search_from (multiline : bool) (r : regex) (prev : option ascii) (s : str)
  : option mobject :=
  match match_at multiline r prev s with
  | Some m => Some m
  | None =>
      match s with
      | [] => None
      | c :: tl => search_from multiline r (Some c) tl
      end
  end.

(** All non-overlapping matches, left to right, each search starting where
    the previous match ended.  [None] when a match is empty: how the scan
    resumes then depends on the version of the interpreter.  [fuel] bounds
    the number of matches; one more than the length of the text is never
    exhausted. *)
Fixpoint findall_from (fuel : nat) (multiline : bool) (r : regex)
    (prev : option ascii) (s : str) : option (list mobject) :=
  match fuel with
  | 0 => None
  | S fuel' =>
      match search_from multiline r prev s with
      | None => Some []
      | Some m =>
          if length (ms_rest (mo_end m)) <? length (mo_start m) then
            ms ← findall_from fuel' multiline r (ms_prev (mo_end m)) (ms_rest (mo_end m));
            Some (m :: ms)
          else None
      end
  end.

(** ** Parsing patterns

    The fragment of the pattern language that is modelled: literals, [.],
    [^], [$], [|], capturing and non-capturing groups, character sets, the
    repetitions [*], [+], [?] and [{m,n}] with their lazy forms, and the
    escapes [\A \Z \b \B \d \D \s \S \w \W \a \f \n \r \t \v] and escaped
    punctuation.  A pattern of the fragment that [re] rejects raises
    [ReError]; every other construct (other escapes of letters and digits,
    the [(?...)] extensions, possessive repetition, huge bounds) is
    [Unmodelled]. *)

Definition is_alnum (c : ascii) : bool := is_digit c || is_lower c || is_upper c.

Definition category_of (c : ascii) : option category :=
  if Ascii.eqb c "d" then Some Digit
  else if Ascii.eqb c "D" then Some NotDigit
  else if Ascii.eqb c "s" then Some Space
  else if Ascii.eqb c "S" then Some NotSpace
  else if Ascii.eqb c "w" then Some Word
  else if Ascii.eqb c "W" then Some NotWord
  else None.

(** The character escapes [\a \f \n \r \t \v]. *)
Definition control_of (c : ascii) : option ascii :=
  if Ascii.eqb c "a" then Some "007"%char
  else if Ascii.eqb c "f" then Some "012"%char
  else if Ascii.eqb c "n" then Some "010"%char
  else if Ascii.eqb c "r" then Some "013"%char
  else if Ascii.eqb c "t" then Some "009"%char
  else if Ascii.eqb c "v" then Some "011"%char
  else None.

(** An escape outside a character set; [s] is the text after the backslash. *)
Definition parse_escape (s : str) : outcome (regex * str) :=
  match s with
  | [] => Raise ReError
  | c :: tl =>
      if Ascii.eqb c "A" then Ret (Assert AtBeginningString, tl)
      else if Ascii.eqb c "Z" then Ret (Assert AtEndString, tl)
      else if Ascii.eqb c "b" then Ret (Assert AtBoundary, tl)
      else if Ascii.eqb c "B" then Ret (Assert AtNonBoundary, tl)
      else match category_of c with
      | Some k => Ret (CharSet false [SCategory k], tl)
      | None =>
        match control_of c with
        | Some d => Ret (Literal d, tl)
        | None => if is_alnum c then Unmodelled else Ret (Literal c, tl)
        end
      end
  end.

(** An escape inside a character set, where [\b] is the backspace. *)
Definition parse_class_escape (s : str) : outcome (set_item * str) :=
  match s with
  | [] => Raise ReError
  | c :: tl =>
      match category_of c with
      | Some k => Ret (SCategory k, tl)
      | None =>
        if Ascii.eqb c "b" then Ret (SLiteral "008"%char, tl)
        else match control_of c with
        | Some d => Ret (SLiteral d, tl)
        | None => if is_alnum c then Unmodelled else Ret (SLiteral c, tl)
        end
      end
  end.

Definition parse_set_atom (c : ascii) (tl : str) : outcome (set_item * str) :=
  if Ascii.eqb c backslash then parse_class_escape tl else Ret (SLiteral c, tl).

(** The members of a character set, after [[] or [[^]; [acc] holds the
    members read so far, last first.  A []] closes the set unless it is its
    first member. *)
Fixpoint parse_set (fuel : nat) (acc : list set_item) (s : str)
  : outcome (list set_item * str) :=
  match fuel with
  | 0 => Unmodelled
  | S fuel' =>
      match s with
      | [] => Raise ReError
      | c :: tl =>
          if Ascii.eqb c "]" && negb (match acc with [] => true | _ => false end)
          then Ret (rev acc, tl)
          else
            '(code1, s1) ← parse_set_atom c tl;
            match s1 with
            | "-"%char :: [] => Raise ReError
            | "-"%char :: "]"%char :: s2 => Ret (rev (SLiteral "-" :: code1 :: acc), s2)
            | "-"%char :: d :: s2 =>
                '(code2, s3) ← parse_set_atom d s2;
                match code1, code2 with
                | SLiteral lo, SLiteral hi =>
                    if code hi <? code lo then Raise ReError
                    else parse_set fuel' (SRange lo hi :: acc) s3
                | _, _ => Raise ReError
                end
            | _ => parse_set fuel' (code1 :: acc) s1
            end
      end
  end.

Definition digit_value (c : ascii) : nat := code c - code "0".

Definition nat_of_digits (s : str) : nat :=
  foldl (fun n c => 10 * n + digit_value c) 0 s.

(** The largest repetition bound the model reads; beyond it the limit depends
    on the build of the interpreter. *)
Definition max_bound : N := 65535.

(** The bounds of [{m,n}], [s] being the text after the brace.  [None] when
    the brace does not open a repetition and stands for itself. *)
Definition parse_braces (s : str) : option (outcome (nat * option nat * str)) :=
  match s with
  | "}"%char :: _ => None
  | _ =>
      let '(lo, s1) := span is_digit s in
      let '(hi, s2) :=
        match s1 with
        | ","%char :: s1' => span is_digit s1'
        | _ => (lo, s1)
        end in
      match s2 with
      | "}"%char :: s3 =>
          let minv := match lo with [] => 0 | _ => nat_of_digits lo end in
          let maxv := match hi with [] => None | _ => Some (nat_of_digits hi) end in
          if (max_bound <=? N.of_nat minv)%N || (max_bound <=? N.of_nat (default 0%nat maxv))%N
          then Some Unmodelled
          else if default minv maxv <? minv then Some (Raise ReError)
          else Some (Ret (minv, maxv, s3))
      | _ => None
      end
  end.

(** Attach a repetition to the last item read; [s] is the text after the
    repetition operator. *)
Definition apply_repeat (acc : list regex) (lo : nat) (hi : option nat) (s : str)
  : outcome (list regex * str) :=
  match acc with
  | [] => Raise ReError
  | Assert _ :: _ => Raise ReError
  | Repeat _ _ _ _ :: _ => Raise ReError
  | item :: acc' =>
      match s with
      | "?"%char :: tl => Ret (Repeat lo hi false item :: acc', tl)
      | "+"%char :: _ => Unmodelled
      | _ => Ret (Repeat lo hi true item :: acc', s)
      end
  end.

(** The items of a sequence, last first, as one expression. *)
Definition seq_of (acc : list regex) : regex :=
  foldl (fun r item => Concat item r) Empty acc.

Definition expect_close (s : str) : outcome str :=
  match s with
  | ")"%char :: tl => Ret tl
  | _ => Raise ReError
  end.

(** [parse_alt] reads alternatives separated by [|]; [parse_items] reads the
    items of one alternative up to a [|], a [)] or the end.  [g] is the
    number of the next capturing group. *)
Fixpoint parse_alt (fuel : nat) (s : str) (g : nat) : outcome (regex * str * nat) :=
  match fuel with
  | 0 => Unmodelled
  | S fuel' =>
      '(acc, s1, g1) ← parse_items fuel' [] s g;
      match s1 with
      | "|"%char :: s2 =>
          '(r2, s3, g3) ← parse_alt fuel' s2 g1;
          Ret (Branch (seq_of acc) r2, s3, g3)
      | _ => Ret (seq_of acc, s1, g1)
      end
  end
with parse_items (fuel : nat) (acc : list regex) (s : str) (g : nat)
  : outcome (list regex * str * nat) :=
  match fuel with
  | 0 => Unmodelled
  | S fuel' =>
      match s with
      | [] => Ret (acc, [], g)
      | c :: tl =>
          if Ascii.eqb c "|" || Ascii.eqb c ")" then Ret (acc, s, g)
          else if Ascii.eqb c backslash then
            '(item, s1) ← parse_escape tl;
            parse_items fuel' (item :: acc) s1 g
          else if Ascii.eqb c "[" then
            let '(negate, s0) :=
              match tl with
              | "^"%char :: tl' => (true, tl')
              | _ => (false, tl)
              end in
            '(items, s1) ← parse_set (S (length s0)) [] s0;
            parse_items fuel' (CharSet negate items :: acc) s1 g
          else if Ascii.eqb c "*" then
            '(acc', s1) ← apply_repeat acc 0 None tl;
            parse_items fuel' acc' s1 g
          else if Ascii.eqb c "+" then
            '(acc', s1) ← apply_repeat acc 1 None tl;
            parse_items fuel' acc' s1 g
          else if Ascii.eqb c "?" then
            '(acc', s1) ← apply_repeat acc 0 (Some 1) tl;
            parse_items fuel' acc' s1 g
          else if Ascii.eqb c "{" then
            match parse_braces tl with
            | None => parse_items fuel' (Literal c :: acc) tl g
            | Some bounds =>
                '(lo, hi, s1) ← bounds;
                '(acc', s2) ← apply_repeat acc lo hi s1;
                parse_items fuel' acc' s2 g
            end
          else if Ascii.eqb c "." then parse_items fuel' (AnyChar :: acc) tl g
          else if Ascii.eqb c "^" then parse_items fuel' (Assert AtBeginning :: acc) tl g
          else if Ascii.eqb c "$" then parse_items fuel' (Assert AtEnd :: acc) tl g
          else if Ascii.eqb c "(" then
            match tl with
            | "?"%char :: ":"%char :: s0 =>
                '(r, s1, g1) ← parse_alt fuel' s0 g;
                s2 ← expect_close s1;
                parse_items fuel' (Subpattern None r :: acc) s2 g1
            | "?"%char :: _ => Unmodelled
            | _ =>
                '(r, s1, g1) ← parse_alt fuel' tl (S g);
                s2 ← expect_close s1;
                parse_items fuel' (Subpattern (Some g) r :: acc) s2 g1
            end
          else parse_items fuel' (Literal c :: acc) tl g
      end
  end.

(** [re.compile]. *)
Definition compile (p : str) : outcome pattern :=
  '(r, rest, g) ← parse_alt (2 * length p + 2) p 1;
  match rest with
  | [] => Ret (Pattern r (g - 1))
  | _ => Raise ReError
  end.

(** ** The functions of the module [re]

    [multiline] is the flag [re.MULTILINE]; no other flag is modelled. *)

(** [re.match(p, s)]: the match object, or [None]. *)
Definition re_match (p : str) (s : str) (multiline : bool) : outcome (option mobject) :=
  pat ← compile p;
  Ret (match_at multiline (rx pat) None s).

(** [re.search(p, s, flags)]. *)
Definition search (p : str) (s : str) (multiline : bool) : outcome (option mobject) :=
  pat ← compile p;
  Ret (search_from multiline (rx pat) None s).

(** An element of the list [re.findall] returns: the text of the match when
    the pattern has no group, the text of the group when it has one, and the
    tuple of the groups otherwise; a group that took no part in the match
    gives the empty string. *)
Inductive fitem : Type :=
  | FText (s : str)
  | FTuple (l : list str).

Definition group_text (m : mobject) (g : nat) : str := default [] (group m g).

Definition findall_item (ngroups : nat) (m : mobject) : fitem :=
  match ngroups with
  | 0 => FText (group_text m 0)
  | 1 => FText (group_text m 1)
  | _ => FTuple (map (group_text m) (seq 1 ngroups))
  end.

(** [re.findall(p, s, flags)]. *)
Definition findall (p : str) (s : str) (multiline : bool) : outcome (list fitem) :=
  pat ← compile p;
  match findall_from (S (length s)) multiline (rx pat) None s with
  | Some ms => Ret (map (findall_item (groups pat)) ms)
  | None => Unmodelled
  end.

End Re.

(** ** [difflib]: close matches

    [difflib.get_close_matches(word, possibilities)] with its default
    arguments [n=3] and [cutoff=0.6].  It scores each possibility [x] with a
    [SequenceMatcher] whose first sequence is [x] and whose second sequence is
    [word], built with [isjunk=None] and [autojunk=True]. *)

Module Difflib.

Definition enumerate {A} (l : list A) : list (nat * A) := zip (seq 0 (length l)) l.

(** [__chain_b]: for each character of [b] the increasing list of its
    positions; when [b] has 200 characters or more, the characters that
    occur more than [len(b) // 100 + 1] times are dropped ("popular"). *)
Definition chain_b (b : str) : gmap ascii (list nat) :=
  let b2j :=
    foldl (fun (m : gmap ascii (list nat)) '(i, elt) =>
             <[elt := default [] (m !! elt) ++ [i]]> m) ∅ (enumerate b) in
  let n := length b in
  if 200 <=? n then
    let ntest := n / 100 + 1 in
    filter (fun kv : ascii * list nat => length kv.2 ≤ ntest) b2j
  else b2j.

(** No character is junk: [isjunk] is [None]. *)
Definition bjunk : gset ascii := ∅.
Definition isbjunk (c : ascii) : bool := bool_decide (c ∈ bjunk).

(** [Match(a, b, size)]. *)
Record block : Type := Block { b_i : nat; b_j : nat; b_size : nat }.

(** The inner loop of [find_longest_match], over the positions [js] of
    [a[i]] in [b].  [j2len.get(j-1, 0)] is 0 for [j = 0]. *)
Fixpoint scan_row (js : list nat) (i blo bhi : nat) (j2len newj2len : gmap nat nat)
    (best : block) : gmap nat nat * block :=
  match js with
  | [] => (newj2len, best)
  | j :: js' =>
      if j <? blo then scan_row js' i blo bhi j2len newj2len best
      else if bhi <=? j then (newj2len, best)
      else
        let k := match j with 0 => 0 | S j' => default 0 (j2len !! j') end + 1 in
        let best' := if b_size best <? k then Block (i + 1 - k) (j + 1 - k) k else best in
        scan_row js' i blo bhi j2len (<[j := k]> newj2len) best'
  end.

(** The outer loop, [for i in range(alo, ahi)]; [rows] is that range. *)
Fixpoint scan (a : str) (b2j : gmap ascii (list nat)) (rows : list nat) (blo bhi : nat)
    (j2len : gmap nat nat) (best : block) : block :=
  match rows with
  | [] => best
  | i :: rows' =>
      match a !! i with
      | Some c =>
          let '(newj2len, best') :=
            scan_row (default [] (b2j !! c)) i blo bhi j2len ∅ best in
          scan a b2j rows' blo bhi newj2len best'
      | None => best
      end
  end.

(** The loops that grow the block to the left and to the right while the
    neighbouring characters agree and are junk ([junk = true]) or not junk
    ([junk = false]). *)
Fixpoint extend_left (fuel : nat) (a b : str) (alo blo : nat) (junk : bool) (best : block)
  : block :=
  match fuel with
  | 0 => best
  | S fuel' =>
      if (alo <? b_i best) && (blo <? b_j best) then
        match a !! (b_i best - 1), b !! (b_j best - 1) with
        | Some x, Some y =>
            if Bool.eqb (isbjunk y) junk && Ascii.eqb x y
            then extend_left fuel' a b alo blo junk
                   (Block (b_i best - 1) (b_j best - 1) (b_size best + 1))
            else best
        | _, _ => best
        end
      else best
  end.

Fixpoint extend_right (fuel : nat) (a b : str) (ahi bhi : nat) (junk : bool) (best : block)
  : block :=
  match fuel with
  | 0 => best
  | S fuel' =>
      if (b_i best + b_size best <? ahi) && (b_j best + b_size best <? bhi) then
        match a !! (b_i best + b_size best), b !! (b_j best + b_size best) with
        | Some x, Some y =>
            if Bool.eqb (isbjunk y) junk && Ascii.eqb x y
            then extend_right fuel' a b ahi bhi junk
                   (Block (b_i best) (b_j best) (b_size best + 1))
            else best
        | _, _ => best
        end
      else best
  end.

(** [find_longest_match(alo, ahi, blo, bhi)]. *)
Definition find_longest_match (a b : str) (b2j : gmap ascii (list nat))
    (alo ahi blo bhi : nat) : block :=
  let best := scan a b2j (seq alo (ahi - alo)) blo bhi ∅ (Block alo blo 0) in
  let best := extend_left (b_i best) a b alo blo false best in
  let best := extend_right (ahi - (b_i best + b_size best)) a b ahi bhi false best in
  let best := extend_left (b_i best) a b alo blo true best in
  extend_right (ahi - (b_i best + b_size best)) a b ahi bhi true best.

(** The loop of [get_matching_blocks].  [queue] is used as a stack: its head
    is the element [queue.pop()] removes.  The blocks are collected last
    first.  [None] when [fuel] runs out, which [matching_blocks_total] shows
    never to happen with the fuel [get_matching_blocks] gives. *)
Fixpoint matching_loop (fuel : nat) (a b : str) (b2j : gmap ascii (list nat))
    (queue : list (nat * nat * nat * nat)) (blocks : list block) : option (list block) :=
  match fuel with
  | 0 => None
  | S fuel' =>
      match queue with
      | [] => Some blocks
      | (alo, ahi, blo, bhi) :: queue' =>
          let x := find_longest_match a b b2j alo ahi blo bhi in
          let '(i, j, k) := (b_i x, b_j x, b_size x) in
          if k =? 0 then matching_loop fuel' a b b2j queue' blocks
          else
            let queue1 :=
              if (alo <? i) && (blo <? j) then (alo, i, blo, j) :: queue' else queue' in
            let queue2 :=
              if (i + k <? ahi) && (j + k <? bhi) then (i + k, ahi, j + k, bhi) :: queue1
              else queue1 in
            matching_loop fuel' a b b2j queue2 (x :: blocks)
      end
  end.

(** The matching blocks found, before [get_matching_blocks] sorts them,
    merges the adjacent ones and adds the final empty block; none of these
    steps changes the sum of the sizes, which is all [ratio] uses. *)
Definition get_matching_blocks (a b : str) : option (list block) :=
  matching_loop (2 * length a + 2) a b (chain_b b) [(0, length a, 0, length b)] [].

Definition float_of_nat (n : nat) : float := PrimFloat.of_uint63 (Uint63.of_Z (Z.of_nat n)).

(** [_calculate_ratio(matches, length)]. *)
Definition calculate_ratio (matches length : nat) : float :=
  match length with
  | 0 => 1%float
  | _ => (2 * float_of_nat matches / float_of_nat length)%float
  end.

(** [ratio()]. *)
Definition ratio (a b : str) : option float :=
  blocks ← get_matching_blocks a b;
  Some (calculate_ratio (foldr (fun x n => b_size x + n) 0 blocks) (length a + length b)).

(** [quick_ratio()]: the size of the intersection of [a] and [b] as
    multisets.  [avail] may hold negative counts. *)
Definition quick_ratio (a b : str) : float :=
  let fullbcount : gmap ascii Z :=
    foldl (fun m elt => <[elt := (default 0 (m !! elt) + 1)%Z]> m) ∅ b in
  let '(_, matches) :=
    foldl (fun '((avail, matches) : gmap ascii Z * nat) elt =>
             let numb :=
               match avail !! elt with
               | Some n => n
               | None => default 0%Z (fullbcount !! elt)
               end in
             (<[elt := (numb - 1)%Z]> avail,
              if (0 <? numb)%Z then matches + 1 else matches))
          (∅, 0) a in
  calculate_ratio matches (length a + length b).

(** [real_quick_ratio()]. *)
Definition real_quick_ratio (a b : str) : float :=
  calculate_ratio (min (length a) (length b)) (length a + length b).

(** The default [cutoff], the double nearest to 0.6. *)
Definition cutoff : float := 0x1.3333333333333p-1%float.

(** The order of the pairs [(score, x)]. *)
Definition scored_ltb (p q : float * str) : bool :=
  PrimFloat.ltb p.1 q.1 || (PrimFloat.eqb p.1 q.1 && str_ltb p.2 q.2).

Fixpoint insert_desc (p : float * str) (l : list (float * str)) : list (float * str) :=
  match l with
  | [] => [p]
  | q :: l' => if scored_ltb p q then q :: insert_desc p l' else p :: l
  end.

(** [heapq.nlargest(n, result)]: the [n] largest pairs, largest first. *)
Definition nlargest (n : nat) (l : list (float * str)) : list (float * str) :=
  take n (foldr insert_desc [] l).

(** The loop over the possibilities; [None] only if a ratio is. *)
Fixpoint score_all (word : str) (possibilities : list str) : option (list (float * str)) :=
  match possibilities with
  | [] => Some []
  | x :: rest =>
      r ← ratio x word;
      result ← score_all word rest;
      if PrimFloat.leb cutoff (real_quick_ratio x word)
         && PrimFloat.leb cutoff (quick_ratio x word)
         && PrimFloat.leb cutoff r
      then Some ((r, x) :: result)
      else Some result
  end.

Definition get_close_matches (word : str) (possibilities : list str) : option (list str) :=
  result ← score_all word possibilities;
  Some (map snd (nlargest 3 result)).

End Difflib.

(** ** Built-in conversions: [int] and [str.split] *)

Module Builtins.

(** The values [validate_id] may receive: a string, an integer, or [None]. *)
Inductive pyvalue : Type :=
  | PyNone
  | PyInt (z : Z)
  | PyStr (s : str).

Fixpoint lstrip (s : str) : str :=
  match s with
  | c :: tl => if is_space c then lstrip tl else s
  | [] => []
  end.

Definition strip (s : str) : str := rev (lstrip (rev (lstrip s))).

Definition Z_of_digits (s : str) : Z :=
  foldl (fun n c => (10 * n + Z.of_nat (Re.digit_value c))%Z) 0%Z s.

(** Characters on which the versions of the interpreter disagree when they
    convert a string to an integer: the underscore, the separators 28 to
    31, and the characters above 127. *)
Definition version_dependent (c : ascii) : bool :=
  Ascii.eqb c "_" || in_range "028" "031" c || (128 <=? code c).

(** The sign that may open a numeral: whether it is a minus, and what
    follows it. *)
Definition split_sign (t : str) : bool * str :=
  match t with
  | "-"%char :: d => (true, d)
  | "+"%char :: d => (false, d)
  | _ => (false, t)
  end.

(** The longest numeral every version of the interpreter converts: the
    recent ones raise [ValueError] beyond 4300 digits, leading zeros
    counted, the older ones have no limit. *)
Definition max_str_digits : nat := 4300.

(** [int(s)] for a string: optional blanks, an optional sign, one or more
    decimal digits, optional blanks.  A numeral longer than [max_str_digits]
    is outside the model. *)
Definition int_of_str (s : str) : outcome Z :=
  if existsb version_dependent s then Unmodelled
  else
    let '(negative, digits) := split_sign (strip s) in
    match digits with
    | [] => Raise ValueError
    | _ =>
        if forallb is_digit digits
        then
          if max_str_digits <? length digits then Unmodelled
          else Ret (if negative then (- Z_of_digits digits)%Z else Z_of_digits digits)
        else Raise ValueError
    end.

(** [int(v)]. *)
Definition int (v : pyvalue) : outcome Z :=
  match v with
  | PyNone => Raise TypeError
  | PyInt z => Ret z
  | PyStr s => int_of_str s
  end.

(** [s.split(sep)] for a separator of one character. *)
Fixpoint split (sep : ascii) (s : str) : list str :=
  match s with
  | [] => [[]]
  | c :: tl =>
      if Ascii.eqb c sep then [] :: split sep tl
      else match split sep tl with
           | h :: t => (c :: h) :: t
           | [] => [[c]]
           end
  end.

(** [[f(x) for x in l]] where [f] may raise. *)
Fixpoint map_outcome {A B} (f : A -> outcome B) (l : list A) : outcome (list B) :=
  match l with
  | [] => Ret []
  | x :: tl => y ← f x; ys ← map_outcome f tl; Ret (y :: ys)
  end.

End Builtins.

(** ** [json.loads] *)

Module Json.

(** A decoded document.  A number with a fraction or an exponent is kept as
    its text (Python makes it a float); an object is a dictionary. *)
#[local] Unset Elimination Schemes.
Inductive json : Type :=
  | JNull
  | JBool (b : bool)
  | JInt (z : Z)
  | JFloat (literal : str)
  | JString (s : str)
  | JList (l : list json)
  | JObject (m : gmap str json).
#[local] Set Elimination Schemes.

Definition is_ws (c : ascii) : bool :=
  Ascii.eqb c " " || Ascii.eqb c "009" || Ascii.eqb c "010" || Ascii.eqb c "013".

Fixpoint skip_ws (s : str) : str :=
  match s with
  | c :: tl => if is_ws c then skip_ws tl else s
  | [] => []
  end.

Definition escape_of (c : ascii) : option ascii :=
  if Ascii.eqb c dquote || Ascii.eqb c backslash || Ascii.eqb c "/" then Some c
  else if Ascii.eqb c "b" then Some "008"%char
  else if Ascii.eqb c "f" then Some "012"%char
  else if Ascii.eqb c "n" then Some "010"%char
  else if Ascii.eqb c "r" then Some "013"%char
  else if Ascii.eqb c "t" then Some "009"%char
  else None.

(** [scanstring], after the opening quote: the decoded text and what follows
    the closing quote.  Control characters are refused (strict mode);
    [\uXXXX] and characters above 127 are outside the model. *)
Fixpoint scanstring (s : str) : outcome (str * str) :=
  match s with
  | [] => Raise ValueError
  | c :: tl =>
      if Ascii.eqb c dquote then Ret ([], tl)
      else if Ascii.eqb c backslash then
        match tl with
        | [] => Raise ValueError
        | e :: tl' =>
            if Ascii.eqb e "u" then Unmodelled
            else match escape_of e with
                 | Some d => '(text, rest) ← scanstring tl'; Ret (d :: text, rest)
                 | None => Raise ValueError
                 end
        end
      else if code c <? 32 then Raise ValueError
      else if 128 <=? code c then Unmodelled
      else '(text, rest) ← scanstring tl; Ret (c :: text, rest)
  end.

(** The number at the head of [s], by [NUMBER_RE]: an optional minus sign,
    then a zero or a non-zero digit followed by digits; optionally a point
    and one or more digits; optionally [e] or [E], an optional sign and one
    or more digits.  [None] when there is none. *)
Definition scan_number (s : str) : option (json * str) :=
  let '(sign, s0) :=
    match s with
    | "-"%char :: tl => (["-"%char], tl)
    | _ => ([], s)
    end in
  let '(int_part, s1) :=
    match s0 with
    | "0"%char :: tl => (["0"%char], tl)
    | _ => span is_digit s0
    end in
  match int_part with
  | [] => None
  | _ =>
      let '(frac, s2) :=
        match s1 with
        | "."%char :: tl =>
            match span is_digit tl with
            | ([], _) => ([], s1)
            | (ds, rest) => ("."%char :: ds, rest)
            end
        | _ => ([], s1)
        end in
      let '(expo, s3) :=
        match s2 with
        | e :: tl =>
            if Ascii.eqb e "e" || Ascii.eqb e "E" then
              let '(esign, tl') :=
                match tl with
                | "-"%char :: t => (["-"%char], t)
                | "+"%char :: t => (["+"%char], t)
                | _ => ([], tl)
                end in
              match span is_digit tl' with
              | ([], _) => ([], s2)
              | (ds, rest) => (e :: esign ++ ds, rest)
              end
            else ([], s2)
        | [] => ([], s2)
        end in
      match frac, expo with
      | [], [] =>
          let n := Builtins.Z_of_digits int_part in
          Some (JInt (match sign with [] => n | _ => (- n)%Z end), s3)
      | _, _ => Some (JFloat (sign ++ int_part ++ frac ++ expo), s3)
      end
  end.

(** A constant [word] at the head of [s]. *)
Definition scan_constant (word : string) (v : json) (s : str) : option (json * str) :=
  let w := list_ascii_of_string word in
  if is_prefix w s then Some (v, drop (length w) s) else None.

(** [scan_once] with [JSONObject] and [JSONArray].  [scan_members] starts
    after the opening quote of a key, [scan_elements] at an element. *)
Fixpoint scan_once (fuel : nat) (s : str) : outcome (json * str) :=
  match fuel with
  | 0 => Unmodelled
  | S fuel' =>
      match s with
      | [] => Raise ValueError
      | c :: tl =>
          if Ascii.eqb c dquote then
            '(text, rest) ← scanstring tl; Ret (JString text, rest)
          else if Ascii.eqb c "{" then
            match skip_ws tl with
            | "}"%char :: rest => Ret (JObject ∅, rest)
            | q :: rest =>
                if Ascii.eqb q dquote then
                  '(m, rest') ← scan_members fuel' ∅ rest; Ret (JObject m, rest')
                else Raise ValueError
            | [] => Raise ValueError
            end
          else if Ascii.eqb c "[" then
            match skip_ws tl with
            | "]"%char :: rest => Ret (JList [], rest)
            | s' => '(l, rest) ← scan_elements fuel' [] s'; Ret (JList l, rest)
            end
          else
            match
              (if Ascii.eqb c "n" then scan_constant "null" JNull s
               else if Ascii.eqb c "t" then scan_constant "true" (JBool true) s
               else if Ascii.eqb c "f" then scan_constant "false" (JBool false) s
               else None)
            with
            | Some r => Ret r
            | None =>
              match scan_number s with
              | Some r => Ret r
              | None =>
                match
                  (if Ascii.eqb c "N" then scan_constant "NaN" (JFloat (py "NaN")) s
                   else if Ascii.eqb c "I" then
                     scan_constant "Infinity" (JFloat (py "Infinity")) s
                   else if Ascii.eqb c "-" then
                     scan_constant "-Infinity" (JFloat (py "-Infinity")) s
                   else None)
                with
                | Some r => Ret r
                | None => Raise ValueError
                end
              end
            end
      end
  end
with scan_members (fuel : nat) (acc : gmap str json) (s : str)
  : outcome (gmap str json * str) :=
  match fuel with
  | 0 => Unmodelled
  | S fuel' =>
      '(key, s1) ← scanstring s;
      match skip_ws s1 with
      | ":"%char :: s2 =>
          '(value, s3) ← scan_once fuel' (skip_ws s2);
          let acc' := <[key := value]> acc in
          match skip_ws s3 with
          | "}"%char :: rest => Ret (acc', rest)
          | ","%char :: s4 =>
              match skip_ws s4 with
              | q :: s5 =>
                  if Ascii.eqb q dquote then scan_members fuel' acc' s5
                  else Raise ValueError
              | [] => Raise ValueError
              end
          | _ => Raise ValueError
          end
      | _ => Raise ValueError
      end
  end
with scan_elements (fuel : nat) (acc : list json) (s : str) : outcome (list json * str) :=
  match fuel with
  | 0 => Unmodelled
  | S fuel' =>
      '(value, s1) ← scan_once fuel' s;
      match skip_ws s1 with
      | "]"%char :: rest => Ret (acc ++ [value], rest)
      | ","%char :: s2 => scan_elements fuel' (acc ++ [value]) (skip_ws s2)
      | _ => Raise ValueError
      end
  end.

(** [json.loads(s)]: one document, blanks allowed around it, nothing else. *)
Definition loads (s : str) : outcome json :=
  '(obj, rest) ← scan_once (2 * length s + 2) (skip_ws s);
  match skip_ws rest with
  | [] => Ret obj
  | _ => Raise ValueError
  end.

End Json.

(** ** The module [cartman.text] *)

Module Text.

Import Builtins.

(** [{opt.lower(): opt for opt in options}]: a later option replaces an
    earlier one with the same lowercase form. *)
Definition options_dict (options : list str) : gmap str str :=
  foldl (fun d opt => <[lower opt := opt]> d) ∅ options.

(** [d[k]]. *)
Definition getitem (d : gmap str str) (k : str) : outcome str :=
  match d !! k with
  | Some v => Ret v
  | None => Raise KeyError
  end.

(** The pattern [r".*\b%s\b.*" % value]. *)
Definition word_pattern (value : str) : str := py ".*\b" ++ value ++ py "\b.*".

(** The loop [for l_opt, opt in options.items()] of the word match, which
    appends to [matches]. *)
Fixpoint word_matches (value : str) (items : list (str * str)) (matches : list str)
  : outcome (list str) :=
  match items with
  | [] => Ret matches
  | (l_opt, opt) :: items' =>
      m ← Re.re_match (word_pattern value) l_opt false;
      word_matches value items' (if m is Some _ then matches ++ [l_opt] else matches)
  end.

(** The list [matches] as it stands before the test of its length: the close
    matches of [difflib], or, when there is none, the word matches. *)
Definition candidates (value : str) (options : gmap str str) : outcome (list str) :=
  match Difflib.get_close_matches value (map fst (map_to_list options)) with
  | None => Unmodelled
  | Some [] => word_matches value (map_to_list options) []
  | Some matches => Ret matches
  end.

(** The body of [fuzzy_find], the computation of [matches] being [later]. *)
Definition fuzzy_find_with (later : str -> gmap str str -> outcome (list str))
    (value : str) (options : list str) : outcome (option str) :=
  let value := lower value in
  let options := options_dict options in
  if bool_decide (is_Some (options !! value)) then
    Some <$> getitem options value
  else
    matches ← later value options;
    match matches with
    | [m] => Some <$> getitem options m
    | _ => Ret None
    end.

Definition fuzzy_find (value : str) (options : list str) : outcome (option str) :=
  fuzzy_find_with candidates value options.

Definition validate_id (raw_value : pyvalue) : outcome Z :=
  except_value_type (int raw_value)
    (Raise (InvalidParameter "invalid identifier (should be an int)")).

Definition re_timestamp : str := py "name='ts' value='([^']+)".

(** The result is [m.group(1)], which Python makes [None] for a group that
    took no part in the match. *)
Definition extract_timestamp (raw_html : str) : outcome (option str) :=
  m ← Re.search re_timestamp raw_html true;
  match m with
  | Some m => Ret (Re.group m 1)
  | None => Raise (FatalError "unable to fetch timestamp")
  end.

Definition re_statuses : str :=
  py "<input type='radio' [^<]+ name='action' value='([^']+)".

Definition extract_statuses (raw_html : str) : outcome (list Re.fitem) :=
  Re.findall re_statuses raw_html false.

Definition re_ticket_status : str := py "leave</label>[\s\n]*as (\w+)[\s\n]*<".

Definition extract_status_from_ticket_page (raw_html : str) : outcome (option str) :=
  m ← Re.search re_ticket_status raw_html true;
  match m with
  | Some m => Ret (Re.group m 1)
  | None => Raise (FatalError "unable to fetch ticket status")
  end.

Definition re_prop : str := py "var properties=([^;]+)".

(** [json.loads] of a tuple is a [TypeError]. *)
Definition extract_properties (raw_html : str) : outcome Json.json :=
  prop_tokens ← Re.findall re_prop raw_html true;
  match prop_tokens with
  | [] => Ret (Json.JObject ∅)
  | Re.FText token :: _ => Json.loads token
  | Re.FTuple _ :: _ => Raise TypeError
  end.

Definition re_version : str := py "Trac (\d+\.\d+\.\d+)".

(** The tuple returned is modelled as a list; a tuple has no [split]. *)
Definition extract_trac_version (raw_html : str) : outcome (list Z) :=
  results ← Re.findall re_version raw_html true;
  match results with
  | [] => Ret []
  | Re.FText first :: _ => map_outcome int_of_str (split "." first)
  | Re.FTuple _ :: _ => Raise AttributeError
  end.

End Text.

(** * Part II.  The vocabulary of the statements

    The scanners and predicates in whose terms the theorems describe what
    the functions of [text.py] find in a text.  They are written from the
    reading of the patterns, not from the matcher: each theorem relates the
    function of the source, which runs the matcher of [Re], to the scanner
    that says what is found. *)

Module Spec.
Import Builtins.

(** A signed decimal numeral: an optional sign and digits. *)
Inductive sign : Type := NoSign | Plus | Minus.

(** The text of a sign. *)
Definition sign_text (sg : sign) : str :=
  match sg with NoSign => [] | Plus => ["+"] | Minus => ["-"] end.

(** The integer a sign and a magnitude denote. *)
Definition signed (sg : sign) (n : Z) : Z :=
  match sg with Minus => (- n)%Z | _ => n end.

(** What follows the span does not start with a character satisfying [p]. *)
Definition stops (p : ascii → bool) (s : str) : Prop :=
  match s with
  | c :: _ => p c = false
  | [] => True
  end.

(** The first suffix of [s], from the left, at which [here] finds
    something. *)
Fixpoint first_here {A} (here : str → option A) (s : str) : option A :=
  match here s with
  | Some a => Some a
  | None =>
      match s with
      | [] => None
      | _ :: tl => first_here here tl
      end
  end.

(** A field at the head of [s]: the text [name], then one or more
    characters other than [stop], which are its value. *)
Definition field_here (name : str) (stop : ascii) (s : str) : option str :=
  if is_prefix name s then
    match span (fun c => negb (Ascii.eqb c stop)) (drop (length name) s) with
    | ([], _) => None
    | (v, _) => Some v
    end
  else None.

(** The text that opens the value of the field [ts]. *)
Definition ts_name : str := py "name='ts' value='".

(** The text that opens a version. *)
Definition trac_name : str := py "Trac ".

(** A version at the head of [s]: [Trac ], digits, a point, digits, a point,
    digits; the three numerals. *)
Definition version_here (s : str) : option (str * str * str) :=
  if is_prefix trac_name s then
    match span is_digit (drop (length trac_name) s) with
    | ([], _) => None
    | (d1, "."%char :: s1) =>
        match span is_digit s1 with
        | ([], _) => None
        | (d2, "."%char :: s2) =>
            match span is_digit s2 with
            | ([], _) => None
            | (d3, _) => Some (d1, d2, d3)
            end
        | _ => None
        end
    | _ => None
    end
  else None.

(** Three numerals: non-empty, of digits only. *)
Definition numerals (v : str * str * str) : Prop :=
  let '(d1, d2, d3) := v in
  (d1 ≠ [] ∧ forallb is_digit d1 = true)
  ∧ (d2 ≠ [] ∧ forallb is_digit d2 = true)
  ∧ (d3 ≠ [] ∧ forallb is_digit d3 = true).

(** The integers the three numerals denote. *)
Definition version_numbers (v : str * str * str) : list Z :=
  let '(d1, d2, d3) := v in [Z_of_digits d1; Z_of_digits d2; Z_of_digits d3].

(** The text that opens the assignment of the properties. *)
Definition prop_name : str := py "var properties=".

(** The two fixed texts of the status phrase. *)
Definition leave_name : str := py "leave</label>".

Definition as_name : str := py "as ".

(** The status at the head of [s]: [leave</label>], blanks, [as ], a word,
    blanks, and [<]; the word.  The blanks are those of [\s]. *)
Definition status_here (s : str) : option str :=
  if is_prefix leave_name s then
    let s1 := (span is_blank (drop (length leave_name) s)).2 in
    if is_prefix as_name s1 then
      match span is_word (drop (length as_name) s1) with
      | ([], _) => None
      | (w, s2) =>
          match (span is_blank s2).2 with
          | "<"%char :: _ => Some w
          | _ => None
          end
      end
    else None
  else None.

(** A status word: non-empty, of word characters. *)
Definition status_word (w : str) : Prop := w ≠ [] ∧ forallb is_word w = true.

(** The opening of a radio button, and the name attribute up to the
    opening quote of the value. *)
Definition radio_name : str := py "<input type='radio' ".

Definition action_name : str := py " name='action' value='".

(** A character other than [stop]. *)
Definition not_char (stop c : ascii) : bool := negb (Ascii.eqb c stop).

(** A value at the head of [s]: the text [name], then one or more
    characters other than [stop]; the value and what follows it. *)
Definition value_here (name : str) (stop : ascii) (s : str) : option (str * str) :=
  if is_prefix name s then
    match span (not_char stop) (drop (length name) s) with
    | ([], _) => None
    | (v, post) => Some (v, post)
    end
  else None.

(** The last place, among the places of [s] reached by skipping characters
    that satisfy [p], at which [here] finds something. *)
Fixpoint last_within {A} (p : ascii → bool) (here : str → option A) (s : str) : option A :=
  match s with
  | c :: tl =>
      if p c then
        match last_within p here tl with
        | Some a => Some a
        | None => here s
        end
      else here s
  | [] => here []
  end.

(** A radio button named [action] at the head of [s]: the opening
    of an [input] of type [radio], one or more characters other than [<],
    and, at the last possible place among them, the attribute [name] set to
    [action] and the opening of the attribute [value] ([radio_name] and
    [action_name]); the value and what follows it. *)
Definition radio_here (s : str) : option (str * str) :=
  if is_prefix radio_name s then
    match drop (length radio_name) s with
    | c :: tl =>
        if not_char "<" c
        then last_within (not_char "<") (value_here action_name dquote) tl
        else None
    | [] => None
    end
  else None.

(** The values found from left to right, each search starting where the
    previous value ended. *)
Inductive all_here (here : str → option (str * str)) : str → list str → Prop :=
  | all_here_nil (s : str) :
      first_here here s = None → all_here here s []
  | all_here_cons (s v rest : str) (l : list str) :
      first_here here s = Some (v, rest) → all_here here rest l →
      all_here here s (v :: l).



(** [w] occurs in [s]. *)
Definition occurs (w s : str) : Prop := ∃ pre post, s = pre ++ w ++ post.

(** The text of a radio button named [action]: the opening, the attributes
    [attrs] before the name, the name, the value [v] and its closing
    quote. *)
Definition radio_button (attrs v : str) : str :=
  radio_name ++ attrs ++ action_name ++ v ++ [dquote].

(** A page: radio buttons, each followed by some text. *)
Fixpoint page (buttons : list (str * str * str)) : str :=
  match buttons with
  | [] => []
  | (attrs, v, junk) :: rest => radio_button attrs v ++ junk ++ page rest
  end.

(** A button as the ticket page has them: some attributes before the name,
    with no [<] in them; a value, with no double quote in it; and, from the
    value up to the next button, neither the name attribute again nor the
    opening of a radio button. *)
Definition plain_button (b : str * str * str) : Prop :=
  let '(attrs, v, junk) := b in
  attrs ≠ [] ∧ ("<"%char ∉ attrs) ∧ v ≠ [] ∧ (dquote ∉ v)
  ∧ ¬ occurs action_name (v ++ dquote :: junk)
  ∧ ¬ occurs radio_name junk.

(** The value of a button. *)
Definition button_value (b : str * str * str) : str := b.1.2.

(** No run of digits of the text is longer than the numerals that every
    version of the interpreter converts. *)
Definition no_long_numeral (s : str) : Prop :=
  ∀ pre ds post, s = pre ++ ds ++ post → forallb is_digit ds = true →
                 length ds ≤ max_str_digits.

(** A text with fewer than 200 opening brackets and braces: a JSON document
    in it is nested less deep than the recursion limit of the interpreter
    allows, which the model of [json.loads] leaves out. *)
Definition shallow (s : str) : Prop :=
  length (List.filter (fun c => Ascii.eqb c "[" || Ascii.eqb c "{") s) < 200.

End Spec.

(** * Part III.  Definitions of the proofs

    The compiled form of the patterns, the closed form of the loops of the
    matcher, and the measures and invariants of the proofs. *)

Module Aux.
Import Re Difflib Builtins Spec.

(** A block lies within the rows [alo..ahi) of the first sequence. *)
Definition in_rows (alo ahi : nat) (x : block) : Prop :=
  alo ≤ b_i x ∧ b_i x + b_size x ≤ ahi.

(** The work left in the queue of [get_matching_blocks]. *)
Definition queue_weight (queue : list (nat * nat * nat * nat)) : nat :=
  foldr (fun '(alo, ahi, _, _) n => 2 * (ahi - alo) + 1 + n) 0 queue.

(** Every range of the queue is well formed. *)
Definition queue_ok (queue : list (nat * nat * nat * nat)) : Prop :=
  Forall (fun '(alo, ahi, _, _) => alo ≤ ahi) queue.

(** The character before the position reached after reading [l]. *)
Definition last_char (prev : option ascii) (l : str) : option ascii :=
  match last l with
  | Some c => Some c
  | None => prev
  end.

(** The literals of [l], then [r]. *)
Fixpoint lits (l : str) (r : regex) : regex :=
  match l with
  | [] => r
  | c :: l' => Concat (Literal c) (lits l' r)
  end.

(** The greedy loop over a set of characters: the longest span first, then
    the shorter ones. *)
Fixpoint greedy_set (p : ascii → bool) (prev : option ascii) (s : str)
    (g : gmap nat str) (k : kont) : option mstate :=
  match s with
  | c :: tl =>
      if p c then
        match greedy_set p (Some c) tl g k with
        | Some m => Some m
        | None => k (MState prev s g)
        end
      else k (MState prev s g)
  | [] => k (MState prev [] g)
  end.

(** [search_from] is the first success of [match_at] along the text. *)
Fixpoint first_from {A} (here : option ascii → str → option A)
    (prev : option ascii) (s : str) : option A :=
  match here prev s with
  | Some a => Some a
  | None =>
      match s with
      | [] => None
      | c :: tl => first_from here (Some c) tl
      end
  end.

(** A capturing group of one or more characters of a set, ending the
    pattern. *)
Definition capture_plus (gid : nat) (negate : bool) (items : list set_item) : regex :=
  Concat (Subpattern (Some gid)
            (Concat (Repeat 1 None true (CharSet negate items)) Empty)) Empty.

(** The text of a version: the three numerals and the points. *)
Definition version_text (v : str * str * str) : str :=
  let '(d1, d2, d3) := v in d1 ++ "."%char :: d2 ++ "."%char :: d3.

(** The patterns of [text.py] as [compile] returns them. *)
Definition digits1 : regex := Repeat 1 None true (CharSet false [SCategory Digit]).

Definition rx_version : regex :=
  lits trac_name
    (Concat (Subpattern (Some 1)
       (Concat digits1 (Concat (Literal ".")
          (Concat digits1 (Concat (Literal ".") (Concat digits1 Empty))))))
       Empty).

(** The three numerals are short enough for [int]. *)
Definition short_numerals (v : str * str * str) : Prop :=
  let '(d1, d2, d3) := v in
  length d1 ≤ max_str_digits ∧ length d2 ≤ max_str_digits ∧ length d3 ≤ max_str_digits.

(** The matcher only moves forward: what it hands to its continuation has
    no more text left than it was given. *)
Definition forward (f : mstate → kont → option mstate) : Prop :=
  ∀ st (k : kont) m, f st k = Some m →
    ∃ st', k st' = Some m ∧ length (ms_rest st') ≤ length (ms_rest st).

Definition blanks0 : regex :=
  Repeat 0 None true (CharSet false [SCategory Space; SLiteral newline]).

Definition rx_ticket : regex :=
  lits leave_name
    (Concat blanks0
       (lits as_name
          (Concat (Subpattern (Some 1)
                     (Concat (Repeat 1 None true (CharSet false [SCategory Word])) Empty))
             (Concat blanks0 (Concat (Literal "<") Empty))))).

Definition rx_statuses : regex :=
  lits radio_name
    (Concat (Repeat 1 None true (CharSet true [SLiteral "<"]))
       (lits action_name (capture_plus 1 true [SLiteral dquote]))).

(** The end of a match attempt agrees with what [here] finds. *)
Definition agrees (o : option mstate) (h : option (str * str)) : Prop :=
  match o, h with
  | Some st, Some (v, rest) => ms_rest st = rest ∧ ms_groups st !! 1 = Some v
  | None, None => True
  | _, _ => False
  end.

(** Any characters but the newline, as many as possible. *)
Definition any_star : regex := Repeat 0 None true AnyChar.

(** The pattern of the word match, for a value made of word characters. *)
Definition word_rx (v : str) : regex :=
  Concat any_star
    (Concat (Assert AtBoundary)
       (lits v (Concat (Assert AtBoundary) (Concat any_star Empty)))).


(** What follows a button's text: nothing, or text that starts with [<]. *)
Definition opens (s : str) : Prop := s = [] ∨ head s = Some "<"%char.

(** [m] raises nothing but [e0]. *)
Definition raises_only {A} (e0 : exn) (m : outcome A) : Prop :=
  ∀ e, m = Raise e → e = e0.

(** A text within the model of [json.loads]: ASCII, and no escape [\u]. *)
Definition plain (s : str) : Prop :=
  Forall (fun c => code c < 128) s ∧ ∀ pre post, s ≠ pre ++ backslash :: "u"%char :: post.

(** [rest] is what is left of [s] after reading at least one character. *)
Definition rest_of (rest s : str) : Prop :=
  ∃ pre, s = pre ++ rest ∧ pre ≠ [].

(** The call stays within the model. *)
Definition modelled {A} (m : outcome A) : Prop := m ≠ Unmodelled.

End Aux.

(** Case analysis on the 256 characters. *)
Ltac ascii_cases c :=
  destruct c as [[] [] [] [] [] [] [] []]; try reflexivity; try discriminate.

(** * Part IV.  Lemmas and theorems *)

(** ** The dictionary of the options *)

Module TextFacts.
Import Spec Aux.
Import Text.

Lemma options_dict_snoc (opts : list str) (o : str) :
  options_dict (opts ++ [o]) = <[lower o := o]> (options_dict opts).
Proof. unfold options_dict. by rewrite foldl_app. Qed.

(** The dictionary maps a key to the last option with that lowercase form. *)
Lemma options_dict_lookup (opts : list str) (k : str) :
  options_dict opts !! k = last (filter (fun o => lower o = k) opts).
Proof.
  induction opts as [|o opts IH] using rev_ind.
  - reflexivity.
  - rewrite options_dict_snoc, filter_app.
    destruct (decide (lower o = k)) as [Heq|Hne].
    + rewrite filter_cons_True by done. rewrite <- Heq at 1.
      by rewrite lookup_insert_eq, filter_nil, last_snoc.
    + rewrite lookup_insert_ne by done. rewrite filter_cons_False by done.
      by rewrite filter_nil, app_nil_r.
Qed.

Lemma options_dict_Some (opts : list str) (k v : str) :
  options_dict opts !! k = Some v → v ∈ opts ∧ lower v = k.
Proof.
  rewrite options_dict_lookup. intros H.
  apply last_Some_elem_of in H. by apply list_elem_of_filter in H as [? ?].
Qed.


End TextFacts.

(** ** [difflib] always answers *)

Module DifflibFacts.
Import Spec Aux.
Import Difflib.

Lemma scan_row_in_rows js i alo ahi blo bhi (j2len newj2len : gmap nat nat) best :
  alo ≤ i → i < ahi →
  map_Forall (fun _ v => v ≤ i - alo) j2len →
  map_Forall (fun _ v => v ≤ i + 1 - alo) newj2len →
  in_rows alo ahi best →
  map_Forall (fun _ v => v ≤ i + 1 - alo) (scan_row js i blo bhi j2len newj2len best).1
  ∧ in_rows alo ahi (scan_row js i blo bhi j2len newj2len best).2.
Proof.
  intros Hlo Hhi Hold. revert newj2len best.
  induction js as [|j js IH]; intros newj2len best Hnew Hbest; simpl; [done|].
  destruct (j <? blo); [by apply IH|].
  destruct (bhi <=? j); [done|].
  set (k := match j with 0 => 0 | S j' => default 0 (j2len !! j') end + 1).
  assert (Hk : k ≤ i + 1 - alo).
  { subst k. destruct j as [|j']; [lia|].
    destruct (j2len !! j') as [v|] eqn:Hv; simpl; [|lia].
    apply Hold in Hv. simpl in Hv. lia. }
  apply IH.
  - by apply map_Forall_insert_2.
  - destruct (b_size best <? k); [|done].
    unfold in_rows; simpl. lia.
Qed.

Lemma scan_in_rows a b2j n i alo ahi blo bhi (j2len : gmap nat nat) best :
  alo ≤ i → i + n ≤ ahi →
  map_Forall (fun _ v => v ≤ i - alo) j2len →
  in_rows alo ahi best →
  in_rows alo ahi (scan a b2j (seq i n) blo bhi j2len best).
Proof.
  revert i j2len best. induction n as [|n IH]; intros i j2len best Hlo Hhi Hold Hbest; simpl; [done|].
  destruct (a !! i) as [c|]; [|done].
  pose proof (scan_row_in_rows (default [] (b2j !! c)) i alo ahi blo bhi j2len ∅ best) as Hrow.
  destruct (scan_row _ i blo bhi j2len ∅ best) as [newj2len best'].
  destruct Hrow as [H1 H2]; [lia|lia|done|apply map_Forall_empty|done|].
  simpl in H1, H2. apply IH; [lia|lia| |done].
  eapply map_Forall_impl; [exact H1|]. simpl. intros. lia.
Qed.

Lemma extend_left_in_rows fuel a b alo ahi blo junk best :
  in_rows alo ahi best → in_rows alo ahi (extend_left fuel a b alo blo junk best).
Proof.
  revert best. induction fuel as [|fuel IH]; intros best Hbest; simpl; [done|].
  destruct (alo <? b_i best) eqn:Hi; simpl; [|done].
  destruct (blo <? b_j best); simpl; [|done].
  destruct (a !! _); [|done]. destruct (b !! _); [|done].
  destruct (_ && _); [|done].
  apply IH. apply Nat.ltb_lt in Hi. destruct Hbest. unfold in_rows; simpl. lia.
Qed.

Lemma extend_right_in_rows fuel a b alo ahi bhi junk best :
  in_rows alo ahi best → in_rows alo ahi (extend_right fuel a b ahi bhi junk best).
Proof.
  revert best. induction fuel as [|fuel IH]; intros best Hbest; simpl; [done|].
  destruct (b_i best + b_size best <? ahi) eqn:Hi; simpl; [|done].
  destruct (b_j best + b_size best <? bhi); simpl; [|done].
  destruct (a !! _); [|done]. destruct (b !! _); [|done].
  destruct (_ && _); [|done].
  apply IH. apply Nat.ltb_lt in Hi. destruct Hbest. unfold in_rows; simpl. lia.
Qed.

Lemma find_longest_match_in_rows a b b2j alo ahi blo bhi :
  alo ≤ ahi → in_rows alo ahi (find_longest_match a b b2j alo ahi blo bhi).
Proof.
  intros Hle. unfold find_longest_match.
  apply extend_right_in_rows, extend_left_in_rows, extend_right_in_rows, extend_left_in_rows.
  apply scan_in_rows; [lia|lia|apply map_Forall_empty|].
  unfold in_rows; simpl. lia.
Qed.

Lemma matching_loop_total fuel a b b2j queue blocks :
  queue_ok queue → queue_weight queue < fuel →
  is_Some (matching_loop fuel a b b2j queue blocks).
Proof.
  revert queue blocks. induction fuel as [|fuel IH]; intros queue blocks Hok Hw; [lia|].
  simpl. destruct queue as [|[[[alo ahi] blo] bhi] queue]; [eauto|].
  apply Forall_cons in Hok as [Hle Hok]. simpl in Hw.
  pose proof (find_longest_match_in_rows a b b2j alo ahi blo bhi Hle) as [Hi Hk].
  set (x := find_longest_match a b b2j alo ahi blo bhi) in *.
  destruct (b_size x =? 0) eqn:Hz.
  - apply IH; [done|lia].
  - apply Nat.eqb_neq in Hz.
    destruct (alo <? b_i x) eqn:H1; destruct (blo <? b_j x) eqn:H1';
    destruct (b_i x + b_size x <? ahi) eqn:H2; destruct (b_j x + b_size x <? bhi) eqn:H2';
      simpl; apply IH;
      repeat (apply Forall_cons; split); try done; simpl;
      try (apply Nat.ltb_lt in H1); try (apply Nat.ltb_lt in H2); lia.
Qed.

Lemma get_matching_blocks_total a b : is_Some (get_matching_blocks a b).
Proof.
  unfold get_matching_blocks. apply matching_loop_total.
  - apply Forall_cons. split; [lia|constructor].
  - simpl. lia.
Qed.

Lemma ratio_total a b : is_Some (ratio a b).
Proof.
  unfold ratio. destruct (get_matching_blocks_total a b) as [bl ->]. simpl. eauto.
Qed.

Lemma score_all_total word ps :
  ∃ result, score_all word ps = Some result ∧ ∀ p, p ∈ result → p.2 ∈ ps.
Proof.
  induction ps as [|x ps (result & Hr & Hin)]; simpl.
  - exists []. split; [done|]. intros p Hp. by apply not_elem_of_nil in Hp.
  - destruct (ratio_total x word) as [r ->]. simpl. rewrite Hr. simpl.
    destruct (_ && _).
    + eexists. split; [done|]. intros p Hp. apply elem_of_cons in Hp as [->|Hp].
      * simpl. left.
      * right. by apply Hin.
    + exists result. split; [done|]. intros p Hp. right. by apply Hin.
Qed.

Lemma insert_desc_elem p q l : p ∈ insert_desc q l → p = q ∨ p ∈ l.
Proof.
  induction l as [|x l IH]; simpl.
  - intros H. apply list_elem_of_singleton in H. by left.
  - destruct (scored_ltb q x).
    + intros H. apply elem_of_cons in H as [->|H].
      * right. left.
      * destruct (IH H) as [->|?]; [by left|right; by right].
    + intros H. apply elem_of_cons in H as [->|H]; [by left|by right].
Qed.

Lemma nlargest_elem n p l : p ∈ nlargest n l → p ∈ l.
Proof.
  unfold nlargest. intros H. apply elem_of_take in H as (i & H & _).
  apply list_elem_of_lookup_2 in H. clear i n.
  induction l as [|x l IH]; simpl in H; [done|].
  apply insert_desc_elem in H as [->|H]; [left|right; by apply IH].
Qed.

(** [get_close_matches] always returns, at most three of the possibilities. *)
Lemma get_close_matches_total word ps :
  ∃ ms, get_close_matches word ps = Some ms ∧ length ms ≤ 3 ∧ ∀ m, m ∈ ms → m ∈ ps.
Proof.
  unfold get_close_matches. destruct (score_all_total word ps) as (result & -> & Hin).
  simpl. eexists. split; [done|]. split.
  - rewrite length_map. unfold nlargest. rewrite length_take. lia.
  - intros m Hm. apply list_elem_of_fmap in Hm as (p & -> & Hp).
    apply nlargest_elem in Hp. by apply Hin.
Qed.

End DifflibFacts.

(** ** The candidates of [fuzzy_find] *)

Module TextFacts2.
Import Spec Aux.
Import Text Builtins TextFacts DifflibFacts.

Lemma getitem_Some (d : gmap str str) (k v : str) :
  d !! k = Some v → Some <$> getitem d k = Ret (Some v).
Proof. intros H. unfold getitem. by rewrite H. Qed.

Lemma word_matches_elem (value : str) items acc ms :
  word_matches value items acc = Ret ms →
  ∀ m, m ∈ ms → m ∈ acc ∨ m ∈ map fst items.
Proof.
  revert acc. induction items as [|[l_opt opt] items IH]; intros acc; simpl.
  - intros [= ->] m Hm. by left.
  - destruct (Re.re_match _ _ _) as [mo| |]; simpl; [|done|done].
    intros H m Hm. destruct (IH _ H m Hm) as [Hacc|Hin]; [|right; by right].
    destruct mo; [|by left].
    apply elem_of_app in Hacc as [?|Hl]; [by left|].
    apply list_elem_of_singleton in Hl as ->. right. left.
Qed.

Lemma word_matches_compiled (value : str) items acc pat :
  Re.compile (word_pattern value) = Ret pat →
  ∃ ms, word_matches value items acc = Ret ms.
Proof.
  intros Hc. revert acc. induction items as [|[l_opt opt] items IH]; intros acc; simpl; [eauto|].
  unfold Re.re_match. rewrite Hc. simpl. apply IH.
Qed.

Lemma word_matches_error (value : str) items acc :
  items ≠ [] →
  Re.compile (word_pattern value) = Raise ReError →
  word_matches value items acc = Raise ReError.
Proof.
  intros Hne Hc. destruct items as [|[l_opt opt] items]; [done|].
  simpl. unfold Re.re_match. by rewrite Hc.
Qed.

Lemma fst_map_to_list_elem (d : gmap str str) (m : str) :
  m ∈ map fst (map_to_list d) → is_Some (d !! m).
Proof.
  intros H. apply list_elem_of_fmap in H as ([k v] & -> & H).
  apply elem_of_map_to_list in H. simpl. eauto.
Qed.

Lemma candidates_keys (value : str) (d : gmap str str) (ms : list str) :
  candidates value d = Ret ms → ∀ m, m ∈ ms → is_Some (d !! m).
Proof.
  unfold candidates.
  destruct (get_close_matches_total value (map fst (map_to_list d))) as (cm & -> & _ & Hin).
  destruct cm as [|c cm].
  - intros H m Hm. destruct (word_matches_elem _ _ _ _ H m Hm) as [Hn|Hk].
    + by apply not_elem_of_nil in Hn.
    + by apply fst_map_to_list_elem.
  - intros [= <-] m Hm. by apply fst_map_to_list_elem, Hin.
Qed.

Lemma candidates_compiled (value : str) (d : gmap str str) pat :
  Re.compile (word_pattern value) = Ret pat → ∃ ms, candidates value d = Ret ms.
Proof.
  intros Hc. unfold candidates.
  destruct (get_close_matches_total value (map fst (map_to_list d))) as (cm & -> & _).
  destruct cm; [by eapply word_matches_compiled|eauto].
Qed.

End TextFacts2.

(** ** [fuzzy_find]: exact match, sole candidate, pattern error *)

Module Claims1.
Import Spec Aux.
Import Text Builtins TextFacts DifflibFacts TextFacts2.

Lemma no_exact_match (value : str) (options : list str) :
  (∀ o, o ∈ options → lower o ≠ lower value) →
  options_dict options !! lower value = None.
Proof.
  intros Hno. destruct (options_dict options !! lower value) as [v|] eqn:Hv; [|done].
  apply options_dict_Some in Hv as [Hin Hl]. by destruct (Hno v Hin).
Qed.





(** C10.  [fuzzy_find] can fail with the error of [re]: the value is put
    unescaped into the word pattern, so when no option has the lowercase form
    of the value, no option is a close match, there is at least one option,
    and the pattern built from the value does not compile, the call raises
    [re.error].  This happens for the value made of an opening parenthesis
    with the option [open]. *)
Theorem fuzzy_find_regex_error :
  (∀ (value : str) (options : list str),
     options ≠ [] →
     (∀ o, o ∈ options → lower o ≠ lower value) →
     Difflib.get_close_matches (lower value)
       (map fst (map_to_list (options_dict options))) = Some [] →
     Re.compile (word_pattern (lower value)) = Raise ReError →
     fuzzy_find value options = Raise ReError)
  ∧ Re.compile (word_pattern (py "(")) = Raise ReError
  ∧ fuzzy_find (py "(") [py "open"] = Raise ReError.
Proof.
  split; [|split; by vm_compute].
  intros value options Hne Hno Hcm Hc.
  unfold fuzzy_find, fuzzy_find_with. rewrite (no_exact_match _ _ Hno).
  rewrite bool_decide_eq_false_2 by (by intros [? ?]).
  unfold candidates. rewrite Hcm.
  rewrite word_matches_error; [done| |done].
  intros Hnil. apply map_to_list_empty_iff in Hnil.
  destruct options as [|o options _] using rev_ind; [done|].
  rewrite options_dict_snoc in Hnil. by apply insert_non_empty in Hnil.
Qed.

Lemma fuzzy_find_regex_error_witness :
  fuzzy_find (py "[") [py "Closed"; py "Open"] = Raise ReError.
Proof.
  apply (proj1 fuzzy_find_regex_error (py "[") [py "Closed"; py "Open"]).
  - discriminate.
  - intros o Ho. vm_compute. intros Heq.
    apply elem_of_cons in Ho as [->|Ho]; [discriminate|].
    apply list_elem_of_singleton in Ho as ->. discriminate.
  - vm_compute. reflexivity.
  - vm_compute. reflexivity.
Defined.

End Claims1.

(** ** [int] on numerals *)

Module BuiltinsFacts.
Import Spec Aux.
Import Builtins.

Lemma digit_not_space (c : ascii) : is_digit c = true → is_space c = false.
Proof. ascii_cases c. Qed.

Lemma digit_not_version_dependent (c : ascii) : is_digit c = true → version_dependent c = false.
Proof. ascii_cases c. Qed.

Lemma space_not_version_dependent (c : ascii) : is_space c = true → version_dependent c = false.
Proof. ascii_cases c. Qed.

Lemma lstrip_spaces (ws t : str) : forallb is_space ws = true → lstrip (ws ++ t) = lstrip t.
Proof.
  induction ws as [|c ws IH]; simpl; [done|].
  intros H. apply andb_true_iff in H as [-> H]. by apply IH.
Qed.

Lemma lstrip_head (c : ascii) (t : str) : is_space c = false → lstrip (c :: t) = c :: t.
Proof. intros H. simpl. by rewrite H. Qed.

Lemma forallb_reverse {A} (p : A → bool) (l : list A) : forallb p (rev l) = forallb p l.
Proof.
  induction l as [|x l IH]; simpl; [done|].
  rewrite forallb_app, IH. simpl. rewrite andb_true_r. apply andb_comm.
Qed.

Lemma strip_numeral (ws1 ws2 : str) (sg : sign) (ds : str) :
  forallb is_space ws1 = true → forallb is_space ws2 = true →
  ds ≠ [] → forallb is_digit ds = true →
  strip (ws1 ++ sign_text sg ++ ds ++ ws2) = sign_text sg ++ ds.
Proof.
  intros H1 H2 Hne Hd. unfold strip.
  rewrite lstrip_spaces by done.
  assert (Hhead : lstrip (sign_text sg ++ ds ++ ws2) = sign_text sg ++ ds ++ ws2).
  { destruct sg; simpl; try reflexivity.
    destruct ds as [|d ds]; [done|]. simpl in *.
    apply andb_true_iff in Hd as [Hd _]. by rewrite (digit_not_space d Hd). }
  rewrite Hhead. rewrite !rev_app_distr, <- app_assoc.
  rewrite lstrip_spaces by (by rewrite forallb_reverse).
  destruct ds as [|d ds _] using rev_ind; [done|].
  rewrite rev_app_distr. simpl.
  rewrite forallb_app in Hd. apply andb_true_iff in Hd as [_ Hd]. simpl in Hd.
  apply andb_true_iff in Hd as [Hd _]. rewrite (digit_not_space d Hd).
  simpl. rewrite rev_app_distr, !rev_involutive. simpl. by rewrite <- app_assoc.
Qed.

Lemma forallb_existsb_false {A} (p q : A → bool) (l : list A) :
  (∀ x, p x = true → q x = false) → forallb p l = true → existsb q l = false.
Proof.
  intros Hpq. induction l as [|x l IH]; simpl; [done|].
  intros H. apply andb_true_iff in H as [Hx Hl]. by rewrite (Hpq x Hx), IH.
Qed.

(** [int] on a signed decimal numeral, blanks around it allowed: the
    integer it denotes, up to the limit on its digits. *)
Lemma int_of_str_numeral_limit (ws1 ws2 : str) (sg : sign) (ds : str) :
  forallb is_space ws1 = true → forallb is_space ws2 = true →
  ds ≠ [] → forallb is_digit ds = true →
  int_of_str (ws1 ++ sign_text sg ++ ds ++ ws2)
  = if max_str_digits <? length ds then Unmodelled
    else Ret (signed sg (Z_of_digits ds)).
Proof.
  intros H1 H2 Hne Hd. unfold int_of_str.
  assert (Hvd : existsb version_dependent (ws1 ++ sign_text sg ++ ds ++ ws2) = false).
  { rewrite !existsb_app.
    rewrite (forallb_existsb_false _ _ _ space_not_version_dependent H1).
    rewrite (forallb_existsb_false _ _ _ space_not_version_dependent H2).
    rewrite (forallb_existsb_false _ _ _ digit_not_version_dependent Hd).
    by destruct sg. }
  rewrite Hvd, strip_numeral by done.
  destruct ds as [|d ds]; [done|].
  assert (Hcase : split_sign (d :: ds) = (false, d :: ds)).
  { simpl in Hd. apply andb_true_iff in Hd as [Hd0 _]. revert Hd0. clear.
    intros Hd0. ascii_cases d. }
  destruct sg; simpl sign_text; simpl app.
  - rewrite Hcase. cbv beta iota. by rewrite Hd.
  - simpl split_sign. cbv beta iota. by rewrite Hd.
  - simpl split_sign. cbv beta iota. by rewrite Hd.
Qed.

Lemma int_of_str_numeral (ws1 ws2 : str) (sg : sign) (ds : str) :
  forallb is_space ws1 = true → forallb is_space ws2 = true →
  ds ≠ [] → forallb is_digit ds = true → length ds ≤ max_str_digits →
  int_of_str (ws1 ++ sign_text sg ++ ds ++ ws2) = Ret (signed sg (Z_of_digits ds)).
Proof.
  intros H1 H2 Hne Hd Hlen. rewrite int_of_str_numeral_limit by done.
  apply Nat.ltb_ge in Hlen. by rewrite Hlen.
Qed.

Lemma int_raises (raw : pyvalue) (e : exn) :
  int raw = Raise e → e = ValueError ∨ e = TypeError.
Proof.
  destruct raw as [|z|s]; simpl.
  - intros [= <-]. by right.
  - done.
  - unfold int_of_str. destruct (existsb _ _); [done|].
    destruct (split_sign (strip s)) as [negative digits].
    destruct digits; [intros [= <-]; by left|].
    destruct (forallb _ _); [by destruct (_ <? _)|]. intros [= <-]. by left.
Qed.

End BuiltinsFacts.

(** ** [validate_id] *)

Module Claims2.
Import Spec Aux.
Import Text Builtins BuiltinsFacts.

(** C4.  [validate_id] returns the integer [int] makes of its argument
    whenever there is one, and raises [InvalidParameter], and nothing else,
    exactly when [int] refuses the argument: a string that is no numeral,
    [None].  An integer is returned as it is, however large or small, and a
    decimal numeral of at most 4300 digits, sign and blanks around it
    allowed, as the integer it denotes: [validate_id] checks no range of
    its own, and up to that length [int] checks none.  (Beyond 4300 digits
    the versions of the interpreter differ: the recent ones refuse the
    numeral.)  In particular the string [42] gives 42, and the string [abc]
    and [None] are refused. *)
Theorem validate_id_converts :
  (∀ (raw : pyvalue) (z : Z), int raw = Ret z → validate_id raw = Ret z)
  ∧ (∀ raw : pyvalue,
       validate_id raw = Raise (InvalidParameter "invalid identifier (should be an int)")
       ↔ ∃ e, int raw = Raise e)
  ∧ (∀ (raw : pyvalue) (e : exn),
       validate_id raw = Raise e →
       e = InvalidParameter "invalid identifier (should be an int)")
  ∧ (∀ z : Z, validate_id (PyInt z) = Ret z)
  ∧ (∀ (ws1 ws2 : str) (sg : sign) (ds : str),
       forallb is_space ws1 = true → forallb is_space ws2 = true →
       ds ≠ [] → forallb is_digit ds = true → length ds ≤ max_str_digits →
       validate_id (PyStr (ws1 ++ sign_text sg ++ ds ++ ws2))
       = Ret (signed sg (Z_of_digits ds)))
  ∧ validate_id (PyStr (py "42")) = Ret 42%Z
  ∧ validate_id (PyStr (py "abc"))
    = Raise (InvalidParameter "invalid identifier (should be an int)")
  ∧ validate_id PyNone
    = Raise (InvalidParameter "invalid identifier (should be an int)").
Proof.
  assert (Hraise : ∀ raw e, int raw = Raise e →
            validate_id raw
            = Raise (InvalidParameter "invalid identifier (should be an int)")).
  { intros raw e He. unfold validate_id. rewrite He.
    by destruct (int_raises raw e He) as [-> | ->]. }
  split; [|split; [|split; [|split; [|split; [|split; [|split]]]]]].
  - intros raw z Hz. unfold validate_id. by rewrite Hz.
  - intros raw. split.
    + unfold validate_id. destruct (int raw) as [z|e|] eqn:He; simpl; [done|eauto|done].
    + intros [e He]. by eapply Hraise.
  - intros raw e. unfold validate_id.
    destruct (int raw) as [z|e'|] eqn:He; simpl; [done| |done].
    destruct (int_raises raw e' He) as [-> | ->]; by intros [= <-].
  - intros z. reflexivity.
  - intros ws1 ws2 sg ds H1 H2 Hne Hd Hlen. unfold validate_id. simpl.
    by rewrite int_of_str_numeral.
  - vm_compute. reflexivity.
  - vm_compute. reflexivity.
  - vm_compute. reflexivity.
Qed.

Lemma validate_id_converts_witness :
  validate_id (PyStr (py " " ++ sign_text Minus ++ py "0017" ++ py " ")) = Ret (-17)%Z.
Proof.
  apply (proj1 (proj2 (proj2 (proj2 (proj2 validate_id_converts))))
           (py " ") (py " ") Minus (py "0017")).
  - reflexivity.
  - reflexivity.
  - discriminate.
  - reflexivity.
  - apply Nat.leb_le. vm_compute. reflexivity.
Defined.

End Claims2.

(** ** Facts about strings *)

Module StrFacts.
Import Spec Aux.

Lemma is_prefix_app (l rest : str) : is_prefix l (l ++ rest) = true.
Proof. induction l as [|c l IH]; simpl; [done|]. by rewrite Ascii.eqb_refl. Qed.

Lemma is_prefix_split (l s : str) : is_prefix l s = true → s = l ++ drop (length l) s.
Proof.
  revert s. induction l as [|c l IH]; intros s; simpl; [done|].
  destruct s as [|d s]; [done|]. intros H. apply andb_true_iff in H as [Hc Hl].
  apply Ascii.eqb_eq in Hc as ->. simpl. f_equal. by apply IH.
Qed.

Lemma span_app (p : ascii → bool) (s : str) : (span p s).1 ++ (span p s).2 = s.
Proof.
  induction s as [|c s IH]; simpl; [done|].
  destruct (p c); [|done]. destruct (span p s) as [a b]. simpl in *. by rewrite IH.
Qed.

Lemma span_forall (p : ascii → bool) (s : str) : forallb p (span p s).1 = true.
Proof.
  induction s as [|c s IH]; simpl; [done|].
  destruct (p c) eqn:Hc; [|done]. destruct (span p s) as [a b]. simpl in *. by rewrite Hc.
Qed.

Lemma span_stops (p : ascii → bool) (s : str) : stops p (span p s).2.
Proof.
  induction s as [|c s IH]; simpl; [done|].
  destruct (p c) eqn:Hc; [|done]. by destruct (span p s) as [a b].
Qed.

Lemma span_spec (p : ascii → bool) (v post : str) :
  forallb p v = true → stops p post → span p (v ++ post) = (v, post).
Proof.
  intros Hv Hpost. induction v as [|c v IH]; simpl.
  - destruct post as [|d post]; [done|]. simpl in *. by rewrite Hpost.
  - simpl in Hv. apply andb_true_iff in Hv as [-> Hv]. by rewrite IH.
Qed.

Lemma last_char_cons (prev : option ascii) (c : ascii) (l : str) :
  last_char prev (c :: l) = last_char (Some c) l.
Proof.
  unfold last_char. destruct l as [|d l]; simpl; [done|].
  destruct (last (d :: l)) eqn:E; [done|]. by apply last_None in E.
Qed.

(** A check that a text is ASCII. *)
Lemma ascii_check (s : str) :
  forallb (fun c => code c <? 128) s = true → Forall (fun c => code c < 128) s.
Proof.
  induction s as [|c s IH]; simpl; [constructor|].
  intros [Hc Hs]%andb_true_iff. constructor; [by apply Nat.ltb_lt|by apply IH].
Qed.

End StrFacts.

(** ** Facts about the matcher *)

Module ReFacts.
Import Spec Aux.
Import Re StrFacts.

Lemma run_lits ml (l : str) (r : regex) prev (rest : str) g (k : kont) :
  run ml (lits l r) (MState prev (l ++ rest) g) k
  = run ml r (MState (last_char prev l) rest g) k.
Proof.
  revert prev. induction l as [|c l IH]; intros prev; [done|].
  rewrite last_char_cons. simpl lits. simpl app.
  change (run ml (Concat (Literal c) (lits l r)) (MState prev (c :: l ++ rest) g) k)
    with (step_char (Ascii.eqb c) (MState prev (c :: l ++ rest) g)
            (fun st' => run ml (lits l r) st' k)).
  unfold step_char. simpl. rewrite Ascii.eqb_refl. apply IH.
Qed.

Lemma run_lits_fail ml (l : str) (r : regex) prev (s : str) g (k : kont) :
  is_prefix l s = false → run ml (lits l r) (MState prev s g) k = None.
Proof.
  revert prev s. induction l as [|c l IH]; intros prev s; simpl; [done|].
  destruct s as [|d s]; [done|].
  unfold step_char. simpl. rewrite Ascii.eqb_sym.
  destruct (Ascii.eqb d c); simpl; [|done]. apply IH.
Qed.

Lemma repeat_loop_star (body : mstate → kont → option mstate) fuel last st (k : kont) :
  repeat_loop body (S fuel) 0 None true last st k
  = match (if bool_decide (last = Some (length (ms_rest st))) then None
           else body st (fun st' =>
                  repeat_loop body fuel 0 None true (Some (length (ms_rest st))) st' k)) with
    | Some m => Some m
    | None => k st
    end.
Proof. reflexivity. Qed.

Lemma repeat_loop_plus (body : mstate → kont → option mstate) fuel last st (k : kont) :
  repeat_loop body (S fuel) 1 None true last st k
  = body st (fun st' => repeat_loop body fuel 0 None true last st' k).
Proof. reflexivity. Qed.

Section SetLoops.
Variable body : mstate → kont → option mstate.
Variable p : ascii → bool.
Hypothesis body_step : ∀ st k, body st k = step_char p st k.

Lemma repeat_star_set fuel last prev (s : str) g (k : kont) :
  last ≠ Some (length s) → length s < fuel →
  repeat_loop body fuel 0 None true last (MState prev s g) k = greedy_set p prev s g k.
Proof.
  revert fuel last prev. induction s as [|c s IH]; intros fuel last prev Hlast Hfuel.
  - destruct fuel as [|fuel]; [simpl in Hfuel; lia|].
    rewrite repeat_loop_star. cbn [ms_rest]. rewrite bool_decide_eq_false_2 by done.
    rewrite body_step. done.
  - destruct fuel as [|fuel]; [simpl in Hfuel; lia|].
    rewrite repeat_loop_star. cbn [ms_rest]. rewrite bool_decide_eq_false_2 by done.
    rewrite body_step. unfold step_char. cbn [ms_rest ms_groups greedy_set].
    destruct (p c); [|done].
    rewrite IH; [done| |simpl in Hfuel; lia].
    simpl. intros [= H]. lia.
Qed.

Lemma repeat_plus_set fuel prev (s : str) g (k : kont) :
  length s < fuel →
  repeat_loop body fuel 1 None true None (MState prev s g) k
  = match s with
    | c :: tl => if p c then greedy_set p (Some c) tl g k else None
    | [] => None
    end.
Proof.
  intros Hfuel. destruct fuel as [|fuel]; [lia|].
  rewrite repeat_loop_plus, body_step. unfold step_char. cbn [ms_rest ms_groups].
  destruct s as [|c s]; [done|]. destruct (p c); [|done].
  apply repeat_star_set; [done|]. simpl in Hfuel. lia.
Qed.
End SetLoops.

(** When what follows accepts the longest span, that is the outcome. *)
Lemma greedy_set_longest p prev (s : str) g (k : kont) m :
  k (MState (last_char prev (span p s).1) (span p s).2 g) = Some m →
  greedy_set p prev s g k = Some m.
Proof.
  revert prev. induction s as [|c s IH]; intros prev; simpl; [done|].
  destruct (p c); [|done].
  destruct (span p s) as [a b] eqn:Hs. simpl in *.
  rewrite last_char_cons. intros H. by rewrite (IH _ H).
Qed.

(** When what follows refuses every text that starts with a character of
    the set, only the longest span is left. *)
Lemma greedy_set_deterministic p prev (s : str) g (k : kont) :
  (∀ prev' c tl, p c = true → k (MState prev' (c :: tl) g) = None) →
  greedy_set p prev s g k
  = k (MState (last_char prev (span p s).1) (span p s).2 g).
Proof.
  intros Hk. revert prev. induction s as [|c s IH]; intros prev; simpl; [done|].
  destruct (p c) eqn:Hc; [|done].
  rewrite IH. destruct (span p s) as [a b]. simpl. rewrite last_char_cons.
  rewrite (Hk prev c s Hc). by destruct (k _).
Qed.

Lemma search_from_first ml r prev (s : str) :
  search_from ml r prev s = first_from (match_at ml r) prev s.
Proof.
  revert prev. induction s as [|c s IH]; intros prev; simpl.
  - by destruct (match_at ml r prev []).
  - destruct (match_at ml r prev (c :: s)); [done|]. apply IH.
Qed.

Lemma first_from_ext {A} (f h : option ascii → str → option A) prev (s : str) :
  (∀ prev s, f prev s = h prev s) → first_from f prev s = first_from h prev s.
Proof.
  intros Hfh. revert prev. induction s as [|c s IH]; intros prev; simpl; rewrite Hfh.
  - done.
  - destruct (h prev (c :: s)); [done|]. apply IH.
Qed.

End ReFacts.

(** ** What the extractors look for, stated on the text itself *)

Module Scan.
Import Spec Aux.
Import Builtins.

End Scan.

Module ScanFacts.
Import Spec Aux.
Import StrFacts Builtins.

(** A text of at most [max_str_digits] characters holds no long numeral. *)
Lemma short_text (s : str) : length s ≤ max_str_digits → no_long_numeral s.
Proof.
  intros Hs pre ds post -> _. rewrite !length_app in Hs. lia.
Qed.

Lemma no_long_numeral_drop (pre s : str) :
  no_long_numeral (pre ++ s) → no_long_numeral s.
Proof.
  intros H p ds q -> Hd. apply (H (pre ++ p) ds q); [|done]. by rewrite <- app_assoc.
Qed.

Lemma first_here_None {A} (here : str → option A) (s : str) :
  first_here here s = None ↔ ∀ i, i ≤ length s → here (drop i s) = None.
Proof.
  induction s as [|c s IH]; simpl.
  - destruct (here []) eqn:E.
    + split; [done|]. intros H. specialize (H 0 (le_n _)). simpl in H. congruence.
    + split; [|done]. intros _ i _. by rewrite drop_nil.
  - destruct (here (c :: s)) eqn:E.
    + split; [done|]. intros H. specialize (H 0 (Nat.le_0_l _)). simpl in H. congruence.
    + rewrite IH. split.
      * intros H [|i] Hi; [done|]. simpl. apply H. lia.
      * intros H i Hi. apply (H (S i)). lia.
Qed.

Lemma first_here_skip {A} (here : str → option A) (pre s : str) :
  (∀ i, i < length pre → here (drop i (pre ++ s)) = None) →
  first_here here (pre ++ s) = first_here here s.
Proof.
  induction pre as [|c pre IH]; intros H; [done|].
  pose proof (H 0 (Nat.lt_0_succ _)) as H0. simpl in H0. simpl. rewrite H0.
  apply IH. intros i Hi. apply (H (S i)). simpl. lia.
Qed.

Lemma first_here_head {A} (here : str → option A) (s : str) (a : A) :
  here s = Some a → first_here here s = Some a.
Proof. intros H. destruct s; simpl; by rewrite H. Qed.

Lemma span_ext (p q : ascii → bool) (s : str) :
  (∀ c, p c = q c) → span p s = span q s.
Proof. intros H. induction s as [|c s IH]; simpl; [done|]. by rewrite H, IH. Qed.

Lemma field_here_Some (name : str) (stop : ascii) (v post : str) :
  v ≠ [] → forallb (fun c => negb (Ascii.eqb c stop)) v = true →
  stops (fun c => negb (Ascii.eqb c stop)) post →
  field_here name stop (name ++ v ++ post) = Some v.
Proof.
  intros Hne Hv Hpost. unfold field_here. rewrite is_prefix_app.
  rewrite drop_app_length, span_spec by done. by destruct v.
Qed.

Lemma field_here_None (name : str) (stop : ascii) (s : str) :
  field_here name stop s = None ↔
  ∀ c post, s = name ++ c :: post → c = stop.
Proof.
  unfold field_here. destruct (is_prefix name s) eqn:Hp.
  - apply is_prefix_split in Hp. set (rest := drop (length name) s) in *.
    split.
    + intros H c post Hs. rewrite Hs in Hp at 1. apply app_inv_head in Hp.
      rewrite <- Hp in H. simpl in H.
      destruct (Ascii.eqb c stop) eqn:E; [by apply Ascii.eqb_eq|].
      simpl in H. by destruct (span _ post).
    + intros H. destruct rest as [|c post]; [done|].
      rewrite (H c post Hp). simpl. by rewrite Ascii.eqb_refl.
  - split; [|done]. intros _ c post ->. by rewrite is_prefix_app in Hp.
Qed.

End ScanFacts.

(** ** The pattern of the timestamp *)

Module ExtractFacts.
Import Spec Aux.
Import Re StrFacts ReFacts ScanFacts Text.

Lemma take_span_length (v post : str) : take (length (v ++ post) - length post) (v ++ post) = v.
Proof.
  rewrite length_app. replace (length v + length post - length post) with (length v) by lia.
  by rewrite take_app_length.
Qed.

Lemma run_capture_plus ml gid negate items prev (s : str) g :
  run ml (capture_plus gid negate items) (MState prev s g) Some
  = match span (in_set negate items) s with
    | ([], _) => None
    | (v, post) => Some (MState (last_char prev v) post (<[gid := v]> g))
    end.
Proof.
  unfold capture_plus. cbn [run ms_rest ms_prev ms_groups].
  rewrite (repeat_plus_set (run ml (CharSet negate items)) (in_set negate items))
    by (done || lia).
  destruct s as [|c s]; [done|]. simpl span.
  destruct (in_set negate items c) eqn:Hc; [|done].
  pose proof (span_app (in_set negate items) s) as Happ.
  destruct (span (in_set negate items) s) as [v post] eqn:Hs. simpl in Happ.
  erewrite greedy_set_longest; [reflexivity|].
  rewrite Hs. cbn [fst snd ms_rest ms_prev ms_groups].
  rewrite last_char_cons. do 3 f_equal.
  rewrite <- Happ. exact (take_span_length (c :: v) post).
Qed.

Lemma compile_re_timestamp :
  compile re_timestamp = Ret (Pattern (lits ts_name (capture_plus 1 true [SLiteral dquote])) 1).
Proof. by vm_compute. Qed.

Lemma in_set_not (stop c : ascii) :
  in_set true [SLiteral stop] c = negb (Ascii.eqb c stop).
Proof. unfold in_set. simpl. by rewrite orb_false_r. Qed.

(** A pattern made of a name and a captured value matches where there is a
    field, and captures its value. *)
Lemma match_at_field ml (name : str) (stop : ascii) prev (s : str) :
  (λ m, group m 1) <$> match_at ml (lits name (capture_plus 1 true [SLiteral stop])) prev s
  = Some <$> field_here name stop s.
Proof.
  unfold match_at, field_here. destruct (is_prefix name s) eqn:Hp.
  - apply is_prefix_split in Hp. rewrite Hp at 1. rewrite run_lits, run_capture_plus.
    rewrite (span_ext _ _ _ (in_set_not stop)).
    destruct (span _ (drop (length name) s)) as [[|c v] post]; [done|].
    simpl. by rewrite lookup_insert_eq.
  - by rewrite run_lits_fail.
Qed.

Lemma search_group1 ml r (here : str → option str) :
  (∀ prev s, (λ m, group m 1) <$> match_at ml r prev s = Some <$> here s) →
  ∀ prev s, (λ m, group m 1) <$> search_from ml r prev s = Some <$> first_here here s.
Proof.
  intros H prev s. revert prev. induction s as [|c s IH]; intros prev; simpl.
  - specialize (H prev []). destruct (match_at ml r prev []), (here []); done.
  - specialize (H prev (c :: s)).
    destruct (match_at ml r prev (c :: s)), (here (c :: s)); first [done | apply IH].
Qed.

Lemma extract_timestamp_first (html : str) :
  extract_timestamp html
  = match first_here (field_here ts_name dquote) html with
    | Some v => Ret (Some v)
    | None => Raise (FatalError "unable to fetch timestamp")
    end.
Proof.
  unfold extract_timestamp, search. rewrite compile_re_timestamp. simpl.
  pose proof (search_group1 true _ _ (match_at_field true ts_name dquote) None html) as H.
  destruct (search_from _ _ _ _), (first_here _ _); simpl in H; try done.
  by injection H as ->.
Qed.

End ExtractFacts.

Module ScanFacts2.
Import Spec Aux.
Import StrFacts ScanFacts.

Lemma not_elem_forallb (stop : ascii) (v : str) :
  stop ∉ v → forallb (fun c => negb (Ascii.eqb c stop)) v = true.
Proof.
  induction v as [|c v IH]; simpl; [done|].
  intros H. apply not_elem_of_cons in H as [Hc Hv].
  rewrite IH by done. destruct (Ascii.eqb_spec c stop); [by subst|done].
Qed.

Lemma forallb_not_elem (stop : ascii) (v : str) :
  forallb (fun c => negb (Ascii.eqb c stop)) v = true → stop ∉ v.
Proof.
  induction v as [|c v IH]; simpl; [intros _; apply not_elem_of_nil|].
  intros [Hc Hv]%andb_true_iff. apply not_elem_of_cons. split; [|by apply IH].
  intros ->. by rewrite Ascii.eqb_refl in Hc.
Qed.

(** No field anywhere in [s]: wherever [name] occurs, [stop] follows. *)
Lemma first_field_None (name : str) (stop : ascii) (s : str) :
  first_here (field_here name stop) s = None ↔
  ∀ pre c post, s = pre ++ name ++ c :: post → c = stop.
Proof.
  rewrite first_here_None. split.
  - intros H pre c post Hs.
    assert (Hi : length pre ≤ length s) by (rewrite Hs, length_app; lia).
    specialize (H _ Hi). rewrite Hs, drop_app_length in H.
    by apply (proj1 (field_here_None _ _ _) H c post).
  - intros H i Hi. apply field_here_None. intros c post Hd.
    apply (H (take i s) c post). by rewrite <- Hd, take_drop.
Qed.

(** The first field of a text: the one before which no field starts. *)
Lemma first_field_Some (name : str) (stop : ascii) (pre v post : str) :
  v ≠ [] → stop ∉ v →
  (∀ i, i < length pre →
        field_here name stop (drop i (pre ++ name ++ v ++ stop :: post)) = None) →
  first_here (field_here name stop) (pre ++ name ++ v ++ stop :: post) = Some v.
Proof.
  intros Hne Hv Hpre. rewrite first_here_skip by done.
  apply first_here_head. apply field_here_Some; [done|by apply not_elem_forallb|].
  simpl. by rewrite Ascii.eqb_refl.
Qed.

End ScanFacts2.

(** ** [extract_timestamp] *)

Module Claims3.
Import Spec Aux.
Import Re StrFacts ReFacts ScanFacts ScanFacts2 Text ExtractFacts.

(** C5.  [extract_timestamp] returns, as a string, the value of the first
    field named [ts] of the text: the characters after the opening quote of
    its attribute [value] ([ts_name]) up to the next double quote, at least
    one.  It raises the fatal error exactly when the text has no such
    field, that is when [ts_name] occurs nowhere with a character other
    than a double quote after it.  In particular an [input] named [ts] of
    value [16933221] gives [16933221]. *)
Theorem extract_timestamp_field :
  (∀ html : str,
     extract_timestamp html
     = match first_here (field_here ts_name dquote) html with
       | Some v => Ret (Some v)
       | None => Raise (FatalError "unable to fetch timestamp")
       end)
  ∧ (∀ pre v post : str,
       v ≠ [] → dquote ∉ v →
       (∀ i, i < length pre →
             field_here ts_name dquote (drop i (pre ++ ts_name ++ v ++ dquote :: post)) = None) →
       extract_timestamp (pre ++ ts_name ++ v ++ dquote :: post) = Ret (Some v))
  ∧ (∀ html : str,
       extract_timestamp html = Raise (FatalError "unable to fetch timestamp")
       ↔ ∀ pre c post, html = pre ++ ts_name ++ c :: post → c = dquote)
  ∧ extract_timestamp (py "<input name='ts' value='16933221'>") = Ret (Some (py "16933221")).
Proof.
  split; [|split; [|split; [|by vm_compute]]].
  - apply extract_timestamp_first.
  - intros pre v post Hne Hv Hpre.
    by rewrite extract_timestamp_first, first_field_Some.
  - intros html. rewrite extract_timestamp_first, <- first_field_None.
    by destruct (first_here _ html).
Qed.

Lemma extract_timestamp_field_witness :
  extract_timestamp (py "<form>" ++ ts_name ++ py "42" ++ dquote :: py " />") = Ret (Some (py "42")).
Proof.
  apply (proj1 (proj2 extract_timestamp_field) (py "<form>") (py "42") (py " />")).
  - discriminate.
  - apply not_elem_of_cons. split; [discriminate|].
    apply not_elem_of_cons. split; [discriminate|]. apply not_elem_of_nil.
  - intros i Hi. do 6 (destruct i as [|i]; [reflexivity|]). simpl in Hi. lia.
Defined.

End Claims3.

(** ** Sets, groups and literals in sequence *)

Module ReFacts2.
Import Spec Aux.
Import Re StrFacts ReFacts ScanFacts.

Lemma run_literal_then ml (c : ascii) (r2 : regex) prev (s : str) g (k : kont) :
  run ml (Concat (Literal c) r2) (MState prev s g) k
  = match s with
    | d :: tl => if Ascii.eqb c d then run ml r2 (MState (Some d) tl g) k else None
    | [] => None
    end.
Proof. reflexivity. Qed.

Lemma run_group_then ml (gid : nat) (r r2 : regex) st (k : kont) :
  run ml (Concat (Subpattern (Some gid) r) r2) st k
  = run ml r st (fun st' =>
      run ml r2
        (MState (ms_prev st') (ms_rest st')
           (<[gid := take (length (ms_rest st) - length (ms_rest st')) (ms_rest st)]>
              (ms_groups st'))) k).
Proof. reflexivity. Qed.

Section SetThen.
Variables (ml negate : bool) (items : list set_item) (p : ascii → bool).
Hypothesis set_p : ∀ c, in_set negate items c = p c.

Lemma set_body_step st (k : kont) : run ml (CharSet negate items) st k = step_char p st k.
Proof.
simpl. unfold step_char. destruct (ms_rest st) as [|c tl]; [done|].
by rewrite set_p.
Qed.

(** One or more characters of the set, then [r2], which refuses to start
    on a character of the set: the set takes all it can. *)
Lemma run_plus_then (r2 : regex) prev (s : str) g (k : kont) :
  (∀ prev' c tl, p c = true → run ml r2 (MState prev' (c :: tl) g) k = None) →
  run ml (Concat (Repeat 1 None true (CharSet negate items)) r2) (MState prev s g) k
  = match span p s with
    | ([], _) => None
    | (v, post) => run ml r2 (MState (last_char prev v) post g) k
    end.
Proof.
  intros Hdet. cbn [run ms_rest].
  rewrite (repeat_plus_set _ p set_body_step) by lia.
  destruct s as [|c s]; [done|]. simpl span. destruct (p c) eqn:Hc; [|done].
  rewrite greedy_set_deterministic by (intros; by apply Hdet).
  destruct (span p s) as [v post]. simpl. by rewrite last_char_cons.
Qed.

Lemma run_star_then (r2 : regex) prev (s : str) g (k : kont) :
  (∀ prev' c tl, p c = true → run ml r2 (MState prev' (c :: tl) g) k = None) →
  run ml (Concat (Repeat 0 None true (CharSet negate items)) r2) (MState prev s g) k
  = run ml r2 (MState (last_char prev (span p s).1) (span p s).2 g) k.
Proof.
  intros Hdet. cbn [run ms_rest].
  rewrite (repeat_star_set _ p set_body_step) by (done || lia).
  by rewrite greedy_set_deterministic by (intros; by apply Hdet).
Qed.

(** One or more characters of the set, then [r2], which accepts what
    follows the longest span. *)
Lemma run_plus_accept (r2 : regex) prev (s : str) g (k : kont) :
  (∀ st, is_Some (run ml r2 st k)) →
  run ml (Concat (Repeat 1 None true (CharSet negate items)) r2) (MState prev s g) k
  = match span p s with
    | ([], _) => None
    | (v, post) => run ml r2 (MState (last_char prev v) post g) k
    end.
Proof.
  intros Hacc. cbn [run ms_rest].
  rewrite (repeat_plus_set _ p set_body_step) by lia.
  destruct s as [|c s]; [done|]. simpl span. destruct (p c) eqn:Hc; [|done].
  destruct (span p s) as [v post] eqn:Hs.
  destruct (Hacc (MState (last_char (Some c) v) post g)) as [m Hm].
  rewrite last_char_cons, Hm.
  apply greedy_set_longest. by rewrite Hs.
Qed.
End SetThen.

Lemma in_set_digit (c : ascii) : in_set false [SCategory Digit] c = is_digit c.
Proof. unfold in_set. simpl. by rewrite orb_false_r. Qed.

Lemma in_set_word (c : ascii) : in_set false [SCategory Word] c = is_word c.
Proof. unfold in_set. simpl. by rewrite orb_false_r. Qed.

Lemma in_set_space (c : ascii) :
  in_set false [SCategory Space; SLiteral newline] c = is_blank c.
Proof. ascii_cases c. Qed.

End ReFacts2.

(** ** The pattern of the version *)

Module VersionFacts.
Import Spec Aux.
Import Re StrFacts ReFacts ReFacts2 ScanFacts Text Builtins BuiltinsFacts ExtractFacts.

Lemma compile_re_version : compile re_version = Ret (Pattern rx_version 1).
Proof. by vm_compute. Qed.

Lemma take_suffix (x v post : str) :
  x = v ++ post → take (length x - length post) x = v.
Proof. intros ->. apply take_span_length. Qed.

Lemma digit_then_point ml (r2 : regex) (k : kont) prev' (c : ascii) (tl : str) g :
  is_digit c = true →
  run ml (Concat (Literal ".") r2) (MState prev' (c :: tl) g) k = None.
Proof.
  intros Hc. rewrite run_literal_then.
  destruct (Ascii.eqb_spec "." c) as [<-|]; [discriminate|done].
Qed.

Lemma match_at_version ml prev (s : str) :
  (λ m, group m 1) <$> match_at ml rx_version prev s
  = Some <$> (version_text <$> version_here s).
Proof.
  unfold match_at, version_here, rx_version. destruct (is_prefix trac_name s) eqn:Hp.
  2: { by rewrite run_lits_fail. }
  apply is_prefix_split in Hp. rewrite Hp at 1. rewrite run_lits, run_group_then.
  set (s0 := drop (length trac_name) s). cbn [ms_rest ms_prev ms_groups].
  unfold digits1.
  rewrite (run_plus_then ml false _ is_digit in_set_digit)
    by (intros; by apply digit_then_point).
  pose proof (span_app is_digit s0) as H1.
  destruct (span is_digit s0) as [d1 post1]. simpl in H1.
  destruct d1 as [|c1 d1]; [done|].
  rewrite run_literal_then. destruct post1 as [|c post1]; [done|].
  destruct (Ascii.eqb_spec "." c) as [<-|Hne].
  2: { destruct c as [[] [] [] [] [] [] [] []]; try done. }
  rewrite (run_plus_then ml false _ is_digit in_set_digit)
    by (intros; by apply digit_then_point).
  pose proof (span_app is_digit post1) as H2.
  destruct (span is_digit post1) as [d2 post2]. simpl in H2.
  destruct d2 as [|c2 d2]; [done|].
  rewrite run_literal_then. destruct post2 as [|c post2]; [done|].
  destruct (Ascii.eqb_spec "." c) as [<-|Hne].
  2: { destruct c as [[] [] [] [] [] [] [] []]; try done. }
  rewrite (run_plus_accept ml false _ is_digit in_set_digit) by (intros; simpl; eauto).
  pose proof (span_app is_digit post2) as H3.
  destruct (span is_digit post2) as [d3 post3]. simpl in H3.
  destruct d3 as [|c3 d3]; [done|].
  simpl. rewrite lookup_insert_eq. do 2 f_equal.
  rewrite <- H1, <- H2, <- H3.
  apply take_suffix. simpl. repeat (rewrite <- app_assoc; simpl). done.
Qed.

End VersionFacts.

(** ** [findall] on a pattern that starts with a literal *)

Module FindallFacts.
Import Spec Aux.
Import Re StrFacts ReFacts ReFacts2 ScanFacts Text Builtins BuiltinsFacts ExtractFacts.

Lemma findall_from_S fuel ml r prev (s : str) :
  findall_from (S fuel) ml r prev s
  = match search_from ml r prev s with
    | None => Some []
    | Some m =>
        if length (ms_rest (mo_end m)) <? length (mo_start m) then
          ms ← findall_from fuel ml r (ms_prev (mo_end m)) (ms_rest (mo_end m));
          Some (m :: ms)
        else None
    end.
Proof. reflexivity. Qed.

Lemma first_here_fmap {A B} (f : A → B) (here : str → option A) (s : str) :
  first_here (fun s => f <$> here s) s = f <$> first_here here s.
Proof.
  induction s as [|c s IH]; simpl.
  - by destruct (here []).
  - by destruct (here (c :: s)).
Qed.

Lemma first_here_Some {A} (here : str → option A) (s : str) (a : A) :
  first_here here s = Some a → ∃ i, i ≤ length s ∧ here (drop i s) = Some a.
Proof.
  induction s as [|c s IH]; simpl.
  - destruct (here []) eqn:E; [|done]. intros [= <-]. exists 0. by rewrite drop_0.
  - destruct (here (c :: s)) eqn:E.
    + intros [= <-]. exists 0. split; [lia|done].
    + intros H. destruct (IH H) as (i & Hi & Hh). exists (S i). split; [lia|done].
Qed.

Lemma step_char_forward p : forward (step_char p).
Proof.
  intros st k m. unfold step_char. destruct (ms_rest st) as [|c tl] eqn:E; [done|].
  destruct (p c); [|done]. intros H. eexists. split; [exact H|]. simpl. lia.
Qed.

Lemma repeat_loop_forward body fuel lo hi greedy last :
  forward body → forward (repeat_loop body fuel lo hi greedy last).
Proof.
  intros Hbody. revert lo hi last.
  induction fuel as [|fuel IH]; intros lo hi last st k m; [done|].
  simpl. destruct (0 <? lo).
  - destruct (hi_is_zero hi); [done|]. intros H.
    apply Hbody in H as (st1 & H & Hle). apply IH in H as (st2 & H & Hle2).
    exists st2. split; [done|lia].
  - assert (Hagain : ∀ m',
      (if hi_is_zero hi || bool_decide (last = Some (length (ms_rest st))) then None
       else body st (fun st' =>
              repeat_loop body fuel 0 (option_map pred hi) greedy
                (Some (length (ms_rest st))) st' k)) = Some m' →
      ∃ st', k st' = Some m' ∧ length (ms_rest st') ≤ length (ms_rest st)).
    { intros m'. destruct (_ || _); [done|]. intros H.
      apply Hbody in H as (st1 & H & Hle). apply IH in H as (st2 & H & Hle2).
      exists st2. split; [done|lia]. }
    destruct greedy.
    + destruct (if hi_is_zero hi || _ then _ else _) as [m'|] eqn:E.
      * intros [= <-]. by apply Hagain.
      * intros H. exists st. split; [done|lia].
    + destruct (k st) as [m'|] eqn:E.
      * intros [= <-]. exists st. split; [done|lia].
      * apply Hagain.
Qed.

Lemma run_forward ml r : forward (run ml r).
Proof.
  induction r as [|c| |negate items|a|r1 IH1 r2 IH2|r1 IH1 r2 IH2|lo hi greedy r IH|gid r IH];
    intros st k m; simpl.
  - intros H. exists st. split; [done|lia].
  - apply step_char_forward.
  - apply step_char_forward.
  - apply step_char_forward.
  - destruct (at_holds ml a st); [|done]. intros H. exists st. split; [done|lia].
  - intros H. apply IH1 in H as (st1 & H & Hle). apply IH2 in H as (st2 & H & Hle2).
    exists st2. split; [done|lia].
  - destruct (run ml r1 st k) as [m'|] eqn:E.
    + intros [= <-]. by apply IH1.
    + apply IH2.
  - by apply repeat_loop_forward.
  - intros H. apply IH in H as (st1 & H & Hle). destruct gid as [g|].
    + eexists. split; [exact H|]. simpl. lia.
    + exists st1. split; [done|lia].
Qed.

(** A pattern that starts with a literal matches no empty text. *)
Lemma match_at_literal_first ml (c : ascii) (r : regex) prev (s : str) m :
  match_at ml (Concat (Literal c) r) prev s = Some m →
  mo_start m = s ∧ length (ms_rest (mo_end m)) < length s.
Proof.
  unfold match_at. destruct (run ml _ _ Some) as [st|] eqn:E; [|done].
  intros [= <-]. split; [done|]. simpl.
  change (run ml (Concat (Literal c) r) (MState prev s ∅) Some)
    with (step_char (Ascii.eqb c) (MState prev s ∅) (fun st' => run ml r st' Some)) in E.
  unfold step_char in E. cbn [ms_rest ms_groups] in E. destruct s as [|d tl]; [done|].
  destruct (Ascii.eqb c d); [|done].
  apply run_forward in E as (st2 & [= <-] & Hle2). simpl in *. lia.
Qed.

Lemma match_at_start ml r prev (s : str) m :
  match_at ml r prev s = Some m → mo_start m = s.
Proof. unfold match_at. destruct (run ml r _ Some); [|done]. by intros [= <-]. Qed.

Lemma search_from_start ml r prev (s : str) m :
  search_from ml r prev s = Some m →
  ∃ prev', match_at ml r prev' (mo_start m) = Some m ∧ length (mo_start m) ≤ length s.
Proof.
  revert prev. induction s as [|c s IH]; intros prev; simpl.
  - destruct (match_at ml r prev []) as [m'|] eqn:E; [|done].
    intros [= <-]. exists prev. by rewrite (match_at_start _ _ _ _ _ E).
  - destruct (match_at ml r prev (c :: s)) as [m'|] eqn:E.
    + intros [= <-]. exists prev. by rewrite (match_at_start _ _ _ _ _ E).
    + intros H. apply IH in H as (prev' & H & Hle). exists prev'. split; [done|lia].
Qed.

(** For a pattern that starts with a literal, [findall] returns, and its
    first element comes from the first match. *)
Lemma findall_from_total ml (c : ascii) (r : regex) fuel prev (s : str) :
  length s < fuel →
  ∃ l, findall_from fuel ml (Concat (Literal c) r) prev s = Some l
       ∧ head l = search_from ml (Concat (Literal c) r) prev s.
Proof.
  revert prev s. induction fuel as [|fuel IH]; intros prev s Hfuel; [lia|].
  rewrite findall_from_S.
  destruct (search_from ml _ prev s) as [m|] eqn:E; [|by exists []].
  apply search_from_start in E as (prev' & E & Hle).
  apply match_at_literal_first in E as [_ Hlt].
  rewrite (proj2 (Nat.ltb_lt _ _)) by done.
  destruct (IH (ms_prev (mo_end m)) (ms_rest (mo_end m))) as (l & -> & _); [lia|].
  by exists (m :: l).
Qed.

(** The first element of the list [findall] returns, for a pattern with one
    group that starts with a literal: the text of the group in the first
    match. *)
Lemma findall_first ml (c : ascii) (r : regex) (here : str → option str) (s : str) :
  (∀ prev s, (λ m, group m 1) <$> match_at ml (Concat (Literal c) r) prev s
             = Some <$> here s) →
  ∃ l, findall_from (S (length s)) ml (Concat (Literal c) r) None s = Some l
       ∧ head (map (findall_item 1) l) = FText <$> first_here here s.
Proof.
  intros H. destruct (findall_from_total ml c r (S (length s)) None s) as (l & Hl & Hh); [lia|].
  exists l. split; [done|].
  pose proof (search_group1 ml _ here H None s) as Hs. rewrite <- Hh in Hs.
  destruct l as [|m l], (first_here here s) as [v|];
    cbn [head fmap option_fmap option_map] in Hs; try done.
  injection Hs as Hg. cbn [map head fmap option_fmap option_map].
  unfold findall_item, group_text. change (group m 1) with (ms_groups (mo_end m) !! 1).
  by rewrite Hg.
Qed.

End FindallFacts.

Module VersionFacts2.
Import Spec Aux.
Import Re StrFacts ReFacts ReFacts2 ScanFacts Text Builtins BuiltinsFacts ExtractFacts.
Import VersionFacts FindallFacts.

Lemma digit_not_point (c : ascii) : is_digit c = true → Ascii.eqb c "." = false.
Proof. ascii_cases c. Qed.

Lemma split_digits_end (d : str) : forallb is_digit d = true → split "." d = [d].
Proof.
  induction d as [|c d IH]; simpl; [done|].
  intros H. apply andb_true_iff in H as [Hc Hd].
  by rewrite (digit_not_point c Hc), IH.
Qed.

Lemma split_digits (d rest : str) :
  forallb is_digit d = true → split "." (d ++ "."%char :: rest) = d :: split "." rest.
Proof.
  induction d as [|c d IH]; simpl; [done|].
  intros H. apply andb_true_iff in H as [Hc Hd].
  by rewrite (digit_not_point c Hc), IH.
Qed.

Lemma int_of_str_digits_limit (ds : str) :
  ds ≠ [] → forallb is_digit ds = true →
  int_of_str ds = if max_str_digits <? length ds then Unmodelled else Ret (Z_of_digits ds).
Proof.
  intros Hne Hd.
  pose proof (int_of_str_numeral_limit [] [] NoSign ds eq_refl eq_refl Hne Hd) as H.
  simpl in H. by rewrite app_nil_r in H.
Qed.

Lemma int_of_str_digits (ds : str) :
  ds ≠ [] → forallb is_digit ds = true → length ds ≤ max_str_digits →
  int_of_str ds = Ret (Z_of_digits ds).
Proof.
  intros Hne Hd Hlen. rewrite int_of_str_digits_limit by done.
  apply Nat.ltb_ge in Hlen. by rewrite Hlen.
Qed.

Lemma version_here_numerals (s : str) (v : str * str * str) :
  version_here s = Some v → numerals v.
Proof.
  unfold version_here. destruct (is_prefix _ _); [|done].
  pose proof (span_forall is_digit (drop (length trac_name) s)) as H1.
  destruct (span is_digit _) as [[|c1 d1] [|p1 post1]]; try done.
  destruct (Ascii.eqb_spec p1 ".") as [->|Hne].
  2: { destruct p1 as [[] [] [] [] [] [] [] []]; try done. }
  pose proof (span_forall is_digit post1) as H2.
  destruct (span is_digit post1) as [[|c2 d2] [|p2 post2]]; try done.
  destruct (Ascii.eqb_spec p2 ".") as [->|Hne].
  2: { destruct p2 as [[] [] [] [] [] [] [] []]; try done. }
  pose proof (span_forall is_digit post2) as H3.
  destruct (span is_digit post2) as [[|c3 d3] post3]; try done.
  intros [= <-]. simpl in *. done.
Qed.

Lemma version_ints (v : str * str * str) :
  numerals v → short_numerals v →
  map_outcome int_of_str (split "." (version_text v)) = Ret (version_numbers v).
Proof.
  destruct v as [[d1 d2] d3]. intros ((N1 & D1) & (N2 & D2) & (N3 & D3)) (L1 & L2 & L3).
  unfold version_text.
  rewrite split_digits, split_digits, split_digits_end by done.
  simpl. by rewrite !int_of_str_digits.
Qed.

(** Whatever [int] returns on the numerals is what they denote. *)
Lemma version_ints_Ret (v : str * str * str) (l : list Z) :
  numerals v →
  map_outcome int_of_str (split "." (version_text v)) = Ret l → l = version_numbers v.
Proof.
  destruct v as [[d1 d2] d3]. intros ((N1 & D1) & (N2 & D2) & (N3 & D3)).
  unfold version_text.
  rewrite split_digits, split_digits, split_digits_end by done.
  simpl. rewrite !int_of_str_digits_limit by done.
  destruct (_ <? length d1); [done|]. simpl.
  destruct (_ <? length d2); [done|]. simpl.
  destruct (_ <? length d3); [done|]. simpl. by intros [= <-].
Qed.

(** [extract_trac_version] converts the numerals of the first version. *)
Lemma extract_trac_version_found (html : str) :
  extract_trac_version html
  = match first_here version_here html with
    | Some v => map_outcome int_of_str (split "." (version_text v))
    | None => Ret []
    end.
Proof.
  unfold extract_trac_version, findall. rewrite compile_re_version.
  cbn [mbind outcome_bind rx groups].
  destruct (findall_first true "T" _ (fun s => version_text <$> version_here s) html
              (match_at_version true)) as (l & Hl & H).
  change (Concat (Literal "T") _) with rx_version in Hl. rewrite Hl.
  rewrite first_here_fmap in H.
  destruct (map _ l) as [|item items],
           (first_here version_here html) as [v|] eqn:Hv; simpl in H; try done.
  by injection H as ->.
Qed.

Lemma first_version_numerals (html : str) (v : str * str * str) :
  first_here version_here html = Some v → numerals v.
Proof.
  intros Hv. apply first_here_Some in Hv as (i & _ & Hv).
  by apply version_here_numerals in Hv.
Qed.

(** A version that [extract_trac_version] returns is the first one. *)
Lemma extract_trac_version_Ret (html : str) (l : list Z) :
  extract_trac_version html = Ret l →
  match first_here version_here html with
  | Some v => l = version_numbers v
  | None => l = []
  end.
Proof.
  rewrite extract_trac_version_found.
  destruct (first_here version_here html) as [v|] eqn:Hv; [|by intros [= <-]].
  apply version_ints_Ret. by apply first_version_numerals in Hv.
Qed.

End VersionFacts2.

Module VersionFacts3.
Import Spec Aux.
Import Re StrFacts ReFacts ReFacts2 ScanFacts Text Builtins BuiltinsFacts ExtractFacts.
Import VersionFacts FindallFacts VersionFacts2.

Lemma span_app_forall (p : ascii → bool) (v s : str) :
  forallb p v = true → span p (v ++ s) = (v ++ (span p s).1, (span p s).2).
Proof.
  intros Hv. induction v as [|c v IH]; simpl.
  - by destruct (span p s).
  - simpl in Hv. apply andb_true_iff in Hv as [-> Hv]. by rewrite IH.
Qed.

Lemma version_here_Some (d1 d2 d3 post : str) :
  numerals (d1, d2, d3) →
  version_here (trac_name ++ d1 ++ "."%char :: d2 ++ "."%char :: d3 ++ post)
  = Some (d1, d2, d3 ++ (span is_digit post).1).
Proof.
  intros ((N1 & D1) & (N2 & D2) & (N3 & D3)). unfold version_here.
  rewrite is_prefix_app, drop_app_length.
  rewrite (span_spec is_digit d1) by done.
  destruct d1 as [|c1 d1]; [done|].
  rewrite (span_spec is_digit d2) by done.
  destruct d2 as [|c2 d2]; [done|].
  rewrite span_app_forall by done.
  destruct d3 as [|c3 d3]; [done|]. done.
Qed.

Lemma version_here_stops (d1 d2 d3 post : str) :
  numerals (d1, d2, d3) → stops is_digit post →
  version_here (trac_name ++ d1 ++ "."%char :: d2 ++ "."%char :: d3 ++ post)
  = Some (d1, d2, d3).
Proof.
  intros Hn Hp. rewrite version_here_Some by done.
  replace (span is_digit post) with (([] : str), post).
  - simpl. by rewrite app_nil_r.
  - symmetry. by apply (span_spec is_digit []).
Qed.

Lemma version_here_inv (s : str) (v : str * str * str) :
  version_here s = Some v →
  ∃ post, s = trac_name ++ v.1.1 ++ "."%char :: v.1.2 ++ "."%char :: v.2 ++ post.
Proof.
  unfold version_here. destruct (is_prefix _ _) eqn:Hp; [|done].
  apply is_prefix_split in Hp.
  pose proof (span_app is_digit (drop (length trac_name) s)) as H1.
  destruct (span is_digit _) as [[|c1 d1] [|p1 post1]]; try done.
  destruct (Ascii.eqb_spec p1 ".") as [->|Hne].
  2: { destruct p1 as [[] [] [] [] [] [] [] []]; try done. }
  pose proof (span_app is_digit post1) as H2.
  destruct (span is_digit post1) as [[|c2 d2] [|p2 post2]]; try done.
  destruct (Ascii.eqb_spec p2 ".") as [->|Hne].
  2: { destruct p2 as [[] [] [] [] [] [] [] []]; try done. }
  pose proof (span_app is_digit post2) as H3.
  destruct (span is_digit post2) as [[|c3 d3] post3]; try done.
  intros [= <-]. exists post3. cbn [fst snd] in *.
  rewrite Hp at 1. by rewrite <- H1, <- H2, <- H3.
Qed.

(** No version anywhere in the text. *)
Lemma first_version_None (s : str) :
  first_here version_here s = None ↔
  ¬ ∃ pre d1 d2 d3 post,
      s = pre ++ trac_name ++ d1 ++ "."%char :: d2 ++ "."%char :: d3 ++ post
      ∧ numerals (d1, d2, d3).
Proof.
  rewrite first_here_None. split.
  - intros H (pre & d1 & d2 & d3 & post & Hs & Hn).
    assert (Hi : length pre ≤ length s) by (rewrite Hs, length_app; lia).
    specialize (H _ Hi). rewrite Hs, drop_app_length in H.
    by rewrite version_here_Some in H.
  - intros H i Hi. destruct (version_here (drop i s)) as [[[d1 d2] d3]|] eqn:E; [|done].
    destruct H. pose proof (version_here_numerals _ _ E) as Hn.
    apply version_here_inv in E as [post E]. cbn [fst snd] in E.
    exists (take i s), d1, d2, d3, post. split; [|done].
    by rewrite <- E, take_drop.
Qed.

(** In a text without long numerals the numerals of a version are short. *)
Lemma first_version_short (html : str) (v : str * str * str) :
  no_long_numeral html → first_here version_here html = Some v → short_numerals v.
Proof.
  intros Hlim Hv. pose proof (first_version_numerals _ _ Hv) as Hn.
  apply first_here_Some in Hv as (i & _ & Hv).
  apply version_here_inv in Hv as [post Hs].
  destruct v as [[d1 d2] d3]. cbn [fst snd] in Hs.
  destruct Hn as ((_ & D1) & (_ & D2) & (_ & D3)).
  assert (Hhtml : html = take i html ++ trac_name ++ d1 ++ "."%char :: d2 ++ "."%char :: d3 ++ post)
    by (by rewrite <- Hs, take_drop).
  repeat split.
  - apply (Hlim (take i html ++ trac_name) d1 ("."%char :: d2 ++ "."%char :: d3 ++ post));
      [|done]. by rewrite <- app_assoc.
  - apply (Hlim (take i html ++ trac_name ++ d1 ++ ["."%char]) d2 ("."%char :: d3 ++ post));
      [|done]. rewrite Hhtml at 1. by rewrite <- !app_assoc.
  - apply (Hlim (take i html ++ trac_name ++ d1 ++ "."%char :: d2 ++ ["."%char]) d3 post);
      [|done]. rewrite Hhtml at 1. rewrite <- !app_assoc. simpl. by rewrite <- !app_assoc.
Qed.

(** [extract_trac_version] finds the first version of a text without long
    numerals. *)
Lemma extract_trac_version_first (html : str) :
  no_long_numeral html →
  extract_trac_version html
  = match first_here version_here html with
    | Some v => Ret (version_numbers v)
    | None => Ret []
    end.
Proof.
  intros Hlim. rewrite extract_trac_version_found.
  destruct (first_here version_here html) as [v|] eqn:Hv; [|done].
  apply version_ints; [by eapply first_version_numerals|by eapply first_version_short].
Qed.

(** The empty result is the one of a text without a version. *)
Lemma extract_trac_version_empty (html : str) :
  extract_trac_version html = Ret [] ↔ first_here version_here html = None.
Proof.
  split.
  - intros H. apply extract_trac_version_Ret in H.
    by destruct (first_here version_here html) as [[[d1 d2] d3]|].
  - intros H. by rewrite extract_trac_version_found, H.
Qed.

End VersionFacts3.

(** ** [extract_trac_version] *)

Module Claims4.
Import Spec Aux.
Import Re StrFacts ReFacts ReFacts2 ScanFacts Text Builtins BuiltinsFacts ExtractFacts.
Import VersionFacts FindallFacts VersionFacts2 VersionFacts3.

(** C9.  [extract_trac_version] returns the three numbers of the first
    occurrence of [Trac X.Y.Z] in the text, [X], [Y] and [Z] being decimal
    numerals, as integers in that order; when the text has no such
    occurrence it returns the empty sequence, and this is the only case in
    which it does.  The numerals are converted by [int], so this holds for
    a text in which no run of digits is longer than 4300: there the
    function always returns, a sequence that is empty or of three numbers.
    (Beyond 4300 digits the versions of the interpreter differ: the recent
    ones raise [ValueError], which the function does not catch.)  In
    particular [Powered by Trac 1.2.3] gives [(1, 2, 3)] and
    [no version here] gives [()]. *)
Theorem extract_trac_version_first_occurrence :
  (∀ html : str,
     no_long_numeral html →
     extract_trac_version html
     = match first_here version_here html with
       | Some v => Ret (version_numbers v)
       | None => Ret []
       end)
  ∧ (∀ pre d1 d2 d3 post : str,
       numerals (d1, d2, d3) →
       length d1 ≤ max_str_digits → length d2 ≤ max_str_digits →
       length d3 ≤ max_str_digits →
       stops is_digit post →
       (∀ i, i < length pre →
          version_here (drop i (pre ++ trac_name ++ d1 ++ "."%char :: d2 ++ "."%char :: d3 ++ post))
          = None) →
       extract_trac_version (pre ++ trac_name ++ d1 ++ "."%char :: d2 ++ "."%char :: d3 ++ post)
       = Ret [Z_of_digits d1; Z_of_digits d2; Z_of_digits d3])
  ∧ (∀ html : str,
       extract_trac_version html = Ret []
       ↔ ¬ ∃ pre d1 d2 d3 post,
             html = pre ++ trac_name ++ d1 ++ "."%char :: d2 ++ "."%char :: d3 ++ post
             ∧ numerals (d1, d2, d3))
  ∧ (∀ html : str,
       no_long_numeral html →
       ∃ l, extract_trac_version html = Ret l ∧ (l = [] ∨ length l = 3))
  ∧ (∀ (html : str) (l : list Z),
       extract_trac_version html = Ret l → l = [] ∨ length l = 3)
  ∧ extract_trac_version (py "Powered by Trac 1.2.3") = Ret [1; 2; 3]%Z
  ∧ extract_trac_version (py "no version here") = Ret [].
Proof.
  split; [|split; [|split; [|split; [|split; [|split]]]]].
  - apply extract_trac_version_first.
  - intros pre d1 d2 d3 post Hn L1 L2 L3 Hp Hpre.
    rewrite extract_trac_version_found, first_here_skip by done.
    rewrite (first_here_head _ _ _ (version_here_stops _ _ _ _ Hn Hp)).
    by apply (version_ints (d1, d2, d3)).
  - intros html. by rewrite extract_trac_version_empty, <- first_version_None.
  - intros html Hlim. rewrite extract_trac_version_first by done.
    destruct (first_here version_here html) as [[[d1 d2] d3]|]; eexists; split; eauto.
  - intros html l Hl. apply extract_trac_version_Ret in Hl.
    destruct (first_here version_here html) as [[[d1 d2] d3]|]; subst l; eauto.
  - vm_compute. reflexivity.
  - vm_compute. reflexivity.
Qed.

Lemma extract_trac_version_first_occurrence_witness :
  extract_trac_version (py "<p>" ++ trac_name ++ py "0" ++ "."%char :: py "12" ++ "."%char :: py "7" ++ py "dev")
  = Ret [0; 12; 7]%Z.
Proof.
  apply (proj1 (proj2 extract_trac_version_first_occurrence)
           (py "<p>") (py "0") (py "12") (py "7") (py "dev")).
  - repeat split; discriminate.
  - apply Nat.leb_le. vm_compute. reflexivity.
  - apply Nat.leb_le. vm_compute. reflexivity.
  - apply Nat.leb_le. vm_compute. reflexivity.
  - reflexivity.
  - intros i Hi. do 3 (destruct i as [|i]; [reflexivity|]). simpl in Hi. lia.
Defined.

End Claims4.

(** ** The pattern of the properties *)

Module PropertiesFacts.
Import Spec Aux.
Import Re StrFacts ReFacts ReFacts2 ScanFacts ScanFacts2 Text ExtractFacts FindallFacts.

Lemma compile_re_prop :
  compile re_prop = Ret (Pattern (lits prop_name (capture_plus 1 true [SLiteral ";"])) 1).
Proof. by vm_compute. Qed.

Lemma extract_properties_first (html : str) :
  extract_properties html
  = match first_here (field_here prop_name ";") html with
    | Some token => Json.loads token
    | None => Ret (Json.JObject ∅)
    end.
Proof.
  unfold extract_properties, findall. rewrite compile_re_prop.
  cbn [mbind outcome_bind rx groups].
  destruct (findall_first true "v" _ _ html (match_at_field true prop_name ";"))
    as (l & Hl & H).
  change (Concat (Literal "v") _)
    with (lits prop_name (capture_plus 1 true [SLiteral ";"])) in Hl.
  rewrite Hl.
  destruct (map _ l) as [|item items],
           (first_here _ html) as [v|]; simpl in H; try done.
  by injection H as ->.
Qed.

(** A document that starts with a brace decodes to an object. *)
Lemma loads_object (text : str) (j : Json.json) :
  Json.loads text = Ret j →
  is_prefix ["{"] (Json.skip_ws text) = true →
  ∃ m, j = Json.JObject m.
Proof.
  unfold Json.loads. replace (2 * length text + 2) with (S (2 * length text + 1)) by lia.
  destruct (Json.skip_ws text) as [|c tl]; [done|].
  intros H Hp. change (Ascii.eqb "{" c && true = true) in Hp.
  rewrite andb_true_r in Hp. apply Ascii.eqb_eq in Hp as <-.
  revert H. cbn [Json.scan_once]. cbn [Ascii.eqb Bool.eqb dquote andb].
  destruct (Json.skip_ws tl) as [|q rest]; [done|].
  assert (Hfin : ∀ (o : outcome (Json.json * str)),
            (∀ v r, o = Ret (v, r) → ∃ m, v = Json.JObject m) →
            (o ≫= (λ '(obj, rest0), match Json.skip_ws rest0 with
                                     | [] => Ret obj
                                     | _ :: _ => Raise ValueError
                                     end)) = Ret j → ∃ m, j = Json.JObject m).
  { intros [[v r]|e|] Ho; simpl; try done.
    destruct (Json.skip_ws r); [|done]. intros [= <-]. by eapply Ho. }
  destruct (Ascii.eqb_spec q "}") as [->|Hq].
  - apply Hfin. intros v r [= <- <-]. eauto.
  - replace (match q with
             | "}"%char => _
             | _ => if Ascii.eqb q dquote then _ else _
             end) with
      (if Ascii.eqb q dquote
       then Json.scan_members (2 * length text + 1) ∅ rest
            ≫= (λ '(m, rest'), Ret (Json.JObject m, rest'))
       else Raise ValueError : outcome (Json.json * str)).
    + apply Hfin. intros v r. destruct (Ascii.eqb q dquote); [|done].
      destruct (Json.scan_members _ _ _) as [[m r']|e|]; simpl; try done.
      intros [= <- <-]. eauto.
    + destruct q as [[] [] [] [] [] [] [] []]; try reflexivity. by destruct Hq.
Qed.

End PropertiesFacts.

(** ** [extract_properties] *)

Module Claims5.
Import Spec Aux.
Import Re StrFacts ReFacts ReFacts2 ScanFacts ScanFacts2 Text ExtractFacts FindallFacts.
Import PropertiesFacts.

(** C8, as the code has it.  [extract_properties] decodes, with
    [json.loads], the text captured from the first assignment
    [var properties=...]: the characters after the equals sign up to the
    next semicolon or the end of the text, at least one.  When the JSON
    text of the assignment holds no semicolon, that is the whole of it, and
    when it is a JSON object the result is a mapping.  A JSON text with a
    semicolon in it is cut at the semicolon, and what [json.loads] makes of
    the cut text is the result: for the object with the one key [a] of
    value [x;y] that is a [ValueError].  When the text has no such
    assignment the result is the empty mapping and nothing is raised.  In
    particular the assignment of the object with the one key [a] of value 1
    gives that mapping, and the empty text gives the empty mapping.  (The
    texts are within the limits of the interpreter that [json.loads] is
    modelled without: fewer than 200 opening brackets, no run of more than
    4300 digits.) *)
Theorem extract_properties_assignment :
  (∀ html : str,
     shallow html → no_long_numeral html →
     extract_properties html
     = match first_here (field_here prop_name ";") html with
       | Some token => Json.loads token
       | None => Ret (Json.JObject ∅)
       end)
  ∧ (∀ pre token post : str,
       shallow token → no_long_numeral token →
       token ≠ [] → ";"%char ∉ token →
       (∀ i, i < length pre →
          field_here prop_name ";" (drop i (pre ++ prop_name ++ token ++ ";"%char :: post))
          = None) →
       extract_properties (pre ++ prop_name ++ token ++ ";"%char :: post) = Json.loads token)
  ∧ (∀ (pre token post : str) (j : Json.json),
       shallow token → no_long_numeral token →
       token ≠ [] → ";"%char ∉ token →
       (∀ i, i < length pre →
          field_here prop_name ";" (drop i (pre ++ prop_name ++ token ++ ";"%char :: post))
          = None) →
       Json.loads token = Ret j → is_prefix ["{"] (Json.skip_ws token) = true →
       ∃ m, extract_properties (pre ++ prop_name ++ token ++ ";"%char :: post)
            = Ret (Json.JObject m))
  ∧ (∀ (token : str) (j : Json.json),
       Json.loads token = Ret j → is_prefix ["{"] (Json.skip_ws token) = true →
       ∃ m, j = Json.JObject m)
  ∧ (∀ html : str,
       (∀ pre c post, html = pre ++ prop_name ++ c :: post → c = ";"%char) →
       extract_properties html = Ret (Json.JObject ∅))
  ∧ extract_properties (py "var properties={'a':1};")
    = Ret (Json.JObject {[ py "a" := Json.JInt 1 ]})
  ∧ extract_properties [] = Ret (Json.JObject ∅)
  ∧ extract_properties (py "var properties={'a':'x;y'};") = Raise ValueError.
Proof.
  split; [|split; [|split; [|split; [|split; [|split; [|split]]]]]].
  - intros html _ _. apply extract_properties_first.
  - intros pre token post _ _ Hne Hv Hpre.
    by rewrite extract_properties_first, first_field_Some.
  - intros pre token post j _ _ Hne Hv Hpre Hj Hobj.
    rewrite extract_properties_first, first_field_Some, Hj by done.
    destruct (loads_object _ _ Hj Hobj) as [m ->]. eauto.
  - apply loads_object.
  - intros html H. apply first_field_None in H.
    by rewrite extract_properties_first, H.
  - vm_compute. reflexivity.
  - vm_compute. reflexivity.
  - vm_compute. reflexivity.
Qed.

Lemma extract_properties_assignment_witness :
  ∃ m, extract_properties
         (py "<script>" ++ prop_name ++ py "{'a': [1, 2]}" ++ ";"%char :: py "</script>")
       = Ret (Json.JObject m).
Proof.
  apply (proj1 (proj2 (proj2 extract_properties_assignment))
           (py "<script>") (py "{'a': [1, 2]}") (py "</script>")
           (Json.JObject {[ py "a" := Json.JList [Json.JInt 1; Json.JInt 2] ]})).
  - unfold shallow. simpl. lia.
  - apply short_text, Nat.leb_le. vm_compute. reflexivity.
  - discriminate.
  - apply forallb_not_elem. reflexivity.
  - intros i Hi. do 8 (destruct i as [|i]; [reflexivity|]). simpl in Hi. lia.
  - vm_compute. reflexivity.
  - reflexivity.
Defined.

(** C8, as the spec has it, fails: the assignment is there and its JSON
    text is an object, a mapping for [json.loads], but the text
    [extract_properties] decodes stops at the semicolon inside it, and the
    call raises [ValueError]. *)
Lemma extract_properties_cut_at_semicolon :
  Json.loads (py "{'a':'x;y'}") = Ret (Json.JObject {[ py "a" := Json.JString (py "x;y") ]})
  ∧ extract_properties (py "var properties={'a':'x;y'};") = Raise ValueError.
Proof. split; vm_compute; reflexivity. Qed.

End Claims5.

(** ** The pattern of the ticket status *)

Module TicketFacts.
Import Spec Aux.
Import Re StrFacts ReFacts ReFacts2 ScanFacts ScanFacts2 Text ExtractFacts FindallFacts.
Import VersionFacts VersionFacts3.

Lemma compile_re_ticket_status : compile re_ticket_status = Ret (Pattern rx_ticket 1).
Proof. by vm_compute. Qed.

Lemma run_empty ml st (k : kont) : run ml Empty st k = k st.
Proof. reflexivity. Qed.

Lemma space_not_word (c : ascii) : is_blank c = true → is_word c = false.
Proof. ascii_cases c. Qed.

Lemma word_not_space (c : ascii) : is_word c = true → is_blank c = false.
Proof. ascii_cases c. Qed.

Lemma space_then_as ml (r2 : regex) (k : kont) prev' (c : ascii) (tl : str) g :
  is_blank c = true → run ml (lits as_name r2) (MState prev' (c :: tl) g) k = None.
Proof.
  intros Hc. apply run_lits_fail.
  change (Ascii.eqb "a" c && is_prefix (py "s ") tl = false).
  destruct (Ascii.eqb_spec "a" c) as [<-|]; [discriminate|done].
Qed.

Lemma space_then_lt ml (k : kont) prev' (c : ascii) (tl : str) g :
  is_blank c = true → run ml (Concat (Literal "<") Empty) (MState prev' (c :: tl) g) k = None.
Proof.
  intros Hc. rewrite run_literal_then.
  destruct (Ascii.eqb_spec "<" c) as [<-|]; [discriminate|done].
Qed.

Lemma word_then_close ml prev' (c : ascii) (tl : str) g :
  is_word c = true →
  run ml (Concat blanks0 (Concat (Literal "<") Empty)) (MState prev' (c :: tl) g) Some = None.
Proof.
  intros Hc. unfold blanks0.
  rewrite (run_star_then ml false _ is_blank in_set_space)
    by (intros; by apply space_then_lt).
  simpl span. rewrite (word_not_space c Hc). cbn [fst snd]. rewrite run_literal_then.
  destruct (Ascii.eqb_spec "<" c) as [<-|]; [discriminate|done].
Qed.

Lemma match_at_ticket ml prev (s : str) :
  (λ m, group m 1) <$> match_at ml rx_ticket prev s = Some <$> status_here s.
Proof.
  unfold match_at, status_here, rx_ticket. destruct (is_prefix leave_name s) eqn:Hp.
  2: { by rewrite run_lits_fail. }
  apply is_prefix_split in Hp. rewrite Hp at 1. rewrite run_lits.
  set (s0 := drop (length leave_name) s). unfold blanks0 at 1.
  rewrite (run_star_then ml false _ is_blank in_set_space)
    by (intros; by apply space_then_as).
  set (s1 := (span is_blank s0).2). cbv zeta.
  destruct (is_prefix as_name s1) eqn:Hp1.
  2: { by rewrite run_lits_fail. }
  apply is_prefix_split in Hp1. rewrite Hp1 at 1. rewrite run_lits, run_group_then.
  set (s2 := drop (length as_name) s1). cbn [ms_rest ms_prev ms_groups].
  rewrite (run_plus_then ml false _ is_word in_set_word).
  2: { intros prev' c tl Hc. rewrite run_empty. by apply word_then_close. }
  pose proof (span_app is_word s2) as Hw.
  destruct (span is_word s2) as [[|c w] post]; [done|]. simpl in Hw.
  rewrite run_empty. cbn [ms_rest ms_prev ms_groups]. unfold blanks0.
  rewrite (run_star_then ml false _ is_blank in_set_space)
    by (intros; by apply space_then_lt).
  rewrite run_literal_then.
  destruct ((span is_blank post).2) as [|d rest]; [done|].
  destruct (Ascii.eqb_spec "<" d) as [<-|Hne].
  2: { destruct d as [[] [] [] [] [] [] [] []]; try done. }
  simpl. rewrite lookup_insert_eq. do 2 f_equal.
  by apply take_suffix.
Qed.

Lemma extract_status_first (html : str) :
  extract_status_from_ticket_page html
  = match first_here status_here html with
    | Some w => Ret (Some w)
    | None => Raise (FatalError "unable to fetch ticket status")
    end.
Proof.
  unfold extract_status_from_ticket_page, search. rewrite compile_re_ticket_status. simpl.
  pose proof (search_group1 true _ _ (match_at_ticket true) None html) as H.
  destruct (search_from _ _ _ _), (first_here _ _); simpl in H; try done.
  by injection H as ->.
Qed.

Lemma status_here_Some (ws1 w ws2 post : str) :
  forallb is_blank ws1 = true → status_word w → forallb is_blank ws2 = true →
  status_here (leave_name ++ ws1 ++ as_name ++ w ++ ws2 ++ "<"%char :: post) = Some w.
Proof.
  intros H1 [Hne Hw] H2. unfold status_here.
  rewrite is_prefix_app, drop_app_length.
  rewrite (span_spec is_blank ws1) by done. cbn [snd].
  rewrite is_prefix_app, drop_app_length.
  rewrite (span_spec is_word w).
  - destruct w as [|c w]; [done|].
    by rewrite (span_spec is_blank ws2).
  - done.
  - destruct ws2 as [|c ws2]; [done|]. simpl in *.
    apply andb_true_iff in H2 as [Hc _]. by apply space_not_word.
Qed.

Lemma status_here_inv (s w : str) :
  status_here s = Some w →
  ∃ ws1 ws2 post,
    s = leave_name ++ ws1 ++ as_name ++ w ++ ws2 ++ "<"%char :: post
    ∧ forallb is_blank ws1 = true ∧ status_word w ∧ forallb is_blank ws2 = true.
Proof.
  unfold status_here. destruct (is_prefix leave_name s) eqn:Hp; [|done].
  apply is_prefix_split in Hp.
  pose proof (span_app is_blank (drop (length leave_name) s)) as H1.
  pose proof (span_forall is_blank (drop (length leave_name) s)) as F1.
  destruct (span is_blank (drop (length leave_name) s)) as [ws1 s1]. cbn [fst snd] in *.
  destruct (is_prefix as_name s1) eqn:Hp1; [|done].
  apply is_prefix_split in Hp1.
  pose proof (span_app is_word (drop (length as_name) s1)) as H2.
  pose proof (span_forall is_word (drop (length as_name) s1)) as F2.
  destruct (span is_word (drop (length as_name) s1)) as [[|c w'] s2]; [done|].
  cbn [fst snd] in *.
  pose proof (span_app is_blank s2) as H3.
  pose proof (span_forall is_blank s2) as F3.
  destruct (span is_blank s2) as [ws2 s3]. cbn [fst snd] in *.
  destruct s3 as [|d post]; [done|].
  destruct (Ascii.eqb_spec d "<") as [->|Hne].
  2: { destruct d as [[] [] [] [] [] [] [] []]; try done. }
  intros [= <-]. exists ws1, ws2, post. repeat split; try done.
  rewrite Hp at 1. rewrite <- H1. rewrite Hp1 at 1. by rewrite <- H2, <- H3.
Qed.

Lemma first_status_None (s : str) :
  first_here status_here s = None ↔
  ¬ ∃ pre ws1 w ws2 post,
      s = pre ++ leave_name ++ ws1 ++ as_name ++ w ++ ws2 ++ "<"%char :: post
      ∧ forallb is_blank ws1 = true ∧ status_word w ∧ forallb is_blank ws2 = true.
Proof.
  rewrite first_here_None. split.
  - intros H (pre & ws1 & w & ws2 & post & Hs & H1 & Hw & H2).
    assert (Hi : length pre ≤ length s) by (rewrite Hs, length_app; lia).
    specialize (H _ Hi). rewrite Hs, drop_app_length in H.
    by rewrite status_here_Some in H.
  - intros H i Hi. destruct (status_here (drop i s)) as [w|] eqn:E; [|done].
    destruct H. apply status_here_inv in E as (ws1 & ws2 & post & E & H1 & Hw & H2).
    exists (take i s), ws1, w, ws2, post. split; [|done].
    by rewrite <- E, take_drop.
Qed.

End TicketFacts.

(** ** [extract_status_from_ticket_page] *)

Module Claims6.
Import Spec Aux.
Import Re StrFacts ReFacts ReFacts2 ScanFacts ScanFacts2 Text ExtractFacts FindallFacts.
Import TicketFacts.

(** C7.  On an ASCII page [extract_status_from_ticket_page] returns the
    word of the first place of the text that reads [leave</label>], blanks,
    [as ], a word, blanks, [<]: the phrase that reads leave ... as, and the
    word after it.  It raises the fatal error exactly when the text has no
    such place.  The blanks are the ones of [\s]: the space and the
    characters 9 to 13 and 28 to 31; the word is made of letters, digits
    and underscores.  (Above 127 the interpreter knows more blanks and
    letters, hence the hypothesis.) *)
Theorem extract_status_leave_as :
  (∀ html : str,
     Forall (fun c => code c < 128) html →
     extract_status_from_ticket_page html
     = match first_here status_here html with
       | Some w => Ret (Some w)
       | None => Raise (FatalError "unable to fetch ticket status")
       end)
  ∧ (∀ pre ws1 w ws2 post : str,
       Forall (fun c => code c < 128)
         (pre ++ leave_name ++ ws1 ++ as_name ++ w ++ ws2 ++ "<"%char :: post) →
       forallb is_blank ws1 = true → status_word w → forallb is_blank ws2 = true →
       (∀ i, i < length pre →
          status_here
            (drop i (pre ++ leave_name ++ ws1 ++ as_name ++ w ++ ws2 ++ "<"%char :: post))
          = None) →
       extract_status_from_ticket_page
         (pre ++ leave_name ++ ws1 ++ as_name ++ w ++ ws2 ++ "<"%char :: post)
       = Ret (Some w))
  ∧ (∀ html : str,
       Forall (fun c => code c < 128) html →
       (extract_status_from_ticket_page html
        = Raise (FatalError "unable to fetch ticket status")
        ↔ ¬ ∃ pre ws1 w ws2 post,
              html = pre ++ leave_name ++ ws1 ++ as_name ++ w ++ ws2 ++ "<"%char :: post
              ∧ forallb is_blank ws1 = true ∧ status_word w
              ∧ forallb is_blank ws2 = true))
  ∧ extract_status_from_ticket_page
      (py "<label for='action_leave'>leave</label> as new </div>")
    = Ret (Some (py "new"))
  ∧ extract_status_from_ticket_page (py "<label>leave</label> as </div>")
    = Raise (FatalError "unable to fetch ticket status")
  ∧ extract_status_from_ticket_page
      (leave_name ++ "028"%char :: as_name ++ py "new" ++ ["031"%char; "<"%char])
    = Ret (Some (py "new")).
Proof.
  split; [|split; [|split; [|split; [|split]]]].
  - intros html _. apply extract_status_first.
  - intros pre ws1 w ws2 post _ H1 Hw H2 Hpre.
    rewrite extract_status_first, first_here_skip by done.
    by rewrite (first_here_head _ _ _ (status_here_Some _ _ _ _ H1 Hw H2)).
  - intros html _. rewrite extract_status_first, <- first_status_None.
    by destruct (first_here status_here html).
  - vm_compute. reflexivity.
  - vm_compute. reflexivity.
  - vm_compute. reflexivity.
Qed.

Lemma extract_status_leave_as_witness :
  extract_status_from_ticket_page
    (py "<b>" ++ leave_name ++ [newline; " "%char] ++ as_name ++ py "assigned" ++ [newline]
       ++ "<"%char :: py "/div>")
  = Ret (Some (py "assigned")).
Proof.
  apply (proj1 (proj2 extract_status_leave_as)
           (py "<b>") [newline; " "%char] (py "assigned") [newline] (py "/div>")).
  - apply ascii_check. vm_compute. reflexivity.
  - reflexivity.
  - split; [discriminate|reflexivity].
  - reflexivity.
  - intros i Hi. do 3 (destruct i as [|i]; [reflexivity|]). simpl in Hi. lia.
Defined.

End Claims6.

(** ** The pattern of the radio buttons *)

Module StatusFacts.
Import Spec Aux.
Import Re StrFacts ReFacts ReFacts2 ScanFacts ScanFacts2 Text ExtractFacts FindallFacts.
Import TicketFacts.

Lemma compile_re_statuses : compile re_statuses = Ret (Pattern rx_statuses 1).
Proof. by vm_compute. Qed.

Lemma run_value ml (name : str) (stop : ascii) prev (s : str) g :
  agrees (run ml (lits name (capture_plus 1 true [SLiteral stop])) (MState prev s g) Some)
         (value_here name stop s).
Proof.
  unfold value_here. destruct (is_prefix name s) eqn:Hp.
  - apply is_prefix_split in Hp. rewrite Hp at 1. rewrite run_lits, run_capture_plus.
    rewrite (span_ext _ (not_char stop) _ (in_set_not stop)).
    destruct (span _ (drop (length name) s)) as [[|c v] post]; [done|].
    simpl. by rewrite lookup_insert_eq.
  - by rewrite run_lits_fail.
Qed.

Lemma greedy_set_agrees p prev (s : str) g (k : kont) (here : str → option (str * str)) :
  (∀ prev' t, agrees (k (MState prev' t g)) (here t)) →
  agrees (greedy_set p prev s g k) (last_within p here s).
Proof.
  intros Hk. revert prev. induction s as [|c s IH]; intros prev; simpl; [apply Hk|].
  destruct (p c); [|apply Hk].
  specialize (IH (Some c)).
  destruct (greedy_set p (Some c) s g k), (last_within p here s) as [[v rest]|];
    first [done | apply Hk].
Qed.

Lemma run_radio ml prev (s : str) :
  agrees (run ml rx_statuses (MState prev s ∅) Some) (radio_here s).
Proof.
  unfold radio_here, rx_statuses. destruct (is_prefix radio_name s) eqn:Hp.
  2: { by rewrite run_lits_fail. }
  apply is_prefix_split in Hp. rewrite Hp at 1. rewrite run_lits.
  set (s0 := drop (length radio_name) s). cbn [run ms_rest].
  rewrite (repeat_plus_set _ (not_char "<")); [|intros st k|lia].
  2: { simpl. unfold step_char. destruct (ms_rest st); [done|]. by rewrite in_set_not. }
  destruct s0 as [|c tl]; [done|]. destruct (not_char "<" c); [|done].
  apply greedy_set_agrees. intros prev' t. apply run_value.
Qed.

(** The end of a match lies strictly after its start. *)
Lemma value_here_shorter (name : str) (stop : ascii) (s v rest : str) :
  value_here name stop s = Some (v, rest) → length rest < length s.
Proof.
  unfold value_here. destruct (is_prefix name s) eqn:Hp; [|done].
  apply is_prefix_split in Hp.
  pose proof (span_app (not_char stop) (drop (length name) s)) as Happ.
  destruct (span _ _) as [[|c w] post]; [done|]. intros [= <- <-].
  rewrite Hp, <- Happ, !length_app. simpl. lia.
Qed.

Lemma last_within_shorter p (s v rest : str) (name : str) (stop : ascii) :
  last_within p (value_here name stop) s = Some (v, rest) → length rest < length s.
Proof.
  induction s as [|c s IH]; simpl.
  - intros H. by apply value_here_shorter in H.
  - destruct (p c).
    + destruct (last_within p _ s) as [[v' rest']|] eqn:E.
      * intros [= -> ->]. specialize (IH eq_refl). lia.
      * intros H. by apply value_here_shorter in H.
    + intros H. by apply value_here_shorter in H.
Qed.

Lemma radio_here_shorter (s v rest : str) :
  radio_here s = Some (v, rest) → length rest < length s.
Proof.
  unfold radio_here. destruct (is_prefix radio_name s) eqn:Hp; [|done].
  apply is_prefix_split in Hp.
  destruct (drop (length radio_name) s) as [|c tl] eqn:Hd; [done|].
  destruct (not_char "<" c); [|done].
  intros H. apply last_within_shorter in H.
  rewrite Hp, length_app. simpl. lia.
Qed.

Lemma first_here_shorter (s v rest : str) :
  first_here radio_here s = Some (v, rest) → length rest < length s.
Proof.
  intros H. apply first_here_Some in H as (i & Hi & H).
  apply radio_here_shorter in H. rewrite length_drop in H.
  destruct s; simpl in *; lia.
Qed.

(** Searching for the pattern finds the first radio button. *)
Lemma search_radio ml prev (s : str) :
  match search_from ml rx_statuses prev s, first_here radio_here s with
  | Some m, Some (v, rest) =>
      ms_rest (mo_end m) = rest ∧ group m 1 = Some v
      ∧ length rest < length (mo_start m)
  | None, None => True
  | _, _ => False
  end.
Proof.
  revert prev. induction s as [|c s IH]; intros prev; simpl.
  - pose proof (run_radio ml prev []) as H. unfold match_at.
    destruct (run ml rx_statuses _ Some), (radio_here []) as [[v rest]|] eqn:E; done.
  - pose proof (run_radio ml prev (c :: s)) as H. unfold match_at.
    destruct (run ml rx_statuses _ Some), (radio_here (c :: s)) as [[v rest]|] eqn:E;
      try done; [|apply IH].
    simpl. destruct H as [H1 H2]. repeat split; try done.
    by apply radio_here_shorter in E.
Qed.

Lemma findall_radio ml fuel prev (s : str) :
  length s < fuel →
  ∃ ms l, findall_from fuel ml rx_statuses prev s = Some ms
          ∧ map (findall_item 1) ms = map FText l
          ∧ all_here radio_here s l.
Proof.
  revert prev s. induction fuel as [|fuel IH]; intros prev s Hfuel; [lia|].
  rewrite findall_from_S. pose proof (search_radio ml prev s) as H.
  destruct (search_from ml rx_statuses prev s) as [m|],
           (first_here radio_here s) as [[v rest]|] eqn:E; try done.
  - destruct H as (H1 & H2 & H3).
    rewrite (proj2 (Nat.ltb_lt _ _)) by (by rewrite H1).
    pose proof (first_here_shorter _ _ _ E) as Hlt.
    destruct (IH (ms_prev (mo_end m)) rest) as (ms & l & Hms & Hl & Hall); [lia|].
    rewrite H1, Hms. exists (m :: ms), (v :: l). split; [done|]. split.
    + simpl. rewrite Hl. unfold group_text.
      change (group m 1) with (ms_groups (mo_end m) !! 1) in H2.
      unfold group. by rewrite H2.
    + by eapply all_here_cons.
  - exists [], []. split; [done|]. split; [done|]. by apply all_here_nil.
Qed.

Lemma all_here_functional here (s : str) (l l' : list str) :
  all_here here s l → all_here here s l' → l = l'.
Proof.
  intros H. revert l'. induction H as [s Hs|s v rest l Hs Hl IH]; intros l' H'.
  - inversion H' as [|? ? ? ? Hs']; [done|]. congruence.
  - inversion H' as [? Hs'|? v' rest' l'' Hs' Hl']; [congruence|].
    subst. rewrite Hs in Hs'. injection Hs' as <- <-. f_equal. by apply IH.
Qed.

Lemma extract_statuses_all (html : str) :
  ∃ l, extract_statuses html = Ret (map FText l) ∧ all_here radio_here html l.
Proof.
  unfold extract_statuses, findall. rewrite compile_re_statuses.
  cbn [mbind outcome_bind rx groups].
  destruct (findall_radio false (S (length html)) None html) as (ms & l & -> & Hl & Hall);
    [lia|].
  exists l. by rewrite Hl.
Qed.

(** Without the opening of a radio button there is nothing to find. *)
Lemma first_radio_None (s : str) :
  (∀ i, i ≤ length s → is_prefix radio_name (drop i s) = false) →
  first_here radio_here s = None.
Proof.
  intros H. apply first_here_None. intros i Hi. unfold radio_here. by rewrite H.
Qed.

End StatusFacts.

(** ** The word pattern of [fuzzy_find] *)

Module WordFacts.
Import Spec Aux.
Import Re StrFacts ReFacts ReFacts2 ScanFacts ScanFacts2 Text ExtractFacts FindallFacts.
Import TicketFacts StatusFacts.

Lemma parse_items_word_char fuel acc (c : ascii) (tl : str) g :
  is_word c = true →
  parse_items (S fuel) acc (c :: tl) g = parse_items fuel (Literal c :: acc) tl g.
Proof. destruct c as [[] [] [] [] [] [] [] []]; try discriminate; reflexivity. Qed.

Lemma parse_items_word (v : str) fuel acc (rest : str) g :
  forallb is_word v = true →
  parse_items (length v + fuel) acc (v ++ rest) g
  = parse_items fuel (rev (map Literal v) ++ acc) rest g.
Proof.
  revert acc. induction v as [|c v IH]; intros acc Hv; [done|].
  simpl in Hv. apply andb_true_iff in Hv as [Hc Hv].
  simpl length. simpl app. simpl plus. rewrite parse_items_word_char by done.
  rewrite IH by done. simpl. by rewrite <- app_assoc.
Qed.

Lemma seq_of_lits (v : str) (r : regex) (tail : list regex) :
  foldl (fun r item => Concat item r) r (rev (map Literal v) ++ tail)
  = foldl (fun r item => Concat item r) (lits v r) tail.
Proof.
  rewrite foldl_app. f_equal. revert r.
  induction v as [|c v IH] using rev_ind; intros r; [done|].
  rewrite map_app, rev_app_distr. simpl. rewrite IH.
  clear IH. revert r. induction v as [|d v IH]; intros r; [done|].
  simpl. by rewrite IH.
Qed.

Lemma compile_word_pattern (v : str) :
  forallb is_word v = true →
  compile (word_pattern v) = Ret (Pattern (word_rx v) 0).
Proof.
  intros Hv. unfold compile, word_pattern.
  replace (2 * length (py ".*\b" ++ v ++ py "\b.*") + 2)
    with (S (S (S (S (length v + (S (S (S (S (length v + 10))))))))))
    by (rewrite !length_app; simpl; lia).
  change (py ".*\b" ++ v ++ py "\b.*")
    with ("."%char :: "*"%char :: backslash :: "b"%char :: (v ++ py "\b.*")).
  cbn [parse_alt]. 
  change (parse_items (S (S (S (length v + S (S (S (S (length v + 10)))))))) []
            ("."%char :: "*"%char :: backslash :: "b"%char :: (v ++ py "\b.*")) 1)
    with (parse_items (length v + S (S (S (S (length v + 10)))))
            [Assert AtBoundary; any_star] (v ++ py "\b.*") 1).
  rewrite parse_items_word by done.
  change (parse_items (S (S (S (S (length v + 10)))))
            (rev (map Literal v) ++ [Assert AtBoundary; any_star]) (py "\b.*") 1)
    with (Ret (any_star :: Assert AtBoundary
                 :: (rev (map Literal v) ++ [Assert AtBoundary; any_star]),
               ([] : str), 1) : outcome (list regex * str * nat)).
  cbn [mbind outcome_bind]. unfold seq_of. cbn [foldl]. rewrite seq_of_lits. done.
Qed.

End WordFacts.

Module WordFacts2.
Import Spec Aux.
Import Re StrFacts ReFacts ReFacts2 ScanFacts ScanFacts2 Text ExtractFacts FindallFacts.
Import TicketFacts StatusFacts WordFacts.







End WordFacts2.

Module WordFacts3.
Import Spec Aux.
Import Re StrFacts ReFacts Text TextFacts TextFacts2 WordFacts WordFacts2.


End WordFacts3.

(** ** [fuzzy_find]: the word match *)

Module Claims8.
Import Spec Aux.
Import Re StrFacts ReFacts Text TextFacts TextFacts2 WordFacts WordFacts2 WordFacts3.




End Claims8.

(** ** Pages of radio buttons *)

Module PageFacts.
Import Spec Aux.
Import Re StrFacts ReFacts ReFacts2 ScanFacts ScanFacts2 Text ExtractFacts FindallFacts.
Import StatusFacts.

Lemma is_prefix_occurs (w s : str) (j : nat) :
  is_prefix w (drop j s) = true → occurs w s.
Proof.
  intros H. apply is_prefix_split in H.
  exists (take j s), (drop (length w) (drop j s)). by rewrite <- H, take_drop.
Qed.

(** A prefix of [x ++ y] lies within [x], or covers [x] and goes on
    into [y]. *)
Lemma is_prefix_app_inv (w x y : str) :
  is_prefix w (x ++ y) = true →
  is_prefix w x = true
  ∨ ∃ w2, w = x ++ w2 ∧ w2 ≠ [] ∧ is_prefix w2 y = true.
Proof.
  revert w. induction x as [|c x IH]; intros w H.
  - destruct w as [|d w]; [by left|]. right. exists (d :: w). by repeat split.
  - destruct w as [|d w]; [by left|]. simpl in H.
    apply andb_true_iff in H as [Hc H]. apply Ascii.eqb_eq in Hc as ->.
    destruct (IH w H) as [Hp|(w2 & -> & Hne & Hp)].
    + left. simpl. by rewrite Ascii.eqb_refl.
    + right. by exists w2.
Qed.

Lemma is_prefix_head (w y : str) (c : ascii) :
  w ≠ [] → is_prefix w y = true → head y = Some c → head w = Some c.
Proof.
  destruct w as [|d w]; [done|]. destruct y as [|e y]; [done|]. simpl.
  intros _ H [= ->]. apply andb_true_iff in H as [H _]. by apply Ascii.eqb_eq in H as ->.
Qed.

Lemma page_opens (bs : list (str * str * str)) : opens (page bs).
Proof. destruct bs as [|[[a v] junk] bs]; [by left|by right]. Qed.

Lemma action_name_no_lt (w1 w2 : str) :
  action_name = w1 ++ w2 → head w2 ≠ Some "<"%char.
Proof.
  intros H Hh. assert (Hin : "<"%char ∈ action_name).
  { rewrite H. apply elem_of_app. right. destruct w2 as [|c w2]; [done|].
    injection Hh as ->. left. }
  revert Hin. clear. unfold action_name. intros Hin.
  repeat (apply elem_of_cons in Hin as [Hin|Hin]; [discriminate|]).
  by apply not_elem_of_nil in Hin.
Qed.

Lemma radio_name_lt_once (w1 w2 : str) :
  radio_name = w1 ++ w2 → w1 ≠ [] → head w2 ≠ Some "<"%char.
Proof.
  intros H Hne Hh. destruct w1 as [|c w1]; [done|].
  assert (Hin : "<"%char ∈ w1 ++ w2).
  { apply elem_of_app. right. destruct w2 as [|d w2]; [done|]. injection Hh as ->. left. }
  assert (Htl : w1 ++ w2 = tail radio_name) by (by rewrite H).
  rewrite Htl in Hin. revert Hin. clear. intros Hin. simpl in Hin.
  repeat (apply elem_of_cons in Hin as [Hin|Hin]; [discriminate|]).
  by apply not_elem_of_nil in Hin.
Qed.

(** The name attribute does not start anywhere in a text in which it does
    not occur, whatever button or end of text follows. *)
Lemma no_action (u p : str) (j : nat) :
  ¬ occurs action_name u → opens p → j ≤ length u →
  is_prefix action_name (drop j (u ++ p)) = false.
Proof.
  intros Hno Hp Hj. destruct (is_prefix _ _) eqn:E; [|done]. exfalso.
  rewrite drop_app_le in E by done.
  apply is_prefix_app_inv in E as [E|(w2 & Hw & Hne & E)].
  - apply Hno. by eapply is_prefix_occurs.
  - destruct Hp as [->|Hp]; [by destruct w2|].
    eapply action_name_no_lt; [exact Hw|]. by eapply is_prefix_head.
Qed.

Lemma no_radio (u : str) (bs : list (str * str * str)) (i : nat) :
  ¬ occurs radio_name u → i ≤ length u → (i < length u ∨ bs = []) →
  is_prefix radio_name (drop i (u ++ page bs)) = false.
Proof.
  intros Hno Hi Hlt. destruct (is_prefix _ _) eqn:E; [|done]. exfalso.
  rewrite drop_app_le in E by done.
  apply is_prefix_app_inv in E as [E|(w2 & Hw & Hne & E)].
  - apply Hno. by eapply is_prefix_occurs.
  - destruct Hlt as [Hlt| ->]; [|by destruct w2].
    destruct (page_opens bs) as [Hp|Hp]; [rewrite Hp in E; by destruct w2|].
    eapply (radio_name_lt_once (drop i u) w2); [done| |by eapply is_prefix_head].
    intros Hnil. apply (f_equal length) in Hnil. rewrite length_drop in Hnil.
    simpl in Hnil. lia.
Qed.

Lemma last_within_here {A} p (here : str → option A) (s : str) :
  (∀ j, 0 < j → j ≤ length (span p s).1 → here (drop j s) = None) →
  last_within p here s = here s.
Proof.
  induction s as [|c s IH]; intros H; simpl; [done|].
  destruct (p c) eqn:Hc; [|done].
  rewrite IH.
  - specialize (H 1). simpl in H. rewrite Hc in H.
    destruct (span p s) as [a b]. simpl in H. rewrite drop_0 in H. by rewrite H by lia.
  - intros j Hj Hle. specialize (H (S j)). simpl in H. rewrite Hc in H.
    destruct (span p s) as [a b]. simpl in *. apply H; lia.
Qed.

Lemma last_within_skip {A} p (here : str → option A) (pre s : str) :
  forallb p pre = true → is_Some (last_within p here s) →
  last_within p here (pre ++ s) = last_within p here s.
Proof.
  intros Hpre [x Hx]. induction pre as [|c pre IH]; simpl; [done|].
  simpl in Hpre. apply andb_true_iff in Hpre as [-> Hpre].
  by rewrite IH, Hx.
Qed.

Lemma span_length_le p (x rest : str) :
  (rest = [] ∨ ∃ c tl, rest = c :: tl ∧ p c = false) →
  length (span p (x ++ rest)).1 ≤ length (x ++ rest) ∧
  (rest ≠ [] → length (span p (x ++ rest)).1 ≤ length x).
Proof.
  intros Hrest. induction x as [|c x IH]; simpl.
  - destruct Hrest as [->|(c & tl & -> & Hc)]; simpl; [split; [lia|done]|].
    rewrite Hc. simpl. split; lia.
  - destruct (p c); [|simpl; split; lia].
    destruct (span p (x ++ rest)) as [a b]. simpl in *. destruct IH as [IH1 IH2].
    split; [lia|]. intros Hne. specialize (IH2 Hne). lia.
Qed.

Lemma value_here_Some (name : str) (stop : ascii) (v post : str) :
  v ≠ [] → (stop ∉ v) →
  value_here name stop (name ++ v ++ stop :: post) = Some (v, stop :: post).
Proof.
  intros Hne Hv. unfold value_here. rewrite is_prefix_app, drop_app_length.
  rewrite (span_spec (not_char stop) v).
  - by destruct v.
  - by apply not_elem_forallb.
  - simpl. unfold not_char. by rewrite Ascii.eqb_refl.
Qed.

Lemma action_name_overlap (j : nat) (x : str) :
  0 < j → j < length action_name →
  is_prefix action_name (drop j (action_name ++ x)) = false.
Proof.
  intros H0 Hj. destruct j as [|j]; [lia|].
  do 21 (destruct j as [|j]; [reflexivity|]). simpl in Hj. lia.
Qed.

(** A plain button at the head of the text is found, with its value. *)
Lemma radio_here_button (attrs v junk : str) (bs : list (str * str * str)) :
  plain_button (attrs, v, junk) →
  radio_here (radio_button attrs v ++ junk ++ page bs)
  = Some (v, dquote :: junk ++ page bs).
Proof.
  intros (Ha & Hlt & Hv & Hq & Hact & _). unfold radio_here, radio_button.
  rewrite <- !app_assoc. rewrite is_prefix_app, drop_app_length.
  destruct attrs as [|c attrs]; [done|].
  apply not_elem_of_cons in Hlt as [Hc Hlt]. rewrite <- app_comm_cons. cbv beta iota.
  assert (Hpc : not_char "<" c = true).
  { unfold not_char. destruct (Ascii.eqb_spec c "<"); [congruence|done]. }
  rewrite Hpc.
  set (rest := junk ++ page bs).
  assert (Hhere : value_here action_name dquote (action_name ++ v ++ [dquote] ++ rest)
                  = Some (v, dquote :: rest)) by (by apply value_here_Some).
  assert (Hlast : last_within (not_char "<") (value_here action_name dquote)
                    (action_name ++ v ++ [dquote] ++ rest) = Some (v, dquote :: rest)).
  { rewrite last_within_here; [done|]. intros j Hj Hle. unfold value_here.
    destruct (decide (j < length action_name)) as [Hin|Hout].
    - by rewrite action_name_overlap.
    - replace j with (length action_name + (j - length action_name)) by lia.
      rewrite <- drop_drop, drop_app_length.
      unfold rest. rewrite !app_assoc.
      rewrite <- (app_assoc v). simpl app.
      rewrite no_action; [done|done|apply page_opens|].
      destruct (page_opens bs) as [Hp|Hp].
      + assert (Hlen : j ≤ length (action_name ++ v ++ [dquote] ++ rest)).
        { etrans; [exact Hle|].
          pose proof (span_app (not_char "<") (action_name ++ v ++ [dquote] ++ rest)) as Hs.
          apply (f_equal length) in Hs. rewrite length_app in Hs. lia. }
        unfold rest in Hlen. rewrite Hp, app_nil_r in Hlen.
        rewrite !length_app in Hlen. rewrite !length_app. simpl in *. lia.
      + destruct (page bs) as [|d tl] eqn:Hpage; [done|]. injection Hp as ->.
        destruct (span_length_le (not_char "<") (action_name ++ v ++ [dquote] ++ junk)
                    ("<"%char :: tl)) as [_ Hspan]; [right; by eexists _, _|].
        specialize (Hspan ltac:(done)).
        unfold rest in Hle. rewrite <- !app_assoc in Hspan.
        rewrite !length_app in Hspan. rewrite !length_app. simpl in *. lia. }
  rewrite last_within_skip; [done| |by rewrite Hlast].
  by apply not_elem_forallb.
Qed.

Lemma occurs_cons (w s : str) (c d : ascii) :
  head w = Some d → c ≠ d → ¬ occurs w s → ¬ occurs w (c :: s).
Proof.
  intros Hw Hcd Hno (pre & post & Hs). destruct pre as [|e pre].
  - destruct w as [|d' w]; [done|]. simpl in *. injection Hw as ->. by injection Hs.
  - simpl in Hs. injection Hs as -> ->. apply Hno. by exists pre, post.
Qed.

(** The values of a page of plain buttons, found from left to right. *)
Lemma all_here_page (junk0 : str) (bs : list (str * str * str)) :
  ¬ occurs radio_name junk0 → Forall plain_button bs →
  all_here radio_here (junk0 ++ page bs) (map button_value bs).
Proof.
  intros Hj Hbs. revert junk0 Hj. induction Hbs as [|[[a v] junk] bs Hb Hbs IH]; intros junk0 Hj.
  - apply all_here_nil. apply first_radio_None. intros i Hi.
    simpl in Hi. rewrite app_nil_r in Hi.
    apply (no_radio junk0 [] i); [done|done|by right].
  - eapply all_here_cons.
    + rewrite first_here_skip.
      * apply first_here_head. simpl page. by apply radio_here_button.
      * intros i Hi. unfold radio_here.
        by rewrite (no_radio junk0 ((a, v, junk) :: bs) i) by (done || lia || by left).
    + change (dquote :: junk ++ page bs) with ((dquote :: junk) ++ page bs).
      apply IH. destruct Hb as (_ & _ & _ & _ & _ & Hr).
      by apply (occurs_cons radio_name junk dquote "<").
Qed.

(** [occurs] can be checked place by place. *)
Lemma not_occurs_check (w s : str) :
  forallb (fun j => negb (is_prefix w (drop j s))) (seq 0 (S (length s))) = true →
  ¬ occurs w s.
Proof.
  intros H (pre & post & ->). rewrite forallb_forall in H.
  specialize (H (length pre)). rewrite drop_app_length, is_prefix_app in H.
  assert (Hin : In (length pre) (seq 0 (S (length (pre ++ w ++ post))))).
  { apply in_seq. rewrite length_app. lia. }
  by specialize (H Hin).
Qed.

Lemma value_here_inv (name : str) (stop : ascii) (s v post : str) :
  value_here name stop s = Some (v, post) →
  s = name ++ v ++ post ∧ v ≠ [] ∧ (stop ∉ v) ∧ stops (not_char stop) post.
Proof.
  unfold value_here. destruct (is_prefix name s) eqn:Hp; [|done].
  apply is_prefix_split in Hp.
  pose proof (span_app (not_char stop) (drop (length name) s)) as Happ.
  pose proof (span_forall (not_char stop) (drop (length name) s)) as Hall.
  pose proof (span_stops (not_char stop) (drop (length name) s)) as Hst.
  destruct (span _ (drop (length name) s)) as [v' post']. simpl in *.
  destruct v' as [|c v']; [done|]. intros [= <- <-].
  split; [by rewrite Happ|]. split; [done|]. split; [|done].
  by apply forallb_not_elem.
Qed.

Lemma last_within_inv {A} (p : ascii → bool) (here : str → option A) (s : str) (a : A) :
  last_within p here s = Some a →
  ∃ pre s', s = pre ++ s' ∧ forallb p pre = true ∧ here s' = Some a.
Proof.
  induction s as [|c s IH]; simpl.
  - intros H. by exists [], [].
  - destruct (p c) eqn:Hc; [|intros H; by exists [], (c :: s)].
    destruct (last_within p here s) as [b|] eqn:Hl.
    + intros [= ->]. destruct (IH eq_refl) as (pre & s' & -> & Hpre & Hs').
      exists (c :: pre), s'. simpl. by rewrite Hc.
    + intros H. by exists [], (c :: s).
Qed.

(** A text without [<] holds no opening of a radio button. *)
Lemma no_lt_no_radio (u : str) : "<"%char ∉ u → ¬ occurs radio_name u.
Proof.
  intros Hu (pre & post & ->). apply Hu.
  change radio_name with ("<"%char :: py "input type='radio' ").
  apply elem_of_app. right. left.
Qed.

(** A radio button with nothing between its type and its name is not
    found: the pattern asks for one character at least before the blank
    that opens the name. *)
Lemma first_radio_bare (rest : str) :
  "<"%char ∉ rest → ¬ occurs action_name rest →
  first_here radio_here (radio_name ++ rest) = None.
Proof.
  intros Hlt Hact. apply first_here_None. intros i Hi. destruct i as [|i].
  - unfold radio_here. rewrite drop_0, is_prefix_app, drop_app_length.
    destruct rest as [|c tl]; [done|].
    destruct (not_char "<" c); [|done].
    destruct (last_within _ _ tl) as [[v post]|] eqn:Hl; [|done].
    apply last_within_inv in Hl as (pre & s' & -> & _ & Hv).
    apply value_here_inv in Hv as (-> & _).
    destruct Hact. by exists (c :: pre), (v ++ post).
  - unfold radio_here.
    change radio_name with ("<"%char :: py "input type='radio' ") at 2.
    cbn [app drop].
    set (u := py "input type='radio' " ++ rest).
    assert (Hu : ¬ occurs radio_name u).
    { apply no_lt_no_radio. unfold u. intros [H|H]%elem_of_app; [|done].
      revert H. apply forallb_not_elem. reflexivity. }
    assert (Hi' : i ≤ length u).
    { unfold u. rewrite length_app in *.
      change (length radio_name) with (S (length (py "input type='radio' "))) in Hi.
      lia. }
    pose proof (no_radio u [] i Hu Hi' (or_intror eq_refl)) as H.
    cbn [page] in H. rewrite app_nil_r in H. by rewrite H.
Qed.

Lemma extract_statuses_page (junk0 : str) (bs : list (str * str * str)) :
  ¬ occurs radio_name junk0 → Forall plain_button bs →
  extract_statuses (junk0 ++ page bs) = Ret (map (fun b => FText (button_value b)) bs).
Proof.
  intros Hj Hbs. destruct (extract_statuses_all (junk0 ++ page bs)) as (l & -> & Hl).
  rewrite (all_here_functional _ _ _ _ Hl (all_here_page _ _ Hj Hbs)).
  by rewrite map_map.
Qed.

End PageFacts.

(** ** [extract_statuses] *)

Module Claims7.
Import Spec Aux.
Import Re StrFacts ReFacts ReFacts2 ScanFacts ScanFacts2 Text ExtractFacts FindallFacts.
Import StatusFacts PageFacts.

(** C6, as the code has it.  [extract_statuses] never fails.  It returns
    the values of the radio buttons named [action] that are written as the
    pattern has them: the opening of an [input] of type [radio], one or more
    characters other than [<], a blank and the name [action], and a value
    that is not empty; in the order of the text: the value of the first one,
    then those found in the same way in what follows that value.  For a
    page made of such buttons, each with attributes between the type and
    the name, and of text between them that repeats neither the name
    attribute nor the opening of a radio button, these are the values of
    all the buttons, first button first.  A radio button named [action]
    with nothing between its type and its name is not found.  With no radio
    button the result is the empty sequence, in particular for the empty
    text. *)
Theorem extract_statuses_in_order :
  (∀ html : str,
     ∃ l, extract_statuses html = Ret (map FText l) ∧ all_here radio_here html l)
  ∧ (∀ (html : str) (l : list str),
       all_here radio_here html l → extract_statuses html = Ret (map FText l))
  ∧ (∀ (junk0 : str) (buttons : list (str * str * str)),
       ¬ occurs radio_name junk0 → Forall plain_button buttons →
       extract_statuses (junk0 ++ page buttons)
       = Ret (map (fun b => FText (button_value b)) buttons))
  ∧ (∀ html : str,
       (∀ i, i ≤ length html → is_prefix radio_name (drop i html) = false) →
       extract_statuses html = Ret [])
  ∧ (∀ rest : str,
       "<"%char ∉ rest → ¬ occurs action_name rest →
       extract_statuses (radio_name ++ rest) = Ret [])
  ∧ extract_statuses [] = Ret []
  ∧ extract_statuses
      (py "<input type='radio' id='action_leave' name='action' value='leave' checked='checked' /> <input type='radio' id='action_resolve' name='action' value='resolve' />")
    = Ret [FText (py "leave"); FText (py "resolve")].
Proof.
  split; [|split; [|split; [|split; [|split; [|split]]]]].
  - apply extract_statuses_all.
  - intros html l Hl. destruct (extract_statuses_all html) as (l' & -> & Hl').
    by rewrite (all_here_functional _ _ _ _ Hl Hl').
  - apply extract_statuses_page.
  - intros html H. destruct (extract_statuses_all html) as (l & -> & Hl).
    inversion Hl as [|? ? ? ? Hs]; [done|].
    by rewrite (first_radio_None _ H) in Hs.
  - intros rest Hlt Hact.
    destruct (extract_statuses_all (radio_name ++ rest)) as (l & -> & Hl).
    inversion Hl as [|? ? ? ? Hs]; [done|].
    by rewrite (first_radio_bare _ Hlt Hact) in Hs.
  - vm_compute. reflexivity.
  - vm_compute. reflexivity.
Qed.

Lemma extract_statuses_in_order_witness :
  extract_statuses
    (py "<form> "
       ++ page [(py "id='a'", py "leave", py " checked='checked' /> ");
                (py "id='b'", py "resolve", py " /> </form>")])
  = Ret [FText (py "leave"); FText (py "resolve")].
Proof.
  apply (proj1 (proj2 (proj2 extract_statuses_in_order)) (py "<form> ")
           [(py "id='a'", py "leave", py " checked='checked' /> ");
            (py "id='b'", py "resolve", py " /> </form>")]).
  - apply not_occurs_check. vm_compute. reflexivity.
  - apply Forall_cons. split.
    + split; [discriminate|]. split; [by apply forallb_not_elem|].
      split; [discriminate|]. split; [by apply forallb_not_elem|].
      split; apply not_occurs_check; vm_compute; reflexivity.
    + apply Forall_cons. split; [|by apply Forall_nil].
      split; [discriminate|]. split; [by apply forallb_not_elem|].
      split; [discriminate|]. split; [by apply forallb_not_elem|].
      split; apply not_occurs_check; vm_compute; reflexivity.
Defined.

(** C6, as the spec has it, fails: a radio button named [action] whose name
    follows its type at once is a radio-button input named [action], and
    [extract_statuses] does not return its value. *)
Lemma extract_statuses_misses_bare_button :
  extract_statuses (py "<input type='radio' name='action' value='x'>") = Ret []
  ∧ extract_statuses (py "<input type='radio' name='action' value='x'>")
    ≠ Ret [FText (py "x")].
Proof.
  assert (H : extract_statuses (py "<input type='radio' name='action' value='x'>") = Ret [])
    by (vm_compute; reflexivity).
  split; [exact H|]. rewrite H. discriminate.
Qed.

End Claims7.

(** ** What a call may raise *)

Module RaiseFacts.
Import Spec Aux.
Import Re Text.

Lemma raises_only_ret {A} (e0 : exn) (a : A) : raises_only e0 (Ret a).
Proof. by intros e. Qed.

Lemma raises_only_mret {A} (e0 : exn) (a : A) : raises_only e0 (mret a).
Proof. by intros e. Qed.

Lemma raises_only_raise {A} (e0 : exn) : raises_only e0 (@Raise A e0).
Proof. by intros e [= <-]. Qed.

Lemma raises_only_unmodelled {A} (e0 : exn) : raises_only e0 (@Unmodelled A).
Proof. by intros e. Qed.

Lemma raises_only_bind {A B} (e0 : exn) (m : outcome A) (f : A → outcome B) :
  raises_only e0 m → (∀ a, raises_only e0 (f a)) → raises_only e0 (m ≫= f).
Proof.
  intros Hm Hf e. destruct m as [a|e'|]; simpl; [apply Hf| |done].
  intros [= <-]. by apply Hm.
Qed.

Lemma raises_only_fmap {A B} (e0 : exn) (m : outcome A) (f : A → B) :
  raises_only e0 m → raises_only e0 (f <$> m).
Proof.
  intros Hm e. destruct m as [a|e'|]; simpl; [done| |done].
  intros [= <-]. by apply Hm.
Qed.

End RaiseFacts.

Module RaiseFacts2.
Import Spec Aux.
Import Re Text RaiseFacts.

(** One step of a proof that a call raises only [e0]: through the result
    of a call, a sequence of calls, or a case analysis. *)
Ltac raises_step :=
  first
    [ apply raises_only_ret
    | apply raises_only_mret
    | apply raises_only_raise
    | apply raises_only_unmodelled
    | assumption
    | apply raises_only_bind; [|intros ?]
    | apply raises_only_fmap
    | match goal with
      | |- raises_only _ (match ?x with _ => _ end) => destruct x
      | |- raises_only _ (if ?b then _ else _) => destruct b
      end ].

Lemma parse_escape_raises (s : str) : raises_only ReError (parse_escape s).
Proof. unfold parse_escape. repeat raises_step. Qed.

Lemma parse_class_escape_raises (s : str) : raises_only ReError (parse_class_escape s).
Proof. unfold parse_class_escape. repeat raises_step. Qed.

Lemma parse_set_atom_raises (c : ascii) (s : str) : raises_only ReError (parse_set_atom c s).
Proof. unfold parse_set_atom. destruct (Ascii.eqb _ _); [apply parse_class_escape_raises|raises_step]. Qed.

Lemma parse_set_raises (fuel : nat) (acc : list set_item) (s : str) :
  raises_only ReError (parse_set fuel acc s).
Proof.
  revert acc s. induction fuel as [|fuel IH]; intros acc s; simpl; [raises_step|].
  destruct s as [|c tl]; [raises_step|].
  destruct (_ && _); [raises_step|].
  apply raises_only_bind; [apply parse_set_atom_raises|]. intros [code1 s1].
  repeat first [apply IH | apply parse_set_atom_raises | raises_step].
Qed.

Lemma apply_repeat_raises acc lo hi (s : str) : raises_only ReError (apply_repeat acc lo hi s).
Proof. unfold apply_repeat. repeat raises_step. Qed.

Lemma parse_braces_raises (s : str) bounds :
  parse_braces s = Some bounds → raises_only ReError bounds.
Proof.
  unfold parse_braces. intros H.
  repeat match type of H with
         | (match ?x with _ => _ end) = _ => destruct x
         | (let '(_, _) := ?x in _) = _ => destruct x
         | (if ?b then _ else _) = _ => destruct b
         end; try discriminate; injection H as <-; raises_step.
Qed.

Lemma expect_close_raises (s : str) : raises_only ReError (expect_close s).
Proof. unfold expect_close. repeat raises_step. Qed.

Lemma parse_raises (fuel : nat) :
  (∀ s g, raises_only ReError (parse_alt fuel s g))
  ∧ (∀ acc s g, raises_only ReError (parse_items fuel acc s g)).
Proof.
  induction fuel as [|fuel [IHa IHi]]; [split; intros; simpl; raises_step|].
  split.
  - intros s g. simpl. apply raises_only_bind; [apply IHi|]. intros [[acc s1] g1].
    repeat first [apply IHa | raises_step].
  - intros acc s g. simpl.
    destruct s as [|c tl]; [raises_step|].
    repeat match goal with
           | |- raises_only _ (if ?b then _ else _) => destruct b
           end;
    repeat first
      [ apply IHa | apply IHi | apply parse_escape_raises | apply parse_set_raises
      | apply parse_set_atom_raises
      | apply apply_repeat_raises | apply expect_close_raises
      | match goal with
        | |- raises_only _ (match parse_braces ?t with _ => _ end) =>
            let H := fresh "Hb" in
            destruct (parse_braces t) eqn:H; [apply parse_braces_raises in H|]
        | |- raises_only _ (let '(_, _) := ?x in _) => destruct x
        end
      | raises_step ].
Qed.

(** Within the modelled fragment of the patterns [re.compile] raises
    nothing but [re.error]. *)
Lemma compile_raises (p : str) : raises_only ReError (compile p).
Proof.
  unfold compile. apply raises_only_bind; [apply parse_raises|].
  intros [[r rest] g]. repeat raises_step.
Qed.

Lemma re_match_raises (p s : str) ml : raises_only ReError (re_match p s ml).
Proof. unfold re_match. apply raises_only_bind; [apply compile_raises|]. intros; raises_step. Qed.

Lemma word_matches_raises (value : str) items acc :
  raises_only ReError (word_matches value items acc).
Proof.
  revert acc. induction items as [|[l_opt opt] items IH]; intros acc; simpl; [raises_step|].
  apply raises_only_bind; [apply re_match_raises|]. intros m. apply IH.
Qed.

Lemma candidates_raises (value : str) (d : gmap str str) :
  raises_only ReError (candidates value d).
Proof.
  unfold candidates. destruct (Difflib.get_close_matches _ _) as [[|m ms]|];
    [apply word_matches_raises|raises_step|raises_step].
Qed.

End RaiseFacts2.

(** ** More about [fuzzy_find] *)

Module FuzzyFacts.
Import Spec Aux.
Import Re Text Builtins TextFacts DifflibFacts TextFacts2 RaiseFacts RaiseFacts2.

Lemma lower_char_idemp (c : ascii) : lower_char (lower_char c) = lower_char c.
Proof. ascii_cases c. Qed.

Lemma lower_idemp (s : str) : lower (lower s) = lower s.
Proof.
  unfold lower. rewrite map_map. apply map_ext. intros c. apply lower_char_idemp.
Qed.

Lemma is_word_lower_char (c : ascii) : is_word (lower_char c) = is_word c.
Proof. ascii_cases c. Qed.

Lemma forallb_is_word_lower (s : str) : forallb is_word (lower s) = forallb is_word s.
Proof.
  induction s as [|c s IH]; simpl; [done|]. by rewrite is_word_lower_char, IH.
Qed.

(** What [fuzzy_find] returns is an entry of the dictionary. *)
Lemma fuzzy_find_entry (value : str) (options : list str) (o : str) :
  fuzzy_find value options = Ret (Some o) →
  ∃ k, options_dict options !! k = Some o.
Proof.
  unfold fuzzy_find, fuzzy_find_with.
  destruct (bool_decide _).
  - unfold getitem. destruct (options_dict options !! lower value) as [o'|] eqn:Ho; simpl; [|done].
    intros [= <-]. eauto.
  - destruct (candidates _ _) as [ms| |]; simpl; [|done|done].
    destruct ms as [|m [|? ?]]; [done| |done].
    unfold getitem. destruct (options_dict options !! m) as [o'|] eqn:Ho; simpl; [|done].
    intros [= <-]. eauto.
Qed.

(** Within the model [fuzzy_find] raises nothing but the error of [re].
    The limits of the interpreter, on which it gives up in another way (a
    huge bound, groups nested too deep), are no part of the model. *)
Lemma fuzzy_find_raises (value : str) (options : list str) :
  raises_only ReError (fuzzy_find value options).
Proof.
  intros e. unfold fuzzy_find, fuzzy_find_with.
  destruct (bool_decide _) eqn:Hb.
  - apply bool_decide_eq_true in Hb as [o Ho]. unfold getitem. by rewrite Ho.
  - destruct (candidates _ _) as [ms|e'|] eqn:Hc; simpl; [| |done].
    + destruct ms as [|m [|? ?]]; [done| |done].
      destruct (candidates_keys _ _ _ Hc m) as [o Ho]; [left|].
      unfold getitem. by rewrite Ho.
    + intros [= <-]. by apply (candidates_raises _ _ _ Hc).
Qed.

Lemma candidates_empty (value : str) : candidates value ∅ = Ret [].
Proof. unfold candidates. by rewrite map_to_list_empty. Qed.

End FuzzyFacts.

Module BuiltinsFacts2.
Import Spec Aux.
Import Text Builtins BuiltinsFacts.

Lemma lstrip_blank (s : str) : forallb is_space s = true → lstrip s = [].
Proof.
  intros H. rewrite <- (app_nil_r s). by rewrite lstrip_spaces.
Qed.

Lemma lstrip_elem (c : ascii) (s : str) :
  c ∈ s → is_space c = false → c ∈ lstrip s.
Proof.
  intros Hin Hc. induction s as [|d s IH]; simpl; [done|].
  destruct (is_space d) eqn:Hd; [|done].
  apply elem_of_cons in Hin as [->|Hin]; [congruence|by apply IH].
Qed.

Lemma strip_elem (c : ascii) (s : str) :
  c ∈ s → is_space c = false → c ∈ strip s.
Proof.
  intros Hin Hc. unfold strip.
  apply list_elem_of_In. rewrite <- in_rev. apply list_elem_of_In.
  apply lstrip_elem; [|done].
  apply list_elem_of_In. rewrite <- in_rev. apply list_elem_of_In.
  by apply lstrip_elem.
Qed.

Lemma forallb_elem_false {A} (p : A → bool) (l : list A) (x : A) :
  x ∈ l → p x = false → forallb p l = false.
Proof.
  intros Hin Hx. induction l as [|y l IH]; [by apply not_elem_of_nil in Hin|].
  simpl. apply elem_of_cons in Hin as [<-|Hin]; [by rewrite Hx|].
  rewrite IH by done. apply andb_false_r.
Qed.

Lemma int_of_str_blank (s : str) :
  forallb is_space s = true → int_of_str s = Raise ValueError.
Proof.
  intros H. unfold int_of_str.
  rewrite (forallb_existsb_false is_space version_dependent)
    by (done || apply space_not_version_dependent).
  unfold strip. by rewrite (lstrip_blank s).
Qed.

Lemma int_of_str_foreign (s : str) (c : ascii) :
  c ∈ s → is_digit c = false → is_space c = false → c ≠ "+" → c ≠ "-" →
  existsb version_dependent s = false →
  int_of_str s = Raise ValueError.
Proof.
  intros Hin Hd Hs Hp Hm Hv. unfold int_of_str. rewrite Hv.
  pose proof (strip_elem c s Hin Hs) as Hc.
  assert (Hdig : c ∈ (split_sign (strip s)).2).
  { unfold split_sign. destruct (strip s) as [|h t]; [done|].
    destruct (Ascii.eqb_spec h "-") as [->|Hh1];
      [simpl; by apply elem_of_cons in Hc as [?|?]|].
    destruct (Ascii.eqb_spec h "+") as [->|Hh2];
      [simpl; by apply elem_of_cons in Hc as [?|?]|].
    clear -Hc Hh1 Hh2. destruct h as [[] [] [] [] [] [] [] []]; simpl; done. }
  destruct (split_sign (strip s)) as [negative digits]. simpl in Hdig.
  destruct digits as [|d ds]; [by apply not_elem_of_nil in Hdig|].
  by rewrite (forallb_elem_false is_digit (d :: ds) c Hdig Hd).
Qed.

End BuiltinsFacts2.

(** ** [fuzzy_find]: what it returns and raises *)

Module FuzzyProps.
Import Spec Aux.
Import Re Text Builtins TextFacts DifflibFacts TextFacts2 RaiseFacts RaiseFacts2 FuzzyFacts.

(** X1.  Whatever [fuzzy_find] returns is one of the options it was given, in
    its original casing, and among the options of the same lowercase form it
    is the last one of the list. *)
Theorem fuzzy_find_returns_an_option (value : str) (options : list str) (o : str) :
  fuzzy_find value options = Ret (Some o) →
  o ∈ options ∧ last (filter (fun p => lower p = lower o) options) = Some o.
Proof.
  intros H. destruct (fuzzy_find_entry _ _ _ H) as [k Hk].
  destruct (options_dict_Some _ _ _ Hk) as [Hin Hl]. split; [done|].
  by rewrite <- options_dict_lookup, Hl.
Qed.

Lemma fuzzy_find_returns_an_option_witness :
  py "closed" ∈ [py "open"; py "closed"]
  ∧ last (filter (fun p => lower p = lower (py "closed")) [py "open"; py "closed"])
    = Some (py "closed").
Proof.
  apply (fuzzy_find_returns_an_option (py "Clsed") [py "open"; py "closed"] (py "closed")).
  vm_compute. reflexivity.
Defined.

(** X2.  An option [fuzzy_find] returns is found again when it is itself the
    value looked for: the results are fixed points. *)
Theorem fuzzy_find_fixed_point (value : str) (options : list str) (o : str) :
  fuzzy_find value options = Ret (Some o) → fuzzy_find o options = Ret (Some o).
Proof.
  intros H. destruct (fuzzy_find_entry _ _ _ H) as [k Hk].
  destruct (options_dict_Some _ _ _ Hk) as [Hin <-].
  unfold fuzzy_find, fuzzy_find_with.
  rewrite bool_decide_eq_true_2 by eauto. by apply getitem_Some.
Qed.

Lemma fuzzy_find_fixed_point_witness :
  fuzzy_find (py "Closed") [py "open"; py "Closed"] = Ret (Some (py "Closed")).
Proof.
  apply (fuzzy_find_fixed_point (py "clsed") [py "open"; py "Closed"] (py "Closed")).
  vm_compute. reflexivity.
Defined.

(** X3.  [fuzzy_find] never raises [KeyError]: the look-ups in the
    dictionary of the options never fail, since the keys looked up, the
    value after the test of line 39 and the sole candidate, are keys of
    the dictionary. *)
Theorem fuzzy_find_never_key_error (value : str) (options : list str) :
  fuzzy_find value options ≠ Raise KeyError.
Proof.
  intros H. by apply fuzzy_find_raises in H.
Qed.

(** X4.  With no option at all [fuzzy_find] returns [None], whatever the
    value: the word pattern is never compiled, so even a value that is no
    pattern raises nothing. *)
Theorem fuzzy_find_no_options (value : str) : fuzzy_find value [] = Ret None.
Proof.
  unfold fuzzy_find, fuzzy_find_with. change (options_dict []) with (∅ : gmap str str).
  rewrite lookup_empty, bool_decide_eq_false_2 by (by intros [? ?]).
  by rewrite candidates_empty.
Qed.

(** X5.  The case of the value plays no part: a value and its lowercase form
    give the same result. *)
Theorem fuzzy_find_ignores_value_case (value : str) (options : list str) :
  fuzzy_find (lower value) options = fuzzy_find value options.
Proof. unfold fuzzy_find, fuzzy_find_with. by rewrite lower_idemp. Qed.

(** X6.  For a value made of letters, digits and underscores [fuzzy_find]
    always returns: the word pattern compiles, and the result is [None] or one
    of the options. *)
Theorem fuzzy_find_word_value_returns (value : str) (options : list str) :
  forallb is_word value = true →
  ∃ r, fuzzy_find value options = Ret r
       ∧ (r = None ∨ ∃ o, r = Some o ∧ o ∈ options).
Proof.
  intros Hw.
  assert (Hc : ∃ ms, candidates (lower value) (options_dict options) = Ret ms).
  { eapply candidates_compiled, WordFacts.compile_word_pattern.
    by rewrite forallb_is_word_lower. }
  destruct Hc as [ms Hc].
  assert (Hr : ∃ r, fuzzy_find value options = Ret r).
  { unfold fuzzy_find, fuzzy_find_with. destruct (bool_decide _) eqn:Hb.
    - apply bool_decide_eq_true in Hb as [o Ho]. unfold getitem. rewrite Ho. simpl. eauto.
    - rewrite Hc. simpl. destruct ms as [|m [|? ?]]; [eauto| |eauto].
      destruct (candidates_keys _ _ _ Hc m) as [o Ho]; [left|].
      unfold getitem. rewrite Ho. simpl. eauto. }
  destruct Hr as [r Hr]. exists r. split; [done|].
  destruct r as [o|]; [right|by left].
  exists o. split; [done|]. destruct (fuzzy_find_entry _ _ _ Hr) as [k Hk].
  by destruct (options_dict_Some _ _ _ Hk).
Qed.

Lemma fuzzy_find_word_value_returns_witness :
  ∃ r, fuzzy_find (py "new_1") [py "new_10"; py "renew"] = Ret r
       ∧ (r = None ∨ ∃ o, r = Some o ∧ o ∈ [py "new_10"; py "renew"]).
Proof.
  apply (fuzzy_find_word_value_returns (py "new_1") [py "new_10"; py "renew"]).
  reflexivity.
Defined.

(** X7.  The near misses [difflib] is asked for are always computed, are at
    most three, and are lowercase forms of options. *)
Theorem fuzzy_find_near_misses (value : str) (options : list str) :
  ∃ ms, Difflib.get_close_matches (lower value)
          (map fst (map_to_list (options_dict options))) = Some ms
        ∧ length ms ≤ 3
        ∧ ∀ m, m ∈ ms → ∃ o, o ∈ options ∧ lower o = m.
Proof.
  destruct (get_close_matches_total (lower value)
              (map fst (map_to_list (options_dict options)))) as (ms & Hms & Hlen & Hin).
  exists ms. split; [done|]. split; [done|].
  intros m Hm. destruct (fst_map_to_list_elem _ _ (Hin m Hm)) as [o Ho].
  exists o. by apply options_dict_Some.
Qed.

End FuzzyProps.

(** ** [validate_id]: what it refuses *)

Module ValidateProps.
Import Spec Aux.
Import Text Builtins BuiltinsFacts BuiltinsFacts2.

(** X8.  A string of blanks only, the empty string among them, is refused. *)
Theorem validate_id_refuses_blank (s : str) :
  forallb is_space s = true →
  validate_id (PyStr s) = Raise (InvalidParameter "invalid identifier (should be an int)").
Proof. intros H. unfold validate_id. simpl. by rewrite int_of_str_blank. Qed.

Lemma validate_id_refuses_blank_witness :
  validate_id (PyStr (py "  "))
  = Raise (InvalidParameter "invalid identifier (should be an int)").
Proof. apply (validate_id_refuses_blank (py "  ")). reflexivity. Defined.

(** X9.  A string with a character that is neither a digit, a blank nor a sign
    is refused wherever the character stands: a letter, a point, a comma.
    (Strings with an underscore or a character outside ASCII are left out: the
    versions of the interpreter read them differently.) *)
Theorem validate_id_refuses_foreign_character (s : str) (c : ascii) :
  c ∈ s → is_digit c = false → is_space c = false → c ≠ "+" → c ≠ "-" →
  existsb version_dependent s = false →
  validate_id (PyStr s) = Raise (InvalidParameter "invalid identifier (should be an int)").
Proof.
  intros Hin Hd Hs Hp Hm Hv. unfold validate_id. simpl.
  by rewrite (int_of_str_foreign s c).
Qed.

Lemma validate_id_refuses_foreign_character_witness :
  validate_id (PyStr (py "12.5"))
  = Raise (InvalidParameter "invalid identifier (should be an int)").
Proof.
  apply (validate_id_refuses_foreign_character (py "12.5") ".").
  - apply list_elem_of_In. vm_compute. tauto.
  - reflexivity.
  - reflexivity.
  - discriminate.
  - discriminate.
  - reflexivity.
Defined.

End ValidateProps.

(** ** What the extractors return, read on the text *)

Module ShapeFacts.
Import Spec Aux.
Import Re StrFacts ReFacts ReFacts2 ScanFacts ScanFacts2 Text Builtins ExtractFacts.
Import FindallFacts VersionFacts VersionFacts2 VersionFacts3 TicketFacts StatusFacts PageFacts.

Lemma occurs_drop (w s : str) (i : nat) : occurs w (drop i s) → occurs w s.
Proof.
  intros (pre & post & H). exists (take i s ++ pre), post.
  by rewrite <- (take_drop i s) at 1; rewrite H, <- app_assoc.
Qed.

Lemma occurs_suffix (w pre s : str) : occurs w s → occurs w (pre ++ s).
Proof.
  intros (p & post & ->). exists (pre ++ p), post. by rewrite <- app_assoc.
Qed.

Lemma field_here_inv (name : str) (stop : ascii) (s v : str) :
  field_here name stop s = Some v →
  ∃ post, s = name ++ v ++ post ∧ v ≠ [] ∧ (stop ∉ v)
          ∧ stops (fun c => negb (Ascii.eqb c stop)) post.
Proof.
  unfold field_here. destruct (is_prefix name s) eqn:Hp; [|done].
  apply is_prefix_split in Hp.
  pose proof (span_app (fun c => negb (Ascii.eqb c stop)) (drop (length name) s)) as Happ.
  pose proof (span_forall (fun c => negb (Ascii.eqb c stop)) (drop (length name) s)) as Hall.
  pose proof (span_stops (fun c => negb (Ascii.eqb c stop)) (drop (length name) s)) as Hst.
  destruct (span _ (drop (length name) s)) as [v' post]. simpl in *.
  destruct v' as [|c v']; [done|]. intros [= <-].
  exists post. split; [by rewrite Happ|]. split; [done|]. split; [|done].
  by apply forallb_not_elem.
Qed.

Lemma radio_here_inv (s v rest : str) :
  radio_here s = Some (v, rest) →
  ∃ attrs, s = radio_name ++ attrs ++ action_name ++ v ++ rest
           ∧ attrs ≠ [] ∧ ("<"%char ∉ attrs) ∧ v ≠ [] ∧ (dquote ∉ v)
           ∧ stops (not_char dquote) rest.
Proof.
  unfold radio_here. destruct (is_prefix radio_name s) eqn:Hp; [|done].
  apply is_prefix_split in Hp.
  destruct (drop (length radio_name) s) as [|c tl]; [done|].
  destruct (not_char "<" c) eqn:Hc; [|done]. intros H.
  apply last_within_inv in H as (pre & s' & -> & Hpre & Hs').
  apply value_here_inv in Hs' as (-> & Hv & Hq & Hst).
  exists (c :: pre). split; [exact Hp|]. split; [done|].
  split; [|done]. apply forallb_not_elem. simpl.
  unfold not_char in Hc. by rewrite Hc.
Qed.

Lemma Z_of_digits_nonneg (ds : str) : (0 ≤ Z_of_digits ds)%Z.
Proof.
  unfold Z_of_digits.
  assert (H : ∀ (n : Z), (0 ≤ n)%Z →
            (0 ≤ foldl (fun n c => 10 * n + Z.of_nat (digit_value c)) n ds)%Z).
  { induction ds as [|c ds IH]; intros n Hn; simpl; [done|]. apply IH. lia. }
  by apply H.
Qed.

End ShapeFacts.

(** ** The extractors: what they return *)

Module ExtractProps.
Import Spec Aux.
Import Re StrFacts ReFacts ReFacts2 ScanFacts ScanFacts2 Text Builtins ExtractFacts.
Import FindallFacts VersionFacts VersionFacts2 VersionFacts3 TicketFacts StatusFacts PageFacts.
Import PropertiesFacts ShapeFacts.

(** X10.  A timestamp [extract_timestamp] returns is a text, never [None]; it
    is not empty, holds no double quote, stands in the page just after the
    opening of the value of the field [ts], and runs up to the next double
    quote or, when there is none, to the end of the page. *)
Theorem extract_timestamp_value_shape (html : str) (r : option str) :
  extract_timestamp html = Ret r →
  ∃ pre v post, r = Some v ∧ html = pre ++ ts_name ++ v ++ post
                ∧ v ≠ [] ∧ (dquote ∉ v)
                ∧ (post = [] ∨ ∃ post', post = dquote :: post').
Proof.
  rewrite extract_timestamp_first.
  destruct (first_here _ html) as [v|] eqn:Hf; [|done]. intros [= <-].
  apply first_here_Some in Hf as (i & Hi & Hf).
  apply field_here_inv in Hf as (post & Hs & Hv & Hq & Hst).
  exists (take i html), v, post. split; [done|].
  split; [by rewrite <- Hs, take_drop|]. split; [done|]. split; [done|].
  destruct post as [|c post]; [by left|right]. simpl in Hst.
  exists post. f_equal. apply negb_false_iff in Hst. by apply Ascii.eqb_eq in Hst.
Qed.

Lemma extract_timestamp_value_shape_witness :
  ∃ pre v post,
    Some (py "42") = Some v ∧ py "<input name='ts' value='42'>" = pre ++ ts_name ++ v ++ post
    ∧ v ≠ [] ∧ (dquote ∉ v) ∧ (post = [] ∨ ∃ post', post = dquote :: post').
Proof.
  apply (extract_timestamp_value_shape (py "<input name='ts' value='42'>") (Some (py "42"))).
  vm_compute. reflexivity.
Defined.

(** X11.  The closing quote is not needed: a value that nothing closes runs to
    the end of the page. *)
Theorem extract_timestamp_open_value (v : str) :
  v ≠ [] → dquote ∉ v → extract_timestamp (ts_name ++ v) = Ret (Some v).
Proof.
  intros Hne Hq. rewrite extract_timestamp_first.
  rewrite (first_here_head _ _ v); [done|].
  rewrite <- (app_nil_r v) at 1. apply field_here_Some; [done| |done].
  by apply not_elem_forallb.
Qed.

Lemma extract_timestamp_open_value_witness :
  extract_timestamp (ts_name ++ py "16933221") = Ret (Some (py "16933221")).
Proof.
  apply (extract_timestamp_open_value (py "16933221")).
  - discriminate.
  - apply forallb_not_elem. reflexivity.
Defined.

(** X12.  Every element of the list [extract_statuses] returns is a text, the
    value of a radio button that stands in the page: the opening of the
    button, one or more characters other than [<], the name [action] and a
    value that is not empty and holds no double quote. *)
Theorem extract_statuses_value_shape (html : str) (l : list fitem) :
  extract_statuses html = Ret l →
  Forall (fun item => ∃ attrs v,
            item = FText v
            ∧ occurs (radio_name ++ attrs ++ action_name ++ v) html
            ∧ attrs ≠ [] ∧ ("<"%char ∉ attrs) ∧ v ≠ [] ∧ (dquote ∉ v)) l.
Proof.
  destruct (extract_statuses_all html) as (l' & -> & Hall). intros [= <-].
  assert (H : ∀ s, all_here radio_here s l' → (∀ w, occurs w s → occurs w html) →
            Forall (fun item => ∃ attrs v,
                      item = FText v
                      ∧ occurs (radio_name ++ attrs ++ action_name ++ v) html
                      ∧ attrs ≠ [] ∧ ("<"%char ∉ attrs) ∧ v ≠ [] ∧ (dquote ∉ v))
                   (map FText l')).
  { clear Hall. intros s Hs. induction Hs as [s Hn|s v rest l' Hf Hrest IH]; intros Hsub.
    - constructor.
    - apply first_here_Some in Hf as (i & Hi & Hf).
      apply radio_here_inv in Hf as (attrs & Hs & Ha & Hlt & Hv & Hq & Hst).
      simpl. constructor.
      + exists attrs, v. split; [done|]. split; [|done].
        apply Hsub, (occurs_drop _ _ i). rewrite Hs. exists [], rest.
        simpl. by rewrite <- !app_assoc.
      + apply IH. intros w Hw. apply Hsub, (occurs_drop _ _ i). rewrite Hs.
        rewrite !app_assoc. by apply occurs_suffix. }
  by apply (H html).
Qed.

Lemma extract_statuses_value_shape_witness :
  Forall (fun item => ∃ attrs v,
            item = FText v
            ∧ occurs (radio_name ++ attrs ++ action_name ++ v)
                (py "<input type='radio' id='a' name='action' value='leave' />")
            ∧ attrs ≠ [] ∧ ("<"%char ∉ attrs) ∧ v ≠ [] ∧ (dquote ∉ v))
         [FText (py "leave")].
Proof.
  apply (extract_statuses_value_shape
           (py "<input type='radio' id='a' name='action' value='leave' />")).
  vm_compute. reflexivity.
Defined.

(** X13.  On an ASCII page a status [extract_status_from_ticket_page]
    returns is a text, never [None]: a word, not empty, of letters, digits
    and underscores only, that stands in the page after [as ].  (Above 127
    the interpreter knows more letters, hence the hypothesis.) *)
Theorem extract_status_word_shape (html : str) (r : option str) :
  Forall (fun c => code c < 128) html →
  extract_status_from_ticket_page html = Ret r →
  ∃ w, r = Some w ∧ w ≠ [] ∧ forallb is_word w = true
       ∧ occurs (as_name ++ w) html.
Proof.
  intros _. rewrite extract_status_first.
  destruct (first_here status_here html) as [w|] eqn:Hf; [|done]. intros [= <-].
  apply first_here_Some in Hf as (i & Hi & Hf).
  apply status_here_inv in Hf as (ws1 & ws2 & post & Hs & H1 & [Hne Hw] & H2).
  exists w. split; [done|]. split; [done|]. split; [done|].
  apply (occurs_drop _ _ i). rewrite Hs.
  exists (leave_name ++ ws1), (ws2 ++ "<"%char :: post). by rewrite <- !app_assoc.
Qed.

Lemma extract_status_word_shape_witness :
  ∃ w, Some (py "new") = Some w ∧ w ≠ [] ∧ forallb is_word w = true
       ∧ occurs (as_name ++ w) (py "leave</label> as new </div>").
Proof.
  apply (extract_status_word_shape (py "leave</label> as new </div>") (Some (py "new"))).
  - apply ascii_check. vm_compute. reflexivity.
  - vm_compute. reflexivity.
Defined.

(** X14.  The numbers of a version are never negative: a sign is no part of a
    version. *)
Theorem extract_trac_version_nonnegative (html : str) (l : list Z) :
  extract_trac_version html = Ret l → Forall (fun z => (0 ≤ z)%Z) l.
Proof.
  intros Hl. apply extract_trac_version_Ret in Hl.
  destruct (first_here version_here html) as [[[d1 d2] d3]|]; subst l.
  - repeat constructor; apply Z_of_digits_nonneg.
  - constructor.
Qed.

Lemma extract_trac_version_nonnegative_witness :
  Forall (fun z => (0 ≤ z)%Z) [1; 2; 3]%Z.
Proof.
  apply (extract_trac_version_nonnegative (py "Trac 1.2.3-dev")).
  vm_compute. reflexivity.
Defined.

(** X15.  The semicolon is not needed: an assignment that nothing closes runs
    to the end of the page. *)
Theorem extract_properties_open_assignment (token : str) :
  token ≠ [] → ";"%char ∉ token →
  extract_properties (prop_name ++ token) = Json.loads token.
Proof.
  intros Hne Hq. rewrite extract_properties_first.
  rewrite (first_here_head _ _ token); [done|].
  rewrite <- (app_nil_r token) at 1. apply field_here_Some; [done| |done].
  by apply not_elem_forallb.
Qed.

Lemma extract_properties_open_assignment_witness :
  extract_properties (prop_name ++ py "{}") = Json.loads (py "{}").
Proof.
  apply (extract_properties_open_assignment (py "{}")).
  - discriminate.
  - apply forallb_not_elem. reflexivity.
Defined.

End ExtractProps.

(** ** What [json.loads] may raise *)

Module JsonFacts.
Import Spec Aux.
Import Text Json RaiseFacts RaiseFacts2.

Lemma scanstring_raises (s : str) : raises_only ValueError (scanstring s).
Proof.
  induction s as [s IH] using (induction_ltof1 _ (@length ascii)); unfold ltof in *.
  destruct s as [|c tl]; simpl; [raises_step|].
  destruct (Ascii.eqb c dquote); [raises_step|].
  destruct (Ascii.eqb c backslash).
  - destruct tl as [|e tl']; [raises_step|].
    destruct (Ascii.eqb e "u"); [raises_step|].
    destruct (escape_of e); [|raises_step].
    apply raises_only_bind; [apply IH; simpl; lia|]. intros [text rest]. raises_step.
  - repeat match goal with
           | |- raises_only _ (if ?b then _ else _) => destruct b; [raises_step|]
           end.
    apply raises_only_bind; [apply IH; simpl; lia|]. intros [text rest]. raises_step.
Qed.

Lemma scan_raises (fuel : nat) :
  (∀ s, raises_only ValueError (scan_once fuel s))
  ∧ (∀ acc s, raises_only ValueError (scan_members fuel acc s))
  ∧ (∀ acc s, raises_only ValueError (scan_elements fuel acc s)).
Proof.
  induction fuel as [|fuel (IHo & IHm & IHe)]; [repeat split; intros; simpl; raises_step|].
  split; [|split].
  - intros s. simpl. destruct s as [|c tl]; [raises_step|].
    destruct (Ascii.eqb c dquote).
    { apply raises_only_bind; [apply scanstring_raises|]. intros [text rest]. raises_step. }
    destruct (Ascii.eqb c "{").
    { destruct (skip_ws tl) as [|q rest]; [raises_step|].
      destruct (Ascii.eqb_spec q "}") as [->|Hq]; [raises_step|].
      assert (Hgoal : raises_only ValueError
                (if Ascii.eqb q dquote
                 then scan_members fuel ∅ rest ≫= (λ '(m, rest'), Ret (JObject m, rest'))
                 else Raise ValueError)).
      { destruct (Ascii.eqb q dquote); [|raises_step].
        apply raises_only_bind; [apply IHm|]. intros [m rest']. raises_step. }
      clear -Hgoal Hq. destruct q as [[] [] [] [] [] [] [] []]; try done. }
    destruct (Ascii.eqb c "[").
    { assert (Hgoal : raises_only ValueError
                (scan_elements fuel [] (skip_ws tl) ≫= (λ '(l, rest), Ret (JList l, rest)))).
      { apply raises_only_bind; [apply IHe|]. intros [l rest]. raises_step. }
      destruct (skip_ws tl) as [|q rest]; [done|].
      destruct (Ascii.eqb_spec q "]") as [->|Hq]; [raises_step|].
      clear -Hgoal Hq. destruct q as [[] [] [] [] [] [] [] []]; try done. }
    repeat raises_step.
  - intros acc s. simpl.
    apply raises_only_bind; [apply scanstring_raises|]. intros [key s1].
    destruct (skip_ws s1) as [|q s2]; [raises_step|].
    destruct (Ascii.eqb_spec q ":") as [->|Hq];
      [|clear -Hq; destruct q as [[] [] [] [] [] [] [] []]; try done; raises_step].
    apply raises_only_bind; [apply IHo|]. intros [value s3].
    destruct (skip_ws s3) as [|q s4]; [raises_step|].
    destruct (Ascii.eqb_spec q "}") as [->|Hq1]; [raises_step|].
    destruct (Ascii.eqb_spec q ",") as [->|Hq2].
    + destruct (skip_ws s4) as [|q' s5]; [raises_step|].
      destruct (Ascii.eqb q' dquote); [apply IHm|raises_step].
    + clear -Hq1 Hq2. destruct q as [[] [] [] [] [] [] [] []]; try done; raises_step.
  - intros acc s. simpl.
    apply raises_only_bind; [apply IHo|]. intros [value s1].
    destruct (skip_ws s1) as [|q s2]; [raises_step|].
    destruct (Ascii.eqb_spec q "]") as [->|Hq1]; [raises_step|].
    destruct (Ascii.eqb_spec q ",") as [->|Hq2]; [apply IHe|].
    clear -Hq1 Hq2. destruct q as [[] [] [] [] [] [] [] []]; try done; raises_step.
Qed.

Lemma loads_raises (s : str) : raises_only ValueError (loads s).
Proof.
  unfold loads. apply raises_only_bind; [apply scan_raises|]. intros [obj rest].
  repeat raises_step.
Qed.

End JsonFacts.

(** ** [extract_properties]: what it raises *)

Module PropertiesProps.
Import Spec Aux.
Import Text Json RaiseFacts RaiseFacts2 JsonFacts PropertiesFacts.

(** X16.  The only exception [extract_properties] raises is the
    [ValueError] of [json.loads], for an assignment whose text is no JSON
    document: the function catches nothing, and the search of the assignment
    raises nothing.  (Pages with 200 opening brackets or more are left out:
    on a document nested too deep the interpreter gives up.) *)
Theorem extract_properties_raises_only_value_error (html : str) (e : exn) :
  shallow html → extract_properties html = Raise e → e = ValueError.
Proof.
  intros _. rewrite extract_properties_first.
  destruct (first_here _ html) as [token|]; [apply loads_raises|done].
Qed.

Lemma extract_properties_raises_only_value_error_witness :
  extract_properties (py "var properties={'a':'x;y'};") = Raise ValueError
  ∧ ValueError = ValueError.
Proof.
  assert (H : extract_properties (py "var properties={'a':'x;y'};") = Raise ValueError)
    by (vm_compute; reflexivity).
  split; [exact H|].
  refine (extract_properties_raises_only_value_error _ ValueError _ H).
  unfold shallow. simpl. lia.
Defined.

End PropertiesProps.

(** ** [json.loads] decides *)

Module JsonTotal.
Import Spec Aux.
Import StrFacts Text Json RaiseFacts RaiseFacts2.

Lemma modelled_bind {A B} (m : outcome A) (f : A → outcome B) :
  modelled m → (∀ a, m = Ret a → modelled (f a)) → modelled (m ≫= f).
Proof.
  unfold modelled. intros Hm Hf. destruct m as [a|e|]; simpl; [by apply Hf|done|done].
Qed.

Lemma plain_drop (pre s : str) : plain (pre ++ s) → plain s.
Proof.
  intros [Hc Hu]. split; [by apply Forall_app in Hc as [_ ?]|].
  intros p q ->. apply (Hu (pre ++ p) q). by rewrite <- app_assoc.
Qed.

Lemma plain_rest (rest s : str) : rest_of rest s → plain s → plain rest.
Proof. intros (pre & -> & _). apply plain_drop. Qed.

Lemma rest_of_length (rest s : str) : rest_of rest s → length rest < length s.
Proof.
  intros (pre & -> & Hne). rewrite length_app. destruct pre; [done|]. simpl. lia.
Qed.

Lemma rest_of_cons (c : ascii) (s : str) : rest_of s (c :: s).
Proof. by exists [c]. Qed.

Lemma rest_of_trans (a b c : str) : rest_of a b → rest_of b c → rest_of a c.
Proof.
  intros (p & -> & Hp) (q & -> & Hq). exists (q ++ p). split; [by rewrite <- app_assoc|].
  by destruct q.
Qed.

Lemma rest_of_app (pre a b : str) : rest_of a b → rest_of a (pre ++ b).
Proof.
  intros (p & -> & Hp). exists (pre ++ p). split; [by rewrite <- app_assoc|].
  by destruct pre, p.
Qed.

Lemma skip_ws_drop (s : str) : ∃ pre, s = pre ++ skip_ws s.
Proof.
  induction s as [|c s [pre IH]]; simpl; [by exists []|].
  destruct (is_ws c); [|by exists []]. exists (c :: pre). simpl. by rewrite <- IH.
Qed.

Lemma rest_of_skip_ws (a s : str) : rest_of a (skip_ws s) → rest_of a s.
Proof.
  intros H. destruct (skip_ws_drop s) as [pre Hs]. rewrite Hs. by apply rest_of_app.
Qed.

Lemma rest_of_skip_ws_l (a s : str) : rest_of a s → rest_of (skip_ws a) s.
Proof.
  intros (p & -> & Hp). destruct (skip_ws_drop a) as [pre Ha].
  exists (p ++ pre). split; [by rewrite <- app_assoc, <- Ha|]. by destruct p.
Qed.

Lemma plain_skip_ws (s : str) : plain s → plain (skip_ws s).
Proof.
  intros H. destruct (skip_ws_drop s) as [pre Hs]. rewrite Hs in H. by apply plain_drop in H.
Qed.

Lemma skip_ws_length (s : str) : length (skip_ws s) ≤ length s.
Proof.
  destruct (skip_ws_drop s) as [pre Hs]. rewrite Hs at 2. rewrite length_app. lia.
Qed.

Lemma scanstring_rest (s text rest : str) :
  scanstring s = Ret (text, rest) → rest_of rest s.
Proof.
  revert text. induction s as [s IH] using (induction_ltof1 _ (@length ascii)).
  unfold ltof in *. intros text.
  destruct s as [|c tl]; simpl; [done|].
  destruct (Ascii.eqb c dquote); [intros [= <- <-]; apply rest_of_cons|].
  destruct (Ascii.eqb c backslash).
  - destruct tl as [|e tl']; [done|].
    destruct (Ascii.eqb e "u"); [done|].
    destruct (escape_of e); [|done].
    destruct (scanstring tl') as [[t r]| |] eqn:Hs; simpl; [|done|done].
    intros [= <- <-]. apply IH in Hs; [|simpl; lia].
    apply (rest_of_app [c; e]). exact Hs.
  - repeat match goal with
           | |- (if ?b then _ else _) = _ → _ => destruct b; [done|]
           end.
    destruct (scanstring tl) as [[t r]| |] eqn:Hs; simpl; [|done|done].
    intros [= <- <-]. apply IH in Hs; [|simpl; lia].
    apply (rest_of_app [c]). exact Hs.
Qed.

Lemma scanstring_modelled (s : str) : plain s → modelled (scanstring s).
Proof.
  induction s as [s IH] using (induction_ltof1 _ (@length ascii)).
  unfold ltof in *. intros Hp.
  destruct s as [|c tl]; cbn [scanstring]; [done|].
  destruct (Ascii.eqb c dquote); [done|].
  destruct (Ascii.eqb_spec c backslash) as [->|Hc].
  - destruct tl as [|e tl']; [done|].
    destruct (Ascii.eqb_spec e "u") as [->|He].
    { destruct Hp as [_ Hu]. by destruct (Hu [] tl'). }
    destruct (escape_of e); [|done].
    apply modelled_bind; [|by intros [t r] _].
    apply IH; [simpl; lia|]. by apply (plain_drop [backslash; e]).
  - destruct (code c <? 32); [done|].
    destruct (Nat.leb_spec 128 (code c)) as [Hge|Hlt].
    { destruct Hp as [Hc' _]. apply Forall_cons in Hc' as [Hc' _]. lia. }
    apply modelled_bind; [|by intros [t r] _].
    apply IH; [simpl; lia|]. by apply (plain_drop [c]).
Qed.


(** What a span leaves is an end of the text. *)
Lemma span_end (p : ascii → bool) (s : str) : (span p s).2 `suffix_of` s.
Proof. exists (span p s).1. by rewrite span_app. Qed.

Lemma scan_number_rest (s : str) (v : json) (rest : str) :
  scan_number s = Some (v, rest) → rest_of rest s.
Proof.
  unfold scan_number.
  match goal with |- (let '(_, _) := ?x in _) = _ → _ =>
    destruct x as [sign s0] eqn:H0 end.
  assert (Hs0 : s0 `suffix_of` s).
  { destruct s as [|c tl]; [injection H0 as <- <-; done|].
    destruct c as [[] [] [] [] [] [] [] []]; injection H0 as <- <-;
      first [done | by apply suffix_cons_r]. }
  clear H0.
  match goal with |- (let '(_, _) := ?x in _) = _ → _ =>
    destruct x as [int_part s1] eqn:H1 end.
  assert (Hs1 : s0 = int_part ++ s1).
  { pose proof (span_app is_digit s0) as Hsp.
    destruct s0 as [|c tl]; [injection H1 as <- <-; done|].
    destruct c as [[] [] [] [] [] [] [] []];
      first [by injection H1 as <- <- | by rewrite H1 in Hsp]. }
  clear H1. destruct int_part as [|i0 int_part]; [done|].
  match goal with |- (let '(_, _) := ?x in _) = _ → _ =>
    destruct x as [frac s2] eqn:H2 end.
  assert (Hs2 : s2 `suffix_of` s1).
  { destruct s1 as [|c tl]; [injection H2 as <- <-; done|].
    pose proof (span_end is_digit tl) as Hsp.
    destruct (span is_digit tl) as [[|d ds] r]; simpl in Hsp;
      destruct c as [[] [] [] [] [] [] [] []]; injection H2 as <- <-;
      first [done | by apply suffix_cons_r]. }
  clear H2.
  match goal with |- (let '(_, _) := ?x in _) = _ → _ =>
    destruct x as [expo s3] eqn:H3 end.
  assert (Hs3 : s3 `suffix_of` s2).
  { destruct s2 as [|e tl]; [injection H3 as <- <-; done|].
    destruct (Ascii.eqb e "e" || Ascii.eqb e "E"); [|injection H3 as <- <-; done].
    match type of H3 with (let '(_, _) := ?x in _) = _ =>
      destruct x as [esign tl'] eqn:H4 end.
    assert (Htl : tl' `suffix_of` tl).
    { destruct tl as [|c t]; [injection H4 as <- <-; done|].
      destruct c as [[] [] [] [] [] [] [] []]; injection H4 as <- <-;
        first [done | by apply suffix_cons_r]. }
    pose proof (span_end is_digit tl') as Hsp.
    destruct (span is_digit tl') as [[|d ds] r]; simpl in Hsp; injection H3 as <- <-; [done|].
    apply suffix_cons_r. by etrans. }
  clear H3.
  assert (Hrest : rest_of s3 s).
  { destruct Hs0 as [p0 ->]. destruct Hs2 as [p2 ->]. destruct Hs3 as [p3 ->]. subst s0.
    exists (p0 ++ (i0 :: int_part) ++ p2 ++ p3). split; [by rewrite <- !app_assoc|].
    by destruct p0. }
  destruct frac, expo; by intros [= <- <-].
Qed.

Lemma scan_constant_rest (word : string) (v r : json) (s rest : str) :
  word ≠ EmptyString → scan_constant word v s = Some (r, rest) → rest_of rest s.
Proof.
  intros Hw. unfold scan_constant. destruct (is_prefix _ s) eqn:Hp; [|done].
  intros [= <- <-]. apply is_prefix_split in Hp.
  exists (list_ascii_of_string word). split; [done|]. by destruct word.
Qed.


Lemma skip_ws_cons_rest (q : ascii) (r s : str) : skip_ws s = q :: r → rest_of r s.
Proof.
  intros H. destruct (skip_ws_drop s) as [pre Hs]. rewrite H in Hs.
  exists (pre ++ [q]). split; [by rewrite <- app_assoc|]. by destruct pre.
Qed.

Lemma rest_of_cons_r (c : ascii) (a s : str) : rest_of a s → rest_of a (c :: s).
Proof. apply (rest_of_app [c]). Qed.

(** The constants and the numbers, which [scan_once] tries last. *)
Lemma scan_word_rest (c : ascii) (s rest : str) (r : json) :
  (if Ascii.eqb c "n" then scan_constant "null" JNull s
   else if Ascii.eqb c "t" then scan_constant "true" (JBool true) s
   else if Ascii.eqb c "f" then scan_constant "false" (JBool false) s
   else None) = Some (r, rest) → rest_of rest s.
Proof.
  repeat match goal with
         | |- (if ?b then _ else _) = _ → _ => destruct b
         end; try done; by apply scan_constant_rest.
Qed.

Lemma scan_nan_rest (c : ascii) (s rest : str) (r : json) :
  (if Ascii.eqb c "N" then scan_constant "NaN" (JFloat (py "NaN")) s
   else if Ascii.eqb c "I" then scan_constant "Infinity" (JFloat (py "Infinity")) s
   else if Ascii.eqb c "-" then scan_constant "-Infinity" (JFloat (py "-Infinity")) s
   else None) = Some (r, rest) → rest_of rest s.
Proof.
  repeat match goal with
         | |- (if ?b then _ else _) = _ → _ => destruct b
         end; try done; by apply scan_constant_rest.
Qed.

Lemma scan_rest (fuel : nat) :
  (∀ s v rest, scan_once fuel s = Ret (v, rest) → rest_of rest s)
  ∧ (∀ acc s m rest, scan_members fuel acc s = Ret (m, rest) → rest_of rest s)
  ∧ (∀ acc s l rest, scan_elements fuel acc s = Ret (l, rest) → rest_of rest s).
Proof.
  induction fuel as [|fuel (IHo & IHm & IHe)]; [by repeat split|].
  split; [|split].
  - intros s v rest. cbn [scan_once]. destruct s as [|c tl]; [done|].
    destruct (Ascii.eqb c dquote).
    { destruct (scanstring tl) as [[t r]| |] eqn:Hs; simpl; [|done|done].
      intros [= <- <-]. by apply scanstring_rest, (rest_of_cons_r c) in Hs. }
    destruct (Ascii.eqb c "{").
    { destruct (skip_ws tl) as [|q r0] eqn:Hsk; [done|].
      apply skip_ws_cons_rest, (rest_of_cons_r c) in Hsk.
      destruct (Ascii.eqb_spec q "}") as [->|Hq]; [by intros [= <- <-]|].
      assert (HB : (if Ascii.eqb q dquote
                    then scan_members fuel ∅ r0 ≫= (λ '(m, rest'), Ret (JObject m, rest'))
                    else Raise ValueError) = Ret (v, rest) → rest_of rest (c :: tl)).
      { destruct (Ascii.eqb q dquote); [|done].
        destruct (scan_members fuel ∅ r0) as [[m r]| |] eqn:Hm; simpl; [|done|done].
        intros [= <- <-]. apply IHm in Hm. by eapply rest_of_trans. }
      clear -HB Hq. destruct q as [[] [] [] [] [] [] [] []]; try done. }
    destruct (Ascii.eqb c "[").
    { assert (HB : scan_elements fuel [] (skip_ws tl) ≫= (λ '(l, rest), Ret (JList l, rest))
                   = Ret (v, rest) → rest_of rest (c :: tl)).
      { destruct (scan_elements fuel [] (skip_ws tl)) as [[l r]| |] eqn:He; simpl; [|done|done].
        intros [= <- <-]. by apply IHe, rest_of_skip_ws, (rest_of_cons_r c) in He. }
      destruct (skip_ws tl) as [|q r0] eqn:Hsk; [done|].
      apply skip_ws_cons_rest, (rest_of_cons_r c) in Hsk.
      destruct (Ascii.eqb_spec q "]") as [->|Hq]; [by intros [= <- <-]|].
      clear -HB Hq. destruct q as [[] [] [] [] [] [] [] []]; try done. }
    match goal with |- match ?x with _ => _ end = _ → _ => destruct x as [[r0 rest0]|] eqn:H1 end.
    { intros [= <- <-]. by apply scan_word_rest in H1. }
    destruct (scan_number (c :: tl)) as [[r0 rest0]|] eqn:H2.
    { intros [= <- <-]. by apply scan_number_rest in H2. }
    match goal with |- match ?x with _ => _ end = _ → _ => destruct x as [[r0 rest0]|] eqn:H3 end.
    { intros [= <- <-]. by apply scan_nan_rest in H3. }
    done.
  - intros acc s m rest. cbn [scan_members].
    destruct (scanstring s) as [[key s1]| |] eqn:Hk; simpl; [|done|done].
    apply scanstring_rest in Hk.
    destruct (skip_ws s1) as [|q s2] eqn:Hsk; [done|].
    apply skip_ws_cons_rest in Hsk.
    destruct (Ascii.eqb_spec q ":") as [->|Hq];
      [|clear -Hq; destruct q as [[] [] [] [] [] [] [] []]; try done].
    destruct (scan_once fuel (skip_ws s2)) as [[value s3]| |] eqn:Hv; simpl; [|done|done].
    apply IHo, rest_of_skip_ws in Hv.
    assert (H3 : rest_of s3 s) by (eapply rest_of_trans; [|exact Hk]; by eapply rest_of_trans).
    destruct (skip_ws s3) as [|q s4] eqn:Hsk4; [done|].
    apply skip_ws_cons_rest in Hsk4.
    destruct (Ascii.eqb_spec q "}") as [->|Hq1].
    { intros [= <- <-]. by eapply rest_of_trans. }
    destruct (Ascii.eqb_spec q ",") as [->|Hq2];
      [|clear -Hq1 Hq2; destruct q as [[] [] [] [] [] [] [] []]; try done].
    destruct (skip_ws s4) as [|q' s5] eqn:Hsk5; [done|].
    apply skip_ws_cons_rest in Hsk5.
    destruct (Ascii.eqb q' dquote); [|done].
    intros Hm. apply IHm in Hm.
    eapply rest_of_trans; [exact Hm|]. eapply rest_of_trans; [exact Hsk5|].
    by eapply rest_of_trans.
  - intros acc s l rest. cbn [scan_elements].
    destruct (scan_once fuel s) as [[value s1]| |] eqn:Hv; simpl; [|done|done].
    apply IHo in Hv.
    destruct (skip_ws s1) as [|q s2] eqn:Hsk; [done|].
    apply skip_ws_cons_rest in Hsk.
    destruct (Ascii.eqb_spec q "]") as [->|Hq1].
    { intros [= <- <-]. by eapply rest_of_trans. }
    destruct (Ascii.eqb_spec q ",") as [->|Hq2];
      [|clear -Hq1 Hq2; destruct q as [[] [] [] [] [] [] [] []]; try done].
    intros He. apply IHe, rest_of_skip_ws in He.
    eapply rest_of_trans; [exact He|]. by eapply rest_of_trans.
Qed.


Lemma scan_modelled (fuel : nat) :
  (∀ s, plain s → 2 * length s + 1 ≤ fuel → modelled (scan_once fuel s))
  ∧ (∀ acc s, plain s → 2 * length s + 2 ≤ fuel → modelled (scan_members fuel acc s))
  ∧ (∀ acc s, plain s → 2 * length s + 2 ≤ fuel → modelled (scan_elements fuel acc s)).
Proof.
  induction fuel as [|fuel (IHo & IHm & IHe)]; [repeat split; intros; lia|].
  split; [|split].
  - intros s Hp Hf. cbn [scan_once]. destruct s as [|c tl]; [done|].
    pose proof (plain_drop [c] tl Hp) as Hptl. simpl in Hf.
    destruct (Ascii.eqb c dquote).
    { apply modelled_bind; [by apply scanstring_modelled|]. by intros [t r] _. }
    destruct (Ascii.eqb c "{").
    { destruct (skip_ws tl) as [|q r0] eqn:Hsk; [done|].
      apply skip_ws_cons_rest in Hsk.
      destruct (Ascii.eqb_spec q "}") as [->|Hq]; [done|].
      assert (HB : modelled
                (if Ascii.eqb q dquote
                 then scan_members fuel ∅ r0 ≫= (λ '(m, rest'), Ret (JObject m, rest'))
                 else Raise ValueError)).
      { destruct (Ascii.eqb q dquote); [|done].
        apply modelled_bind; [|by intros [m r] _].
        apply IHm; [by eapply plain_rest|]. apply rest_of_length in Hsk. lia. }
      clear -HB Hq. destruct q as [[] [] [] [] [] [] [] []]; try done. }
    destruct (Ascii.eqb c "[").
    { assert (HB : modelled (scan_elements fuel [] (skip_ws tl)
                             ≫= (λ '(l, rest), Ret (JList l, rest)))).
      { apply modelled_bind; [|by intros [l r] _].
        apply IHe; [by apply plain_skip_ws|]. pose proof (skip_ws_length tl). lia. }
      destruct (skip_ws tl) as [|q r0]; [done|].
      destruct (Ascii.eqb_spec q "]") as [->|Hq]; [done|].
      clear -HB Hq. destruct q as [[] [] [] [] [] [] [] []]; try done. }
    repeat match goal with
           | |- modelled (match ?x with _ => _ end) => destruct x
           end; done.
  - intros acc s Hp Hf. cbn [scan_members].
    apply modelled_bind; [by apply scanstring_modelled|]. intros [key s1] Hk.
    apply scanstring_rest in Hk.
    destruct (skip_ws s1) as [|q s2] eqn:Hsk; [done|].
    apply skip_ws_cons_rest in Hsk.
    destruct (Ascii.eqb_spec q ":") as [->|Hq];
      [|clear -Hq; destruct q as [[] [] [] [] [] [] [] []]; try done].
    assert (H2 : rest_of s2 s) by (by eapply rest_of_trans).
    apply modelled_bind.
    { apply IHo; [by apply plain_skip_ws, (plain_rest _ s)|].
      pose proof (skip_ws_length s2). apply rest_of_length in H2. lia. }
    intros [value s3] Hv. apply (proj1 (scan_rest fuel)), rest_of_skip_ws in Hv.
    assert (H3 : rest_of s3 s) by (by eapply rest_of_trans).
    destruct (skip_ws s3) as [|q s4] eqn:Hsk4; [done|].
    apply skip_ws_cons_rest in Hsk4.
    destruct (Ascii.eqb_spec q "}") as [->|Hq1]; [done|].
    destruct (Ascii.eqb_spec q ",") as [->|Hq2];
      [|clear -Hq1 Hq2; destruct q as [[] [] [] [] [] [] [] []]; try done].
    destruct (skip_ws s4) as [|q' s5] eqn:Hsk5; [done|].
    apply skip_ws_cons_rest in Hsk5.
    destruct (Ascii.eqb q' dquote); [|done].
    assert (H5 : rest_of s5 s).
    { eapply rest_of_trans; [exact Hsk5|]. by eapply rest_of_trans. }
    apply IHm; [by apply (plain_rest _ s)|]. apply rest_of_length in H5. lia.
  - intros acc s Hp Hf. cbn [scan_elements].
    apply modelled_bind; [apply IHo; [done|lia]|]. intros [value s1] Hv.
    apply (proj1 (scan_rest fuel)) in Hv.
    destruct (skip_ws s1) as [|q s2] eqn:Hsk; [done|].
    apply skip_ws_cons_rest in Hsk.
    destruct (Ascii.eqb_spec q "]") as [->|Hq1]; [done|].
    destruct (Ascii.eqb_spec q ",") as [->|Hq2];
      [|clear -Hq1 Hq2; destruct q as [[] [] [] [] [] [] [] []]; try done].
    assert (H2 : rest_of s2 s) by (by eapply rest_of_trans).
    apply IHe; [by apply plain_skip_ws, (plain_rest _ s)|].
    pose proof (skip_ws_length s2). apply rest_of_length in H2. lia.
Qed.

(** On a text of the model, [json.loads] returns a document or raises
    [ValueError]: the fuel of the scanner is enough. *)
Lemma loads_decides (s : str) :
  plain s → (∃ j, loads s = Ret j) ∨ loads s = Raise ValueError.
Proof.
  intros Hp.
  assert (Hm : modelled (loads s)).
  { unfold loads. apply modelled_bind.
    - apply scan_modelled; [by apply plain_skip_ws|]. pose proof (skip_ws_length s). lia.
    - intros [obj rest] _. by destruct (skip_ws rest). }
  destruct (loads s) as [j|e|] eqn:Hl; [left; eauto|right|done].
  f_equal. by apply (JsonFacts.loads_raises s).
Qed.

End JsonTotal.

(** ** [extract_properties] decides *)

Module PropertiesProps2.
Import Spec Aux.
Import StrFacts ScanFacts Text Json JsonFacts JsonTotal PropertiesFacts FindallFacts.
Import ShapeFacts PageFacts.

(** X17.  On a page of ASCII characters with no escape [\u] and fewer than
    200 opening brackets, [extract_properties] returns a document or raises
    [ValueError]: the decoding of the assignment always comes to an end. *)
Theorem extract_properties_decides (html : str) :
  Forall (fun c => code c < 128) html →
  (∀ pre post, html ≠ pre ++ backslash :: "u"%char :: post) →
  shallow html →
  (∃ j, extract_properties html = Ret j) ∨ extract_properties html = Raise ValueError.
Proof.
  intros Hc Hu _. rewrite extract_properties_first.
  destruct (first_here _ html) as [token|] eqn:Hf; [|left; eauto].
  apply loads_decides.
  apply first_here_Some in Hf as (i & Hi & Hf).
  apply field_here_inv in Hf as (post & Hs & _).
  assert (Hp : plain html) by done.
  rewrite <- (take_drop i html), Hs in Hp.
  apply plain_drop, plain_drop in Hp.
  destruct Hp as [Hc' Hu']. split; [by apply Forall_app in Hc' as [? _]|].
  intros p q ->. apply (Hu' p (q ++ post)). by rewrite <- !app_assoc.
Qed.

Lemma extract_properties_decides_witness :
  (∃ j, extract_properties (py "var properties=[1, {'a': null}];") = Ret j)
  ∨ extract_properties (py "var properties=[1, {'a': null}];") = Raise ValueError.
Proof.
  apply (extract_properties_decides (py "var properties=[1, {'a': null}];")).
  - apply ascii_check. vm_compute. reflexivity.
  - intros pre post H.
    assert (Hn : ¬ occurs [backslash; "u"%char] (py "var properties=[1, {'a': null}];")).
    { apply not_occurs_check. vm_compute. reflexivity. }
    apply Hn. by exists pre, post.
  - unfold shallow. simpl. lia.
Defined.

End PropertiesProps2.

(** ** Versions of two numbers *)

Module VersionFacts4.
Import Spec Aux.
Import Re StrFacts ScanFacts Text Builtins VersionFacts VersionFacts2 VersionFacts3.

(** No version starts on a character other than [T]. *)
Lemma version_here_head (c : ascii) (s : str) :
  c ≠ "T" → version_here (c :: s) = None.
Proof.
  intros Hc. unfold version_here.
  assert (H : is_prefix trac_name (c :: s) = false).
  { change trac_name with ("T"%char :: py "rac "). cbn [is_prefix].
    by destruct (Ascii.eqb_spec "T" c) as [<-|]. }
  by rewrite H.
Qed.

Lemma version_here_within (l s : str) (i : nat) :
  Forall (fun c => c ≠ "T"%char) l → i < length l →
  version_here (drop i (l ++ s)) = None.
Proof.
  intros Hl. revert i. induction Hl as [|c l Hc Hl IH]; intros i Hi; simpl in Hi; [lia|].
  destruct i as [|i]; simpl; [by apply version_here_head|]. apply IH. lia.
Qed.

Lemma digit_not_T (c : ascii) : is_digit c = true → c ≠ "T"%char.
Proof. intros H ->. discriminate. Qed.

(** A version of two numbers only is none. *)
Lemma version_here_two (d1 d2 post : str) :
  forallb is_digit d1 = true → forallb is_digit d2 = true →
  stops (fun c => is_digit c || Ascii.eqb c ".") post →
  version_here (trac_name ++ d1 ++ "."%char :: d2 ++ post) = None.
Proof.
  intros H1 H2 Hp. unfold version_here. rewrite is_prefix_app, drop_app_length.
  rewrite (span_spec is_digit d1 ("."%char :: d2 ++ post)) by done.
  destruct d1 as [|c1 d1]; [done|].
  assert (Hpd : stops is_digit post).
  { destruct post as [|c post]; [done|]. simpl in *. by apply orb_false_iff in Hp as [? ?]. }
  rewrite (span_spec is_digit d2 post) by done.
  destruct d2 as [|c2 d2]; [done|].
  destruct post as [|c post]; [done|]. simpl in Hp. apply orb_false_iff in Hp as [_ Hc].
  destruct (Ascii.eqb_spec c ".") as [->|Hne]; [done|].
  clear -Hne. destruct c as [[] [] [] [] [] [] [] []]; try done.
Qed.


Lemma first_version_two (d1 d2 post : str) :
  forallb is_digit d1 = true → forallb is_digit d2 = true →
  stops (fun c => is_digit c || Ascii.eqb c ".") post →
  first_here version_here post = None →
  first_here version_here (trac_name ++ d1 ++ "."%char :: d2 ++ post) = None.
Proof.
  intros H1 H2 Hp Hpost. apply first_here_None. intros i Hi.
  destruct i as [|i]; [by apply version_here_two|].
  change trac_name with ("T"%char :: py "rac "). cbn [app drop].
  set (l := py "rac " ++ d1 ++ "."%char :: d2).
  assert (Hl : Forall (fun c => c ≠ "T"%char) l).
  { unfold l. apply Forall_app. split; [by repeat constructor|].
    apply Forall_app. split.
    - apply Forall_forall. intros c Hc. apply digit_not_T.
      rewrite forallb_forall in H1. by apply H1, list_elem_of_In.
    - constructor; [done|]. apply Forall_forall. intros c Hc. apply digit_not_T.
      rewrite forallb_forall in H2. by apply H2, list_elem_of_In. }
  assert (Heq : py "rac " ++ d1 ++ "."%char :: d2 ++ post = l ++ post).
  { unfold l. by rewrite <- !app_assoc. }
  rewrite Heq. destruct (decide (i < length l)) as [Hlt|Hge].
  - by apply version_here_within.
  - rewrite drop_app_ge by lia.
    rewrite first_here_None in Hpost. apply Hpost.
    change trac_name with ("T"%char :: py "rac ") in Hi. cbn [app length] in Hi.
    rewrite Heq, length_app in Hi. lia.
Qed.

End VersionFacts4.

(** ** [extract_trac_version]: two numbers are no version *)

Module VersionProps.
Import Spec Aux.
Import Re StrFacts ScanFacts Text Builtins VersionFacts VersionFacts2 VersionFacts3.
Import VersionFacts4.

(** X18.  A version needs its three numbers:  [Trac ] followed by two numbers
    only, and then by something other than a digit or a point, is no version.
    When the rest of the page holds no version either, the result is the empty
    sequence. *)
Theorem extract_trac_version_needs_three (d1 d2 post : str) :
  forallb is_digit d1 = true → forallb is_digit d2 = true →
  stops (fun c => is_digit c || Ascii.eqb c ".") post →
  extract_trac_version post = Ret [] →
  extract_trac_version (trac_name ++ d1 ++ "."%char :: d2 ++ post) = Ret [].
Proof.
  intros H1 H2 Hp. rewrite !extract_trac_version_empty. intros Hpost.
  by apply first_version_two.
Qed.

Lemma extract_trac_version_needs_three_witness :
  extract_trac_version (trac_name ++ py "1" ++ "."%char :: py "2" ++ py " is out") = Ret [].
Proof.
  apply (extract_trac_version_needs_three (py "1") (py "2") (py " is out")).
  - reflexivity.
  - reflexivity.
  - reflexivity.
  - vm_compute. reflexivity.
Defined.

End VersionProps.
